(** * SAT encoding substrate (kernel/satgen.h) and path-sensitization miter
      (passes/cmds/sensitizepath.cc): a shallow embedding and its properties.

    Layout: the RTLIL data model, the ezSAT oracle, the [SatGen] session and
    the [SensitizePathWorker] come first; the lemmas and the theorems about
    them follow. *)

From Stdlib Require Import ZArith Lia Ascii String.
From stdpp Require Import gmap strings list fin_maps pretty.

Local Open Scope string_scope.
Local Open Scope list_scope.

Set Warnings "-register-all".

(* ===================================================================== *)
(** * RTLIL: the hardware IR (kernel/rtlil.h)                             *)
(* ===================================================================== *)

Module RTLIL.

(** Modelled from the spec: kernel/rtlil.h is not part of the sources at
    hand. A constant signal bit is one of {0, 1, X, Z}. *)
Inductive State := S0 | S1 | Sx | Sz.

Abbreviation IdString := string.

(** The port and parameter names of [ID::] that the code uses. *)
Definition ID_A : IdString := "\A".
Definition ID_B : IdString := "\B".
Definition ID_Y : IdString := "\Y".
Definition ID_EN : IdString := "\EN".
Definition ID_A_SIGNED : IdString := "\A_SIGNED".
Definition ID_B_SIGNED : IdString := "\B_SIGNED".
Definition ID_A_WIDTH : IdString := "\A_WIDTH".
Definition ID_B_WIDTH : IdString := "\B_WIDTH".
Definition ID_Y_WIDTH : IdString := "\Y_WIDTH".
Definition ID_WIDTH : IdString := "\WIDTH".

(** Modelled from the spec: a parameter value ([RTLIL::Const]) is a vector
    of states, least significant bit first. *)
Abbreviation Const := (list State).

Definition State_eqb (a b : State) : bool :=
  match a, b with
  | S0, S0 | S1, S1 | Sx, Sx | Sz, Sz => true
  | _, _ => false
  end.

(** [Const::as_bool]: some bit is 1. *)
Definition as_bool (c : Const) : bool := existsb (State_eqb S1) c.

(** [Const(int val, int width)]. *)
Definition Const_of_nat (val width : nat) : Const :=
  map (fun i => if N.testbit (N.of_nat val) (N.of_nat i) then S1 else S0) (seq 0 width).

(** Modelled from the spec: wires have a width, a name and input/output
    port flags; [keep] is the one attribute the miter builder sets. *)
Record Wire := mkWire {
  wire_name : IdString;
  width : nat;
  port_input : bool;
  port_output : bool;
  keep : bool
}.

(** Modelled from the spec: a signal bit is a constant or a reference to
    (wire, bit offset). *)
Inductive SigBit :=
  | BitConst (data : State)
  | BitWire (wire : Wire) (offset : nat).

(** A signal specification is an ordered sequence of bits. *)
Abbreviation SigSpec := (list SigBit).

Abbreviation SigSig := (list SigBit * list SigBit)%type.

#[global] Instance State_eq_dec : EqDecision State.
Proof. solve_decision. Defined.

#[global] Instance Wire_eq_dec : EqDecision Wire.
Proof. solve_decision. Defined.

#[global] Instance SigBit_eq_dec : EqDecision SigBit.
Proof. solve_decision. Defined.

#[global] Instance State_countable : Countable State.
Proof.
  refine (inj_countable'
    (fun s => match s with S0 => 0%nat | S1 => 1%nat | Sx => 2%nat | Sz => 3%nat end)
    (fun n => match n with 0%nat => S0 | 1%nat => S1 | 2%nat => Sx | _ => Sz end) _).
  by intros [].
Defined.

#[global] Instance Wire_countable : Countable Wire.
Proof.
  refine (inj_countable'
    (fun w => (wire_name w, width w, port_input w, port_output w, keep w))
    (fun t => let '(n, w, i, o, k) := t in mkWire n w i o k) _).
  by intros [].
Defined.

#[global] Instance SigBit_countable : Countable SigBit.
Proof.
  refine (inj_countable'
    (fun b => match b with BitConst d => inl d | BitWire w o => inr (w, o) end)
    (fun s => match s with inl d => BitConst d | inr (w, o) => BitWire w o end) _).
  by intros [].
Defined.

Definition is_wire_bit (b : SigBit) : bool :=
  match b with BitWire _ _ => true | BitConst _ => false end.

(** Modelled from the spec: [SigSpec::is_fully_undef] (kernel/rtlil.cc is
    not part of the sources at hand): the signal has no wire bit and every
    constant bit is undefined, that is x or z. *)
Definition is_fully_undef (sig : SigSpec) : bool :=
  forallb (fun b => match b with BitConst Sx | BitConst Sz => true | _ => false end) sig.

(** Modelled from the spec: a chunk is a run of constant bits or a run of
    consecutive bits of one wire ([wire = None] is the C++ null wire). *)
Record SigChunk := mkChunk {
  chunk_wire : option Wire;
  chunk_data : list State;
  chunk_offset : nat;
  chunk_width : nat
}.

Definition chunk_is_wire (c : SigChunk) : bool :=
  match chunk_wire c with Some _ => true | None => false end.

Definition chunk_of_bit (b : SigBit) : SigChunk :=
  match b with
  | BitConst d => mkChunk None [d] 0 1
  | BitWire w o => mkChunk (Some w) [] o 1
  end.

(** The bits a chunk stands for. *)
Definition chunk_bits (c : SigChunk) : SigSpec :=
  match chunk_wire c with
  | Some w => map (fun i => BitWire w (chunk_offset c + i)) (seq 0 (chunk_width c))
  | None => map BitConst (chunk_data c)
  end.

(** Modelled from the spec: [SigSpec::chunks] groups the bits into maximal
    runs; adjacent constants share a chunk, and so do bits of one wire at
    consecutive offsets. *)
Fixpoint chunks (sig : SigSpec) : list SigChunk :=
  match sig with
  | [] => []
  | bit :: rest =>
      match chunks rest with
      | [] => [chunk_of_bit bit]
      | c :: cs =>
          match bit, chunk_wire c with
          | BitConst d, None =>
              mkChunk None (d :: chunk_data c) 0 (S (chunk_width c)) :: cs
          | BitWire w o, Some w' =>
              if decide (w = w' ∧ S o = chunk_offset c)
              then mkChunk (Some w) [] o (S (chunk_width c)) :: cs
              else chunk_of_bit bit :: c :: cs
          | _, _ => chunk_of_bit bit :: c :: cs
          end
      end
  end.

(** [SigSpec::append(chunk)]. *)
Definition append (sig : SigSpec) (c : SigChunk) : SigSpec := sig ++ chunk_bits c.

(** Modelled from the spec: a cell has a type tag, named ports and a
    parameter dictionary. Ports keep their insertion order. *)
Record Cell := mkCell {
  cell_name : IdString;
  type : IdString;
  connections_ : list (IdString * SigSpec);
  parameters : gmap IdString Const
}.

Fixpoint assoc {A} (k : IdString) (l : list (IdString * A)) : option A :=
  match l with
  | [] => None
  | (k', v) :: l' => if decide (k = k') then Some v else assoc k l'
  end.

(** [Cell::getPort]: the signal on a port; a missing port is an error. *)
Definition getPort (c : Cell) (port : IdString) : option SigSpec :=
  assoc port (connections_ c).

Fixpoint assoc_set {A} (k : IdString) (v : A) (l : list (IdString * A)) : list (IdString * A) :=
  match l with
  | [] => [(k, v)]
  | (k', v') :: l' => if decide (k = k') then (k, v) :: l' else (k', v') :: assoc_set k v l'
  end.

(** [Cell::setPort]: overwrite the port's signal, or add the port. *)
Definition setPort (c : Cell) (port : IdString) (sig : SigSpec) : Cell :=
  mkCell (cell_name c) (type c) (assoc_set port sig (connections_ c)) (parameters c).

(** Modelled from the spec: a module owns wires, cells and direct
    connections. Cells live in an arena addressed by stable indices, which
    stand for the C++ [Cell*]; a removed cell leaves [None] behind.
    [memories] and [processes] hold the names of the constructs that the
    `memory` and `proc` passes lower. *)
Record Module := mkModule {
  module_name : IdString;
  wires_ : list Wire;
  cells_ : list (option Cell);
  connections : list SigSig;
  memories : list IdString;
  processes : list IdString
}.

Definition has_memories (m : Module) : bool := negb (bool_decide (memories m = [])).
Definition has_processes (m : Module) : bool := negb (bool_decide (processes m = [])).

(** Modelled from the spec: a design maps module names to modules. *)
Abbreviation Design := (gmap string Module).

(** [RTLIL::escape_id]. *)
Definition escape_id (str : string) : IdString :=
  match str with
  | String c _ =>
      if bool_decide (c = "\"%char) || bool_decide (c = "$"%char) then str
      else String "\"%char str
  | EmptyString => str
  end.

(** [IdString::isPublic]: the name starts with a backslash. *)
Definition isPublic (n : IdString) : bool :=
  match n with
  | String c _ => bool_decide (c = "\"%char)
  | EmptyString => false
  end.

(** ** Module methods *)

(** Modelled from the spec: [NEW_ID] yields an auto-generated (non-public)
    name that is new in the design; [autoidx] is the global counter behind
    it. *)
Definition new_id (autoidx : nat) : IdString := "$auto$" +:+ pretty autoidx.

(** [SigSpec] of a wire: all bits of a wire, least significant first. *)
Definition sig_of (w : Wire) : SigSpec := map (BitWire w) (seq 0 (width w)).

Definition with_wires (m : Module) (ws : list Wire) : Module :=
  mkModule (module_name m) ws (cells_ m) (connections m) (memories m) (processes m).

Definition with_cells (m : Module) (cs : list (option Cell)) : Module :=
  mkModule (module_name m) (wires_ m) cs (connections m) (memories m) (processes m).

(** [Module::new_connections]: replace the direct connections. *)
Definition new_connections (m : Module) (conns : list SigSig) : Module :=
  mkModule (module_name m) (wires_ m) (cells_ m) conns (memories m) (processes m).

(** [Module::cells()]: the live cells. *)
Definition cells (m : Module) : list Cell := omap id (cells_ m).

(** The cell behind a handle. *)
Definition cell_at (m : Module) (h : nat) : option Cell := mjoin (cells_ m !! h).

(** Modelled from the spec: [Module::addWire(name, width)]. *)
Definition addWire (m : Module) (name : IdString) (width : nat) : Wire * Module :=
  let w := mkWire name width false false false in
  (w, with_wires m (wires_ m ++ [w])).

(** Modelled from the spec: [Module::addWire(name, other)] copies the
    width, the port flags and the attributes of [other]. *)
Definition addWire_like (m : Module) (name : IdString) (other : Wire) : Wire * Module :=
  let w := mkWire name (width other) (port_input other) (port_output other) (keep other) in
  (w, with_wires m (wires_ m ++ [w])).

(** Adding a cell returns its handle. *)
Definition add_cell (m : Module) (c : Cell) : nat * Module :=
  (length (cells_ m), with_cells m (cells_ m ++ [Some c])).

(** Modelled from the spec: [Module::addCell(name, other)] copies type,
    ports and parameters of [other]. *)
Definition addCell_like (m : Module) (name : IdString) (other : Cell) : nat * Module :=
  add_cell m (mkCell name (type other) (connections_ other) (parameters other)).

(** [Module::remove(cell)]. *)
Definition remove (m : Module) (h : nat) : Module :=
  with_cells m (<[h := None]> (cells_ m)).

(** [cell->setPort(port, sig)] on the cell behind a handle. *)
Definition set_port (m : Module) (h : nat) (port : IdString) (sig : SigSpec) : Module :=
  with_cells m (alter (fmap (λ c, setPort c port sig)) h (cells_ m)).

(** Modelled from the spec: [Module::Anyseq(name, width)] adds a free
    ("any value") source: a fresh wire driven by a [$anyseq] cell. *)
Definition Anyseq (m : Module) (autoidx : nat) (name : IdString) (width : nat)
    : SigSpec * Module * nat :=
  let '(w, m) := addWire m (new_id autoidx) width in
  let cell := mkCell name "$anyseq" [(ID_Y, sig_of w)] {[ ID_WIDTH := Const_of_nat width 32 ]} in
  (sig_of w, (add_cell m cell).2, S autoidx).

(** Modelled from the spec: the not-equal-with-undef gate [$nex] and the
    equal-with-undef gate [$eqx], [Module::addNex] and [Module::addEqx]. *)
Definition compare_cell (ty name : IdString) (sig_a sig_b sig_y : SigSpec) : Cell :=
  mkCell name ty [(ID_A, sig_a); (ID_B, sig_b); (ID_Y, sig_y)]
    {[ ID_A_SIGNED := Const_of_nat 0 32; ID_B_SIGNED := Const_of_nat 0 32;
       ID_A_WIDTH := Const_of_nat (length sig_a) 32;
       ID_B_WIDTH := Const_of_nat (length sig_b) 32;
       ID_Y_WIDTH := Const_of_nat (length sig_y) 32 ]}.

Definition addNex (m : Module) (name : IdString) (sig_a sig_b sig_y : SigSpec) : Module :=
  (add_cell m (compare_cell "$nex" name sig_a sig_b sig_y)).2.

Definition addEqx (m : Module) (name : IdString) (sig_a sig_b sig_y : SigSpec) : Module :=
  (add_cell m (compare_cell "$eqx" name sig_a sig_b sig_y)).2.

(** [Module::Nex(name, a, b)] and [Module::Eqx(name, a, b)]: the gate
    with a fresh one-bit output wire, which is returned. *)
Definition Nex (m : Module) (autoidx : nat) (name : IdString) (sig_a sig_b : SigSpec)
    : SigSpec * Module * nat :=
  let '(w, m) := addWire m (new_id autoidx) 1 in
  (sig_of w, addNex m name sig_a sig_b (sig_of w), S autoidx).

Definition Eqx (m : Module) (autoidx : nat) (name : IdString) (sig_a sig_b : SigSpec)
    : SigSpec * Module * nat :=
  let '(w, m) := addWire m (new_id autoidx) 1 in
  (sig_of w, addEqx m name sig_a sig_b (sig_of w), S autoidx).

(** Modelled from the spec: [Module::cloneInto] deep-copies wires, cells
    and connections into the destination. *)
Definition cloneInto (src dst : Module) : Module :=
  mkModule (module_name dst) (wires_ src) (Some <$> cells src) (connections src)
           (memories src) (processes src).

(** Modelled from the spec: [Module::fixup_ports] recomputes the port
    order from the port flags of the wires; the order is not part of this
    model, the flags stay as they are. *)
Definition fixup_ports (m : Module) : Module := m.

(** [Design::addModule(name)]: a new, empty module. *)
Definition empty_module (name : IdString) : Module := mkModule name [] [] [] [] [].

End RTLIL.

Import RTLIL.

(* ===================================================================== *)
(** * ezSAT: the boolean-satisfiability oracle (libs/ezsat)               *)
(* ===================================================================== *)

Module ezSAT.

Inductive OpId := OpNot | OpAnd | OpOr | OpXor | OpIFF | OpITE.

(** Modelled from the spec: libs/ezsat is not part of the sources at hand.
    A literal (the C++ [int] handle) is the true or false constant, a
    variable of the session (named and frozen, or anonymous), or the handle
    of an n-ary AND/OR/NOT/IFF/if-then-else over literals, kept here as
    the formula it denotes. *)
Inductive lit :=
  | CONST_TRUE
  | CONST_FALSE
  | Var (id : nat)
  | Expr (op : OpId) (args : list lit).

(** Modelled from the spec: the oracle of one session. [literals] holds the
    name of every variable allocated so far (empty for an anonymous one),
    [literalsCache] finds a named variable again, [assumed] collects the
    hard constraints. *)
Record solver := mkSolver {
  literals : list string;
  literalsCache : gmap string nat;
  assumed : list lit
}.

Definition empty : solver := mkSolver [] ∅ [].

(** Allocate a fresh anonymous literal. *)
Definition literal (ez : solver) : lit * solver :=
  (Var (S (length (literals ez))),
   mkSolver (literals ez ++ [""]) (literalsCache ez) (assumed ez)).

(** Allocate or retrieve a named literal. *)
Definition literal_named (name : string) (ez : solver) : lit * solver :=
  match literalsCache ez !! name with
  | Some id => (Var id, ez)
  | None =>
      let id := S (length (literals ez)) in
      (Var id, mkSolver (literals ez ++ [name]) (<[name := id]> (literalsCache ez)) (assumed ez))
  end.

(** Freezing keeps a variable out of the solver's simplifications; it does
    not change which literal a name denotes. *)
Definition frozen_literal (ez : solver) : lit * solver := literal ez.
Definition frozen_literal_named (name : string) (ez : solver) : lit * solver :=
  literal_named name ez.

Definition expression (op : OpId) (args : list lit) : lit := Expr op args.
Definition NOT (a : lit) : lit := expression OpNot [a].
Definition AND (a b : lit) : lit := expression OpAnd [a; b].
Definition OR (a b : lit) : lit := expression OpOr [a; b].
Definition IFF (a b : lit) : lit := expression OpIFF [a; b].
Definition ITE (a b c : lit) : lit := expression OpITE [a; b; c].

(** Vector operators work bit by bit; operands of different lengths are a
    contract violation ([None]). *)
Definition vec_not (v : list lit) : list lit := map NOT v.

Definition vec_zip (f : lit -> lit -> lit) (v1 v2 : list lit) : option (list lit) :=
  if decide (length v1 = length v2) then Some (zip_with f v1 v2) else None.

Definition vec_and := vec_zip AND.
Definition vec_or := vec_zip OR.
Definition vec_iff := vec_zip IFF.
Definition vec_ite (sel : lit) := vec_zip (ITE sel).

Definition vec_eq (v1 v2 : list lit) : option lit :=
  v ← vec_iff v1 v2; Some (expression OpAnd v).

(** Assume (hard-constrain) a literal to be true. *)
Definition assume (e : lit) (ez : solver) : solver :=
  mkSolver (literals ez) (literalsCache ez) (e :: assumed ez).

(** The meaning of the connectives on truth values. *)
Definition eval_op (op : OpId) (args : list bool) : bool :=
  match op with
  | OpNot => match args with [a] => negb a | _ => false end
  | OpAnd => forallb id args
  | OpOr => existsb id args
  | OpXor => foldr xorb false args
  | OpIFF => match args with [] => true | a :: r => forallb (eqb a) r end
  | OpITE => match args with [c; a; b] => if c then a else b | _ => false end
  end.

(** The truth value of a literal under an assignment of the variables. *)
Fixpoint eval (rho : nat -> bool) (e : lit) : bool :=
  match e with
  | CONST_TRUE => true
  | CONST_FALSE => false
  | Var id => rho id
  | Expr op args => eval_op op (map (eval rho) args)
  end.

(** An assignment is a model of the session when it satisfies every
    assumed literal. *)
Definition models (rho : nat -> bool) (ez : solver) : bool :=
  forallb (eval rho) (assumed ez).

End ezSAT.

Import ezSAT.

(* ===================================================================== *)
(** * SatGen: the symbolic bit-encoding session (kernel/satgen.h)         *)
(* ===================================================================== *)

Module SatGen.

(** The session. [sigmap] is the signal canonicalizer the session points
    to ([SigMap*]): it maps a bit to its canonical driven equivalent. *)
Record SatGen := mkSatGen {
  ez : solver;
  sigmap : SigBit -> SigBit;
  prefix : string;
  initial_state : gset SigBit;
  imported_signals : gmap string (gmap SigBit lit);
  initstates : gmap (string * Z) bool;
  ignore_div_by_zero : bool;
  model_undef : bool;
  def_formal : bool
}.

Definition with_ez (g : SatGen) (e : solver) : SatGen :=
  mkSatGen e (sigmap g) (prefix g) (initial_state g) (imported_signals g)
           (initstates g) (ignore_div_by_zero g) (model_undef g) (def_formal g).

Definition with_imported_signals (g : SatGen) (m : gmap string (gmap SigBit lit)) : SatGen :=
  mkSatGen (ez g) (sigmap g) (prefix g) (initial_state g) m
           (initstates g) (ignore_div_by_zero g) (model_undef g) (def_formal g).

Definition with_model_undef (g : SatGen) (b : bool) : SatGen :=
  mkSatGen (ez g) (sigmap g) (prefix g) (initial_state g) (imported_signals g)
           (initstates g) (ignore_div_by_zero g) b (def_formal g).

(** [SatGen(ez, sigmap, prefix)]. *)
Definition new (e : solver) (sm : SigBit -> SigBit) (pfx : string) : SatGen :=
  mkSatGen e sm pfx ∅ ∅ ∅ false false false.

(** [std::map::operator[]]: the value under a key, after inserting the
    default value when the key was missing. *)
Definition subscript {K} `{Countable K} {V} (dflt : V) (m : gmap K V) (k : K) : V * gmap K V :=
  match m !! k with
  | Some v => (v, m)
  | None => (dflt, <[k := dflt]> m)
  end.

Section Session.

(** [log_id] (kernel/log.h) turns a wire name into its readable form; the
    session is developed for any such function. *)
Variable log_id : IdString -> string.

(** [stringf("%s", log_id(wire))] for a one-bit wire, else
    [stringf("%s [%d]", log_id(wire->name), offset)]. *)
Definition bit_name (pf : string) (w : Wire) (offset : nat) : string :=
  pf +:+ (if decide (width w = 1%nat) then log_id (wire_name w)
          else log_id (wire_name w) +:+ " [" +:+ pretty offset +:+ "]").

(** Body of the loop of [importSigSpecWorker], for one canonical bit. *)
Definition importSigSpecWorker_bit (pf : string) (undef_mode dup_undef : bool)
    (acc : list lit * SatGen) (bit : SigBit) : list lit * SatGen :=
  let '(vec, g) := acc in
  match bit with
  | BitConst d =>
      if model_undef g && dup_undef && State_eqb d Sx then
        let '(l, e) := frozen_literal (ez g) in (vec ++ [l], with_ez g e)
      else
        (vec ++ [if State_eqb d (if undef_mode then Sx else S1) then CONST_TRUE else CONST_FALSE], g)
  | BitWire w offset =>
      let name := bit_name pf w offset in
      let '(l, e) := frozen_literal_named name (ez g) in
      let g := with_ez g e in
      let '(inner, outer) := subscript ∅ (imported_signals g) pf in
      (vec ++ [l], with_imported_signals g (<[pf := <[bit := l]> inner]> outer))
  end.

Definition importSigSpecWorker (g : SatGen) (sig : SigSpec) (pf : string)
    (undef_mode dup_undef : bool) : option (list lit * SatGen) :=
  if undef_mode && negb (model_undef g) then None
  else
    let sig := map (sigmap g) sig in
    Some (foldl (importSigSpecWorker_bit pf undef_mode dup_undef) ([], g) sig).

(** [timestep == -1 ? "" : stringf("@%d:", timestep)]. *)
Definition timestep_suffix (timestep : Z) : string :=
  if decide (timestep = (-1)%Z) then "" else "@" +:+ pretty timestep +:+ ":".

Definition importSigSpec (g : SatGen) (sig : SigSpec) (timestep : Z) : option (list lit * SatGen) :=
  if decide (timestep = 0%Z) then None
  else
    let pf := prefix g +:+ timestep_suffix timestep in
    importSigSpecWorker g sig pf false false.

Definition importDefSigSpec (g : SatGen) (sig : SigSpec) (timestep : Z) : option (list lit * SatGen) :=
  if decide (timestep = 0%Z) then None
  else
    let pf := prefix g +:+ timestep_suffix timestep in
    importSigSpecWorker g sig pf false true.

Definition importUndefSigSpec (g : SatGen) (sig : SigSpec) (timestep : Z) : option (list lit * SatGen) :=
  if decide (timestep = 0%Z) then None
  else
    let pf := "undef:" +:+ prefix g +:+ timestep_suffix timestep in
    importSigSpecWorker g sig pf true false.

(** [vec.front()]. *)
Definition front (r : list lit * SatGen) : option (lit * SatGen) :=
  l ← head r.1; Some (l, r.2).

Definition importSigBit (g : SatGen) (bit : SigBit) (timestep : Z) : option (lit * SatGen) :=
  if decide (timestep = 0%Z) then None
  else
    let pf := prefix g +:+ timestep_suffix timestep in
    importSigSpecWorker g [bit] pf false false ≫= front.

Definition importDefSigBit (g : SatGen) (bit : SigBit) (timestep : Z) : option (lit * SatGen) :=
  if decide (timestep = 0%Z) then None
  else
    let pf := prefix g +:+ timestep_suffix timestep in
    importSigSpecWorker g [bit] pf false true ≫= front.

Definition importUndefSigBit (g : SatGen) (bit : SigBit) (timestep : Z) : option (lit * SatGen) :=
  if decide (timestep = 0%Z) then None
  else
    let pf := "undef:" +:+ prefix g +:+ timestep_suffix timestep in
    importSigSpecWorker g [bit] pf true false ≫= front.

Definition importedSigBit (g : SatGen) (bit : SigBit) (timestep : Z) : option (bool * SatGen) :=
  if decide (timestep = 0%Z) then None
  else
    let pf := prefix g +:+ timestep_suffix timestep in
    let '(inner, outer) := subscript ∅ (imported_signals g) pf in
    Some (bool_decide (is_Some (inner !! bit)), with_imported_signals g outer).

(** Used for importing assert/assume/cover. *)
Definition importPropertyCell (g : SatGen) (cell : Cell) (timestep : Z) : option (lit * SatGen) :=
  if negb (bool_decide (type cell ∈ ["$assert"; "$assume"; "$cover"])) then None
  else
    port_a ← getPort cell ID_A;
    port_en ← getPort cell ID_EN;
    let check_sig := map (sigmap g) port_a in
    let en_sig := map (sigmap g) port_en in
    if negb (bool_decide (length check_sig = 1%nat)) then None
    else if negb (bool_decide (length en_sig = 1%nat)) then None
    else
      '(check_bit, g) ← importDefSigSpec g check_sig timestep ≫= front;
      '(enable_bit, g) ← importDefSigSpec g en_sig timestep ≫= front;
      '(check_bit, enable_bit, g) ←
        (if model_undef g then
           '(undef_check, g) ← importUndefSigSpec g check_sig timestep ≫= front;
           let check_bit := AND (NOT undef_check) check_bit in
           '(undef_en, g) ← importUndefSigSpec g en_sig timestep ≫= front;
           let enable_bit := AND (NOT undef_en) enable_bit in
           Some (check_bit, enable_bit, g)
         else Some (check_bit, enable_bit, g));
      (* For covers we want to see enable and check at the same time *)
      if bool_decide (type cell = "$cover") then Some (AND check_bit enable_bit, g)
      (* For assert/assume, the property under consideration is en -> check *)
      else Some (OR (NOT enable_bit) check_bit, g).

(** Body of the loop of [signals_eq] at index [i]; [.at(i)] fails out of
    range. *)
Definition signals_eq_bit (vec_lhs vec_rhs undef_lhs undef_rhs : list lit) (i : nat) : option lit :=
  ul ← undef_lhs !! i;
  ur ← undef_rhs !! i;
  vl ← vec_lhs !! i;
  vr ← vec_rhs !! i;
  Some (AND (IFF ul ur) (IFF (OR vl ul) (OR vr ur))).

Definition signals_eq (g : SatGen) (lhs rhs : SigSpec) (timestep_lhs timestep_rhs : Z)
    : option (lit * SatGen) :=
  let timestep_rhs := if decide (timestep_rhs < 0)%Z then timestep_lhs else timestep_rhs in
  if negb (bool_decide (length lhs = length rhs)) then None
  else
    '(vec_lhs, g) ← importSigSpec g lhs timestep_lhs;
    '(vec_rhs, g) ← importSigSpec g rhs timestep_rhs;
    if negb (model_undef g) then
      e ← vec_eq vec_lhs vec_rhs; Some (e, g)
    else
      '(undef_lhs, g) ← importUndefSigSpec g lhs timestep_lhs;
      '(undef_rhs, g) ← importUndefSigSpec g rhs timestep_rhs;
      eq_bits ← mapM (signals_eq_bit vec_lhs vec_rhs undef_lhs undef_rhs) (seq 0 (length lhs));
      Some (expression OpAnd eq_bits, g).

(** [while (vec.size() < n) vec.push_back(is_signed && vec.size() > 0 ?
    vec.back() : CONST_FALSE)]. Every round makes the vector longer, so
    the loop leaves within [n] rounds; [fuel] counts them. *)
Fixpoint extend_while (fuel : nat) (is_signed : bool) (n : nat) (vec : list lit) : list lit :=
  match fuel with
  | O => vec
  | S fuel =>
      if decide (length vec < n)%nat
      then extend_while fuel is_signed n
             (vec ++ [if is_signed && bool_decide (0 < length vec)%nat
                      then List.last vec CONST_FALSE else CONST_FALSE])
      else vec
  end.

Definition extend (is_signed : bool) (n : nat) (vec : list lit) : list lit :=
  extend_while n is_signed n vec.

(** [while (vec_y.size() < n) vec_y.push_back(ez->literal())]. *)
Fixpoint fresh_while (fuel : nat) (n : nat) (acc : list lit * solver) : list lit * solver :=
  match fuel with
  | O => acc
  | S fuel =>
      if decide (length acc.1 < n)%nat
      then let '(l, e) := literal acc.2 in fresh_while fuel n (acc.1 ++ [l], e)
      else acc
  end.

Definition param_set (cell : Cell) (k : IdString) : bool :=
  bool_decide (is_Some (parameters cell !! k)).

Definition param_bool (cell : Cell) (k : IdString) : bool :=
  as_bool (default [] (parameters cell !! k)).

(** [extendSignalWidth(vec_a, vec_b, cell, y_width, forced_signed)]; the
    result is the new contents of [vec_a] and [vec_b]. *)
Definition extendSignalWidth (vec_a vec_b : list lit) (cell : Cell) (y_width : nat)
    (forced_signed : bool) : list lit * list lit :=
  let is_signed :=
    if negb forced_signed && param_set cell ID_A_SIGNED && param_set cell ID_B_SIGNED
    then param_bool cell ID_A_SIGNED && param_bool cell ID_B_SIGNED
    else forced_signed in
  let vec_a := extend is_signed (length vec_b `max` y_width) vec_a in
  let vec_b := extend is_signed (length vec_a `max` y_width) vec_b in
  (vec_a, vec_b).

(** [extendSignalWidth(vec_a, vec_b, vec_y, cell, forced_signed)]. *)
Definition extendSignalWidth_y (g : SatGen) (vec_a vec_b vec_y : list lit) (cell : Cell)
    (forced_signed : bool) : list lit * list lit * list lit * SatGen :=
  let '(vec_a, vec_b) := extendSignalWidth vec_a vec_b cell (length vec_y) forced_signed in
  let '(vec_y, e) := fresh_while (length vec_a) (length vec_a) (vec_y, ez g) in
  (vec_a, vec_b, vec_y, with_ez g e).

Definition extendSignalWidthUnary (g : SatGen) (vec_a vec_y : list lit) (cell : Cell)
    (forced_signed : bool) : list lit * list lit * SatGen :=
  let is_signed :=
    forced_signed || (param_set cell ID_A_SIGNED && param_bool cell ID_A_SIGNED) in
  let vec_a := extend is_signed (length vec_y) vec_a in
  let '(vec_y, e) := fresh_while (length vec_a) (length vec_a) (vec_y, ez g) in
  (vec_a, vec_y, with_ez g e).

(** [undefGating(vec_y, vec_yy, vec_undef)]: no result, one more
    assumption in the oracle. *)
Definition undefGating (g : SatGen) (vec_y vec_yy vec_undef : list lit) : option SatGen :=
  if negb (model_undef g) then None
  else if negb (bool_decide (length vec_y = length vec_yy)) then None
  else if bool_decide (length vec_undef < length vec_y)%nat then
    let trunc_y := take (length vec_undef) vec_y in
    let trunc_yy := take (length vec_undef) vec_yy in
    v_iff ← vec_iff trunc_y trunc_yy;
    v_or ← vec_or vec_undef v_iff;
    Some (with_ez g (assume (expression OpAnd v_or) (ez g)))
  else if negb (bool_decide (length vec_y = length vec_undef)) then None
  else
    v_iff ← vec_iff vec_y vec_yy;
    v_or ← vec_or vec_undef v_iff;
    Some (with_ez g (assume (expression OpAnd v_or) (ez g))).

Definition mux (g : SatGen) (s undef_s : lit) (a undef_a b undef_b : list lit)
    : option (list lit * list lit) :=
  res ← vec_ite s b a;
  if model_undef g then
    iff_ab ← vec_iff a b;
    let unequal_ab := vec_not iff_ab in
    undef_a_or_b ← vec_or undef_a undef_b;
    undef_ab ← vec_or unequal_ab undef_a_or_b;
    undef_sel ← vec_ite s undef_b undef_a;
    undef_res ← vec_ite undef_s undef_ab undef_sel;
    Some (res, undef_res)
  else Some (res, []).

(** [undefGating(int y, int yy, int undef)]. *)
Definition undefGating_scalar (g : SatGen) (y yy undef : lit) : SatGen :=
  with_ez g (assume (OR undef (IFF y yy)) (ez g)).

End Session.

Definition with_initstates (g : SatGen) (m : gmap (string * Z) bool) : SatGen :=
  mkSatGen (ez g) (sigmap g) (prefix g) (initial_state g) (imported_signals g)
           m (ignore_div_by_zero g) (model_undef g) (def_formal g).

(** [setContext(sigmap, prefix)]. *)
Definition setContext (g : SatGen) (sm : SigBit -> SigBit) (pfx : string) : SatGen :=
  mkSatGen (ez g) sm pfx (initial_state g) (imported_signals g)
           (initstates g) (ignore_div_by_zero g) (model_undef g) (def_formal g).

(** [setInitState(timestep)]: the key must be new or already true. *)
Definition setInitState (g : SatGen) (timestep : Z) : option SatGen :=
  let key := (prefix g, timestep) in
  if bool_decide (initstates g !! key = None) || bool_decide (initstates g !! key = Some true)
  then Some (with_initstates g (<[key := true]> (initstates g)))
  else None.

End SatGen.

(* ===================================================================== *)
(** * SensitizePath: the miter builder (passes/cmds/sensitizepath.cc)     *)
(* ===================================================================== *)

Module SensitizePath.

(** The worker. [miter] is the module under construction, [autoidx] the
    global counter behind [NEW_ID]. Wires are values in this model, so
    [wire_map] is keyed by the wire itself. (The [design] pointer of the
    C++ worker is only used for logging and is left out.) *)
Record SensitizePathWorker := mkWorker {
  opt_constrain_inputs : bool;
  opt_constrain_all : bool;
  sigmap : SigBit -> SigBit;
  src_module : Module;
  miter : Module;
  wire_map : gmap Wire Wire;
  new_connections : list SigSig;
  autoidx : nat
}.

Definition with_miter (w : SensitizePathWorker) (m : Module) (idx : nat) : SensitizePathWorker :=
  mkWorker (opt_constrain_inputs w) (opt_constrain_all w) (sigmap w) (src_module w)
           m (wire_map w) (new_connections w) idx.

Definition with_sigmap (w : SensitizePathWorker) (sm : SigBit -> SigBit) : SensitizePathWorker :=
  mkWorker (opt_constrain_inputs w) (opt_constrain_all w) sm (src_module w)
           (miter w) (wire_map w) (new_connections w) (autoidx w).

Definition with_wire_map (w : SensitizePathWorker) (wm : gmap Wire Wire) : SensitizePathWorker :=
  mkWorker (opt_constrain_inputs w) (opt_constrain_all w) (sigmap w) (src_module w)
           (miter w) wm (new_connections w) (autoidx w).

Definition label_b (name : IdString) : IdString := name +:+ "__b".
Definition label_x (name : IdString) : IdString := name +:+ "__is_x".

(** [connect(...)]: queue a connection. *)
Definition connect (w : SensitizePathWorker) (conn : SigSig) : SensitizePathWorker :=
  mkWorker (opt_constrain_inputs w) (opt_constrain_all w) (sigmap w) (src_module w)
           (miter w) (wire_map w) (new_connections w ++ [conn]) (autoidx w).

Definition write_new_connections (w : SensitizePathWorker) : SensitizePathWorker :=
  with_miter w (RTLIL.new_connections (miter w) (new_connections w)) (autoidx w).

(** [chunk.wire = wire_map[chunk.wire]]. A wire that is not in the map
    yields the null wire; [run] maps every wire of the miter before it
    rewrites any signal. *)
Definition rewrite_chunk (wm : gmap Wire Wire) (chunk : SigChunk) : SigChunk :=
  match chunk_wire chunk with
  | Some wr => mkChunk (wm !! wr) (chunk_data chunk) (chunk_offset chunk) (chunk_width chunk)
  | None => chunk
  end.

(** Convert path a wires to path b wires in a sigspec. *)
Definition rewrite_sigspec (w : SensitizePathWorker) (sig : SigSpec) : SigSpec :=
  foldl (λ new_sig chunk, append new_sig (rewrite_chunk (wire_map w) chunk)) [] (chunks sig).

(** [auto anyseq = miter->Anyseq(NEW_ID, x_len); sig_a.append(anyseq);
    sig_b.append(anyseq);] *)
Definition append_anyseq (st : SensitizePathWorker * SigSpec * SigSpec) (x_len : nat)
    : SensitizePathWorker * SigSpec * SigSpec :=
  let '(w, sig_a, sig_b) := st in
  let name := new_id (autoidx w) in
  let '(anyseq, m, idx) := Anyseq (miter w) (S (autoidx w)) name x_len in
  (with_miter w m idx, sig_a ++ anyseq, sig_b ++ anyseq).

(** The loop over the bits of a constant chunk, with the closing
    [if (x_len > 0)] at the end of the data. *)
Fixpoint constrain_data (data : list State) (x_len : nat)
    (st : SensitizePathWorker * SigSpec * SigSpec) : SensitizePathWorker * SigSpec * SigSpec :=
  match data with
  | [] => if bool_decide (0 < x_len)%nat then append_anyseq st x_len else st
  | bit :: data =>
      if State_eqb bit Sx then constrain_data data (S x_len) st
      else
        let st := if bool_decide (0 < x_len)%nat then append_anyseq st x_len else st in
        let '(w, sig_a, sig_b) := st in
        constrain_data data 0 (w, sig_a ++ [BitConst bit], sig_b ++ [BitConst bit])
  end.

Definition constrain_chunk (st : SensitizePathWorker * SigSpec * SigSpec) (chunk : SigChunk)
    : SensitizePathWorker * SigSpec * SigSpec :=
  if chunk_is_wire chunk then
    let '(w, sig_a, sig_b) := st in
    (w, append sig_a chunk, append sig_b (rewrite_chunk (wire_map w) chunk))
  else constrain_data (chunk_data chunk) 0 st.

(** Convert path a wires to path b wires in a sigspec, and constrain any
    x bits to take the same anyseq value in both paths. *)
Definition rewrite_sigspec_constrain (w : SensitizePathWorker) (sig : SigSpec)
    : option (SensitizePathWorker * SigSpec * SigSpec) :=
  let '(w, sig_a, sig_b) := foldl constrain_chunk (w, [], []) (chunks sig) in
  if bool_decide (length sig_a = length sig) then Some (w, sig_a, sig_b) else None.

(** Insert $eqx/$nex cells to replace ===/!== 'x. [h] is the handle of
    [eq_cell] in the miter. *)
Definition convert_x_equality (w : SensitizePathWorker) (h : nat) (eq_cell : Cell)
    : option SensitizePathWorker :=
  port_a ← getPort eq_cell ID_A;
  port_b ← getPort eq_cell ID_B;
  let sig_a := map (sigmap w) port_a in
  let sig_b := map (sigmap w) port_b in
  match (if is_fully_undef sig_a then Some (rewrite_sigspec w sig_b, sig_b)
         else if is_fully_undef sig_b then Some (sig_a, rewrite_sigspec w sig_a)
         else None) with
  | None => Some w
  | Some (sig_a, sig_b) =>
      let name := new_id (autoidx w) in
      let '(eq_wire, m, idx) :=
        if bool_decide (type eq_cell = "$eqx")
        then Nex (miter w) (S (autoidx w)) name sig_a sig_b
        else Eqx (miter w) (S (autoidx w)) name sig_a sig_b in
      let w := with_miter w m idx in
      sig_y ← getPort eq_cell ID_Y;
      let w := connect w (sig_y, eq_wire) in
      let w := connect w (rewrite_sigspec w sig_y, eq_wire) in
      Some (with_miter w (remove (miter w) h) (autoidx w))
  end.

Definition add_x_wire (w : SensitizePathWorker) (wire_a wire_b : Wire) : SensitizePathWorker :=
  if negb (isPublic (wire_name wire_a)) then w
  else
    let '(wire_x, m) := addWire_like (miter w) (label_x (wire_name wire_a)) wire_b in
    (* wire_x->set_bool_attribute(ID::keep) *)
    let kept := mkWire (wire_name wire_x) (width wire_x) (port_input wire_x) (port_output wire_x) true in
    let m := with_wires m (wires_ (miter w) ++ [kept]) in
    let name := new_id (autoidx w) in
    with_miter w (addNex m name (sig_of wire_a) (sig_of wire_b) (sig_of kept)) (S (autoidx w)).

(** Monadic left fold: a failing step ends the loop. *)
Fixpoint foldM {S A} (f : S → A → option S) (s : S) (l : list A) : option S :=
  match l with
  | [] => Some s
  | x :: l => f s x ≫= λ s', foldM f s' l
  end.

(** [SigPool]: a set of wire bits. *)
Abbreviation SigPool := (gset SigBit).

Definition pool_add (p : SigPool) (sig : SigSpec) : SigPool :=
  p ∪ list_to_set (filter (λ b, is_wire_bit b = true) sig).

Definition pool_del (p : SigPool) (sig : SigSpec) : SigPool :=
  p ∖ list_to_set sig.

Definition export_all (p : SigPool) : SigSpec := elements p.

Section Run.

(** The canonicalizer built from a module's connections ([SigMap(module)],
    kernel/sigtools.h), and the cell-library queries [cell->known()] and
    [cell->output(port)]; the builder is developed for any such
    functions. *)
Variable SigMap_of : Module -> SigBit -> SigBit.
Variable known : Cell -> bool.
Variable output : Cell -> IdString -> bool.

(** Body of [for (auto wire : wires)]. *)
Definition run_wire (st : SensitizePathWorker * SigPool) (wire : Wire)
    : SensitizePathWorker * SigPool :=
  let '(w, undriven_signals) := st in
  (* Create copy of each wire *)
  let '(copy, m) := addWire_like (miter w) (new_id (autoidx w)) wire in
  let wire_b := mkWire (wire_name copy) (width copy) false false (keep copy) in
  let m := with_wires m (wires_ (miter w) ++ [wire_b]) in
  let w := with_miter w m (S (autoidx w)) in
  let w := with_wire_map w (<[wire := wire_b]> (wire_map w)) in
  (* Add wire to encode if wire and wire_b diverge *)
  let w := add_x_wire w wire wire_b in
  if opt_constrain_all w then
    (w, pool_add undriven_signals (map (sigmap w) (sig_of wire)))
  else if port_input wire then
    if opt_constrain_inputs w then (connect w (sig_of wire_b, sig_of wire), undriven_signals)
    else
      let name := new_id (autoidx w) in
      let '(anyseq, m, idx) := Anyseq (miter w) (S (autoidx w)) name (length (sig_of wire_b)) in
      (connect (with_miter w m idx) (sig_of wire_b, anyseq), undriven_signals)
  else (w, undriven_signals).

(** Body of [for (const auto &conn : cell_b->connections())]; [h] and
    [h_b] are the handles of [cell] and [cell_b]. *)
Definition run_copy_port (h h_b : nat) (w : SensitizePathWorker) (conn : IdString * SigSpec)
    : option SensitizePathWorker :=
  if opt_constrain_all w then
    '(w, sig_a, sig_b) ← rewrite_sigspec_constrain w conn.2;
    let m := set_port (miter w) h conn.1 sig_a in
    let m := set_port m h_b conn.1 sig_b in
    Some (with_miter w m (autoidx w))
  else
    Some (with_miter w (set_port (miter w) h_b conn.1 (rewrite_sigspec w conn.2)) (autoidx w)).

(** Copy cell to second path. *)
Definition run_copy_cell (w : SensitizePathWorker) (h : nat) (cell : Cell)
    : option SensitizePathWorker :=
  let '(h_b, m) := addCell_like (miter w) (label_b (cell_name cell)) cell in
  let w := with_miter w m (autoidx w) in
  foldM (run_copy_port h h_b) w (connections_ cell).

(** Body of [for (auto cell : cells)]. *)
Definition run_cell (st : SensitizePathWorker * SigPool) (h : nat)
    : option (SensitizePathWorker * SigPool) :=
  let '(w, undriven_signals) := st in
  match cell_at (miter w) h with
  | None => Some st
  | Some cell =>
      let undriven_signals :=
        if opt_constrain_all w then
          (* Remove any driven signals from undriven_signals *)
          foldl (λ p (conn : IdString * SigSpec),
                   if negb (known cell) || output cell conn.1
                   then pool_del p (map (sigmap w) conn.2) else p)
                undriven_signals (connections_ cell)
        else undriven_signals in
      if bool_decide (type cell ∈ ["$assert"; "$live"; "$cover"]) then
        Some (w, undriven_signals)
      else if bool_decide (type cell ∈ ["$anyseq"; "$anyconst"; "$allseq"; "$allconst"]) then
        sig ← getPort cell ID_Y;
        Some (connect w (rewrite_sigspec w sig, sig), undriven_signals)
      else if negb (opt_constrain_all w) && bool_decide (type cell ∈ ["$eqx"; "$nex"]) then
        w ← convert_x_equality w h cell; Some (w, undriven_signals)
      else
        w ← run_copy_cell w h cell; Some (w, undriven_signals)
  end.

(** Body of [for (auto conn : connections)]. *)
Definition run_conn (w : SensitizePathWorker) (conn : SigSig) : option SensitizePathWorker :=
  if opt_constrain_all w then
    '(w, sig_a, sig_b) ← rewrite_sigspec_constrain w conn.2;
    let w := connect w (conn.1, sig_a) in
    Some (connect w (rewrite_sigspec w conn.1, sig_b))
  else
    let w := connect w conn in
    Some (connect w (rewrite_sigspec w conn.1, rewrite_sigspec w conn.2)).

(** Body of [for (auto &chunk_a : undriven_sig.chunks())]. *)
Definition run_undriven (w : SensitizePathWorker) (chunk_a : SigChunk)
    : option SensitizePathWorker :=
  match chunk_wire chunk_a with
  | None => None
  | Some wire_a =>
      let chunk_b := rewrite_chunk (wire_map w) chunk_a in
      if port_input wire_a then Some (connect w (chunk_bits chunk_b, chunk_bits chunk_a))
      else
        let name := new_id (autoidx w) in
        let '(anyseq, m, idx) :=
          Anyseq (miter w) (S (autoidx w)) name (length (chunk_bits chunk_a)) in
        let w := with_miter w m idx in
        let w := connect w (chunk_bits chunk_a, anyseq) in
        Some (connect w (chunk_bits chunk_b, anyseq))
  end.

Definition run (w : SensitizePathWorker) : option SensitizePathWorker :=
  let w := with_miter w (cloneInto (src_module w) (miter w)) (autoidx w) in
  let undriven_signals : SigPool := ∅ in
  let w := with_sigmap w (SigMap_of (miter w)) in
  let wires := wires_ (miter w) in
  let cells := seq 0 (length (cells_ (miter w))) in
  let connections := connections (miter w) in
  let '(w, undriven_signals) := foldl run_wire (w, undriven_signals) wires in
  '(w, undriven_signals) ← foldM run_cell (w, undriven_signals) cells;
  w ← foldM run_conn w connections;
  let w := with_miter w (fixup_ports (miter w)) (autoidx w) in
  w ← (if opt_constrain_all w then
         (* Constrain any undriven wires *)
         let undriven_sig := export_all undriven_signals in
         foldM run_undriven w (chunks undriven_sig)
       else Some w);
  Some (write_new_connections w).

(** How the command ends: normally, with the user-facing error of
    [log_cmd_error], or in an assertion failure or exception. *)
Inductive outcome :=
  | Done
  | CmdError (msg : string)
  | Aborted.

(** The option loop of [execute]; [argidx] counts the arguments passed. *)
Fixpoint parse_options (rest : list string) (argidx : nat) (constrain_inputs constrain_all : bool)
    : string + (nat * bool * bool) :=
  match rest with
  | [] => inr (argidx, constrain_inputs, constrain_all)
  | arg :: rest' =>
      if decide (arg = "-constrain_inputs") then parse_options rest' (S argidx) true constrain_all
      else if decide (arg = "-constrain_undef") then parse_options rest' (S argidx) constrain_inputs true
      else if bool_decide (head (list_ascii_of_string arg) = Some "-"%char)
      then inl "Unknown option."
      else inr (argidx, constrain_inputs, constrain_all)
  end.

(** [SensitizePath::execute]: the outcome and the design it leaves. An
    error is raised where the C++ code throws, with the design as it is at
    that point. *)
Definition execute (args : list string) (design : Design) (idx : nat) : outcome * Design :=
  match parse_options (tail args) 1 false false with
  | inl msg => (CmdError msg, design)
  | inr (argidx, constrain_inputs, constrain_all) =>
      if negb (bool_decide (length args = argidx + 2)%nat) then
        (CmdError "Invalid number of module arguments.", design)
      else
        let src_name := default "" (args !! argidx) in
        let miter_name := default "" (args !! S argidx) in
        let src_found := design !! escape_id src_name in
        let miter_found := design !! escape_id miter_name in
        match src_found with
        | None => (CmdError ("Can't find source module " +:+ src_name +:+ "."), design)
        | Some src =>
            if bool_decide (is_Some miter_found) then
              (CmdError ("Miter module " +:+ miter_name +:+ " already exists."), design)
            else if has_memories src || has_processes src then
              (CmdError "Source module contains memories or processes. Run 'memory' or 'proc' respectively.",
               design)
            else
              let new_module := empty_module (escape_id miter_name) in
              let design := <[escape_id miter_name := new_module]> design in
              let worker := mkWorker constrain_inputs constrain_all (λ b, b) src new_module ∅ [] idx in
              match run worker with
              | Some worker => (Done, <[escape_id miter_name := miter worker]> design)
              | None => (Aborted, design)
              end
        end
  end.

End Run.

End SensitizePath.

(* ===================================================================== *)
(** * Vocabulary for the statements about sessions                        *)
(* ===================================================================== *)

Module Trace.
Import SatGen.

(** The six import entry points of a session. *)
Inductive importer :=
  | ViaSigSpec | ViaDefSigSpec | ViaUndefSigSpec
  | ViaSigBit | ViaDefSigBit | ViaUndefSigBit.

(** The namespace half of a scope key: value literals or undef literals. *)
Definition undef_namespace (i : importer) : bool :=
  match i with ViaUndefSigSpec | ViaUndefSigBit => true | _ => false end.

(** The definition imports, which duplicate X constants. *)
Definition is_def_import (i : importer) : bool :=
  match i with ViaDefSigSpec | ViaDefSigBit => true | _ => false end.

(** [g'] extends [g]: same configuration, and every named literal of [g]
    is still bound to the same variable in [g']. *)
Definition extends (g g' : SatGen) : Prop :=
  model_undef g' = model_undef g ∧ sigmap g' = sigmap g ∧ prefix g' = prefix g ∧
  ∀ name id, literalsCache (ez g) !! name = Some id →
             literalsCache (ez g') !! name = Some id.

(** The literal cached for a bit under a scope prefix, if any. *)
Definition cached (g : SatGen) (pf : string) (bit : SigBit) : option lit :=
  imported_signals g !! pf ≫= (λ m, m !! bit).

(** The literal that pads a vector: its last (most significant) literal
    under signed extension of a nonempty vector, else constant false. *)
Definition pad_literal (is_signed : bool) (vec : list lit) : lit :=
  if is_signed && bool_decide (0 < length vec)%nat then List.last vec CONST_FALSE else CONST_FALSE.

(** The obligation of a property cell, in the words of the specification:
    a cover is the conjunction of check and enable, an assert or assume is
    NOT(enable) OR check. *)
Definition obligation (ty : IdString) (check enable : lit) : lit :=
  if bool_decide (ty = "$cover") then AND check enable else OR (NOT enable) check.

(** A value literal conjoined with the negation of its undef flag. *)
Definition defined (undef value : lit) : lit := AND (NOT undef) value.

(** The timestep at which [signals_eq] imports its right operand: a
    negative [timestep_rhs] stands for the timestep of the left operand. *)
Definition rhs_timestep (timestep_lhs timestep_rhs : Z) : Z :=
  if decide (timestep_rhs < 0)%Z then timestep_lhs else timestep_rhs.

(** Equality of two bits with undef flags, in the words of the
    specification: the undef flags agree, and the disjunction of each value
    with its own undef flag agrees between the two sides. *)
Definition undef_eq (va ua vb ub : bool) : bool :=
  eqb ua ub && eqb (va || ua) (vb || ub).

(** The frame of an import under the prefix [pf]: what it leaves alone. *)
Definition step_frame (pf : string) (g g' : SatGen) : Prop :=
  assumed (ez g') = assumed (ez g) ∧
  initstates g' = initstates g ∧
  (∀ pf' bit, pf' ≠ pf → cached g' pf' bit = cached g pf' bit) ∧
  (∀ d, cached g' pf (BitConst d) = cached g pf (BitConst d)).

(** The name prefix under which an entry point files its literals. *)
Definition scope_pf (i : importer) (g : SatGen) (timestep : Z) : string :=
  if undef_namespace i then "undef:" +:+ prefix g +:+ timestep_suffix timestep
  else prefix g +:+ timestep_suffix timestep.

Section Calls.
Variable log_id : IdString -> string.

(** Import one bit through an entry point. *)
Definition import_bit (i : importer) (g : SatGen) (bit : SigBit) (timestep : Z)
    : option (lit * SatGen) :=
  match i with
  | ViaSigSpec => importSigSpec log_id g [bit] timestep ≫= front
  | ViaDefSigSpec => importDefSigSpec log_id g [bit] timestep ≫= front
  | ViaUndefSigSpec => importUndefSigSpec log_id g [bit] timestep ≫= front
  | ViaSigBit => importSigBit log_id g bit timestep
  | ViaDefSigBit => importDefSigBit log_id g bit timestep
  | ViaUndefSigBit => importUndefSigBit log_id g bit timestep
  end.

(** One import of interest: a vector entry point, the signal it is
    called on and the position looked at in the vector it returns; or one
    bit taken through any entry point ([import_bit]). *)
Inductive request :=
  | ReqSigSpec (sig : SigSpec) (k : nat)
  | ReqDefSigSpec (sig : SigSpec) (k : nat)
  | ReqUndefSigSpec (sig : SigSpec) (k : nat)
  | ReqBit (i : importer) (bit : SigBit).

Definition request_importer (r : request) : importer :=
  match r with
  | ReqSigSpec _ _ => ViaSigSpec
  | ReqDefSigSpec _ _ => ViaDefSigSpec
  | ReqUndefSigSpec _ _ => ViaUndefSigSpec
  | ReqBit i _ => i
  end.

Definition request_sig (r : request) : SigSpec :=
  match r with
  | ReqSigSpec sig _ | ReqDefSigSpec sig _ | ReqUndefSigSpec sig _ => sig
  | ReqBit _ bit => [bit]
  end.

Definition request_pos (r : request) : nat :=
  match r with
  | ReqSigSpec _ k | ReqDefSigSpec _ k | ReqUndefSigSpec _ k => k
  | ReqBit _ _ => 0
  end.

(** The bit the request asks about. *)
Definition request_bit (r : request) : option SigBit := request_sig r !! request_pos r.

(** The literal at position [k] of a returned vector. *)
Definition at_position (k : nat) (r : list lit * SatGen) : option (lit * SatGen) :=
  l ← r.1 !! k; Some (l, r.2).

(** The literal an import returns for the bit of the request. *)
Definition import_at (g : SatGen) (r : request) (timestep : Z) : option (lit * SatGen) :=
  match r with
  | ReqSigSpec sig k => importSigSpec log_id g sig timestep ≫= at_position k
  | ReqDefSigSpec sig k => importDefSigSpec log_id g sig timestep ≫= at_position k
  | ReqUndefSigSpec sig k => importUndefSigSpec log_id g sig timestep ≫= at_position k
  | ReqBit i bit => import_bit i g bit timestep
  end.

(** One call made on a session between two imports of interest. *)
Inductive call :=
  | CallSigSpec (sig : SigSpec) (timestep : Z)
  | CallDefSigSpec (sig : SigSpec) (timestep : Z)
  | CallUndefSigSpec (sig : SigSpec) (timestep : Z)
  | CallBit (i : importer) (bit : SigBit) (timestep : Z)
  | CallImported (bit : SigBit) (timestep : Z).

Definition run_call (g : SatGen) (c : call) : option SatGen :=
  match c with
  | CallSigSpec sig t => snd <$> importSigSpec log_id g sig t
  | CallDefSigSpec sig t => snd <$> importDefSigSpec log_id g sig t
  | CallUndefSigSpec sig t => snd <$> importUndefSigSpec log_id g sig t
  | CallBit i bit t => snd <$> import_bit i g bit t
  | CallImported bit t => snd <$> importedSigBit g bit t
  end.

(** Run the calls in order; an assertion failure in one ends the run. *)
Fixpoint run_calls (cs : list call) (g : SatGen) : option SatGen :=
  match cs with
  | [] => Some g
  | c :: cs => run_call g c ≫= run_calls cs
  end.

(** The literal of a constant bit that is not duplicated. *)
Definition const_literal (um : bool) (d : State) : lit :=
  if State_eqb d (if um then Sx else S1) then CONST_TRUE else CONST_FALSE.

(** The literal the oracle [e] holds for a canonical bit under the name
    prefix [pf]. *)
Definition canon_literal_in (e : solver) (pf : string) (um : bool) (cbit : SigBit) (l : lit) : Prop :=
  match cbit with
  | BitConst d => l = const_literal um d
  | BitWire w o => ∃ id, l = Var id ∧ literalsCache e !! bit_name log_id pf w o = Some id
  end.

(** [vec] is what the session holds for [sig] at timestep [t], in the
    value namespace or ([um]) the undef namespace. *)
Definition vec_at (g : SatGen) (um : bool) (t : Z) (sig : SigSpec) (vec : list lit) : Prop :=
  Forall2 (canon_literal_in (ez g)
             ((if um then "undef:" +:+ prefix g else prefix g) +:+ timestep_suffix t) um)
          (map (sigmap g) sig) vec.

(** The import of a vector in the value ([um = false]) or the undef
    namespace. *)
Definition import_ns (um : bool) (g : SatGen) (sig : SigSpec) (t : Z) :=
  if um then importUndefSigSpec log_id g sig t else importSigSpec log_id g sig t.

(** The bit is an X constant that this entry point imports as a fresh
    literal (definition import under undef modeling). *)
Definition duplicated_x (g : SatGen) (i : importer) (bit : SigBit) : bool :=
  model_undef g && is_def_import i && bool_decide (sigmap g bit = BitConst Sx).

(** The two caches agree: only wire bits are cached, and the literal
    cached for a wire bit under a prefix is the oracle's named literal for
    the name the bit has under that prefix. *)
Definition caches_agree (g : SatGen) : Prop :=
  ∀ pf bit l, cached g pf bit = Some l →
    ∃ w o id, bit = BitWire w o ∧ l = Var id ∧
              literalsCache (ez g) !! bit_name log_id pf w o = Some id.

(** The wire bit [(w, o)] is imported under [pf] with literal [l]: [l] is
    the oracle's literal for the bit's name, and the cache of imported
    signals holds [l] for the bit. *)
Definition imported_with (pf : string) (w : Wire) (o : nat) (l : lit) (g : SatGen) : Prop :=
  (∃ id, l = Var id ∧ literalsCache (ez g) !! bit_name log_id pf w o = Some id) ∧
  cached g pf (BitWire w o) = Some l.

(** Every cached bit is canonical, that is, a value of the canonicalizer. *)
Definition canonical_keys (g : SatGen) : Prop :=
  ∀ pf bit l, cached g pf bit = Some l → ∃ b, sigmap g b = bit.

End Calls.
End Trace.

(* ===================================================================== *)
(** * Concrete sessions, wires and cells used in the examples             *)
(* ===================================================================== *)

Module Demo.
Import SatGen Trace.

(** A session over the identity canonicalizer, with wire names printed as
    they are. *)
Definition plain_session : SatGen := new ezSAT.empty (fun b => b) "top.".
Definition undef_session : SatGen := with_model_undef plain_session true.

Definition wire_a : Wire := mkWire "\a" 4 true false false.
Definition wire_b : Wire := mkWire "\b" 4 true false false.
Definition wire_c : Wire := mkWire "\c" 1 false false false.
Definition wire_en : Wire := mkWire "\en" 1 false false false.

Definition bits_of (w : Wire) : SigSpec := map (BitWire w) (seq 0 (width w)).

Definition demo_calls : list call :=
  [ CallDefSigSpec (bits_of wire_b ++ [BitConst Sx; BitConst S1]) 3;
    CallImported (BitWire wire_a 2) 3;
    CallBit ViaUndefSigBit (BitWire wire_a 2) 3;
    CallSigSpec (bits_of wire_a) 4 ].

Definition demo_first := import_bit id ViaSigSpec undef_session (BitWire wire_a 2) 3.
Definition demo_mid := run_calls id demo_calls (default (CONST_FALSE, undef_session) demo_first).2.


(** An assert cell over the one-bit wires [c] (check) and [en] (enable). *)
Definition assert_cell : Cell :=
  mkCell "\chk" "$assert" [(ID_A, [BitWire wire_c 0]); (ID_EN, [BitWire wire_en 0])] ∅.

(** A session whose canonicalizer sends the wire [c] to the wire [en]. *)
Definition alias_map (b : SigBit) : SigBit :=
  if decide (b = BitWire wire_c 0) then BitWire wire_en 0 else b.
Definition alias_session : SatGen := new ezSAT.empty alias_map "top.".

Definition demo_import := importSigSpec id undef_session (bits_of wire_a) 3.

(** Bit 2 of [a] taken at position 2 of the four bits of [a], and at
    position 3 of a longer signal. *)
Definition demo_req1 : request := ReqSigSpec (bits_of wire_a) 2.
Definition demo_req2 : request :=
  ReqDefSigSpec ([BitConst Sx; BitWire wire_b 0; BitConst S1] ++ drop 2 (bits_of wire_a)) 3.
Definition demo_req_first := import_at id undef_session demo_req1 3.
Definition demo_req_mid :=
  run_calls id demo_calls (default (CONST_FALSE, undef_session) demo_req_first).2.

Definition alias_calls : list call := [CallSigSpec [BitWire wire_c 0] 3].

(** The calls of [demo_calls] made under another canonicalizer and
    prefix. *)
Definition ctx_first := import_bit id ViaSigSpec undef_session (BitWire wire_a 2) 3.
Definition ctx_mid :=
  run_calls id demo_calls
    (setContext (default (CONST_FALSE, undef_session) ctx_first).2 alias_map "other.").

End Demo.

(* ===================================================================== *)
(** * Vocabulary for the statements about the miter builder               *)
(* ===================================================================== *)

Module MiterSpec.
Import SensitizePath.

(** The path-b image of one bit: a constant stays, a wire bit moves to the
    mapped wire (and is lost when its wire has no image, the null wire). *)
Definition path_b_bit (wm : gmap Wire Wire) (bit : SigBit) : SigSpec :=
  match bit with
  | BitConst d => [BitConst d]
  | BitWire wr o => match wm !! wr with Some wr' => [BitWire wr' o] | None => [] end
  end.

(** Close a pending run of [x_len] undefined constants with one shared
    free source. *)
Definition flush (x_len : nat) (st : SensitizePathWorker * SigSpec * SigSpec)
    : SensitizePathWorker * SigSpec * SigSpec :=
  if bool_decide (0 < x_len)%nat then append_anyseq st x_len else st.

(** The constrained rewrite in the words of the specification, bit by bit:
    every maximal run of undefined constant bits is replaced by one free
    source of the run's width, shared by both paths; other constants are
    kept in both paths; a wire bit is kept in path a and moved to the
    mapped wire in path b. [x_len] is the length of the run of undefined
    constants read so far. *)
Fixpoint constrain_bits (sig : SigSpec) (x_len : nat)
    (st : SensitizePathWorker * SigSpec * SigSpec) : SensitizePathWorker * SigSpec * SigSpec :=
  match sig with
  | [] => flush x_len st
  | BitConst Sx :: sig => constrain_bits sig (S x_len) st
  | bit :: sig =>
      let '(w, sig_a, sig_b) := flush x_len st in
      constrain_bits sig 0 (w, sig_a ++ [bit], sig_b ++ path_b_bit (wire_map w) bit)
  end.

(** The number of maximal runs of undefined constants in a signal, with
    [in_run] telling whether the bit before belongs to a run. *)
Fixpoint x_runs (in_run : bool) (sig : SigSpec) : nat :=
  match sig with
  | [] => 0
  | BitConst Sx :: sig => (if in_run then 0 else 1) + x_runs true sig
  | _ :: sig => x_runs false sig
  end.

(** [w'] continues [w]: options, canonicalizer, source and wire map are
    the same, queued connections were only added, the cell arena only
    grew, and every slot of [w] that [keep] names holds the same cell. *)
Definition continues (keep : nat → Prop) (w w' : SensitizePathWorker) : Prop :=
  opt_constrain_inputs w' = opt_constrain_inputs w ∧
  opt_constrain_all w' = opt_constrain_all w ∧
  sigmap w' = sigmap w ∧
  src_module w' = src_module w ∧
  wire_map w' = wire_map w ∧
  (∃ more, new_connections w' = new_connections w ++ more) ∧
  (length (cells_ (miter w)) ≤ length (cells_ (miter w')))%nat ∧
  ∀ i, keep i → (i < length (cells_ (miter w)))%nat →
       cells_ (miter w') !! i = cells_ (miter w) !! i.

(** A cell made by the loop over the wires: a free source for an input, or
    the divergence detector of a public wire, a [$nex] gate between the
    wire and its path-b copy that drives the wire's [__is_x] wire. *)
Definition wire_loop_cell (oc : option Cell) : Prop :=
  ∃ c, oc = Some c ∧
       (type c = "$anyseq" ∨
        ∃ name wire wire_b wire_x,
          c = compare_cell "$nex" name (sig_of wire) (sig_of wire_b) (sig_of wire_x) ∧
          wire_name wire_x = label_x (wire_name wire)).

(** What the loop over the wires leaves: options, canonicalizer and source
    as they were, some more queued connections, and some more cells, each
    of them a free source or a divergence detector. *)
Definition after_wires (w w' : SensitizePathWorker) : Prop :=
  opt_constrain_inputs w' = opt_constrain_inputs w ∧
  opt_constrain_all w' = opt_constrain_all w ∧
  sigmap w' = sigmap w ∧
  src_module w' = src_module w ∧
  (∃ more, new_connections w' = new_connections w ++ more) ∧
  ∃ new, cells_ (miter w') = cells_ (miter w) ++ new ∧ Forall wire_loop_cell new.

(** Every bit of the pool is a wire bit. *)
Definition pool_wires (p : SigPool) : Prop := ∀ b, b ∈ p → is_wire_bit b = true.

Definition anyseq_cell (oc : option Cell) : Prop := ∃ c, oc = Some c ∧ type c = "$anyseq".

(** Every wire of the signal has a path-b copy. *)
Definition mapped (wm : gmap Wire Wire) (sig : SigSpec) : Prop :=
  ∀ wr o, BitWire wr o ∈ sig → is_Some (wm !! wr).

(** The path-b copy of a bit whose wire is mapped. *)
Definition shadow_bit (wm : gmap Wire Wire) (bit : SigBit) : SigBit :=
  match bit with
  | BitConst d => BitConst d
  | BitWire wr o => BitWire (default wr (wm !! wr)) o
  end.

(** How a bit of the signal shows in path a ([ba]) and path b ([bb]) after
    the constrained rewrite: an undefined constant becomes one and the same
    wire bit in both paths, another constant stays in both, a wire bit
    stays in path a and moves to its copy in path b. *)
Definition constrained_bit (wm : gmap Wire Wire) (bit ba bb : SigBit) : Prop :=
  match bit with
  | BitConst Sx => ba = bb ∧ is_wire_bit ba = true
  | BitConst _ => ba = bit ∧ bb = bit
  | BitWire wr o => ba = bit ∧ bb = shadow_bit wm bit
  end.

(** The wire has a path-b copy in the map: an internal wire (port flags
    cleared, auto-generated name) of the same width. *)
Definition shadow_of (wm : gmap Wire Wire) (wire : Wire) : Prop :=
  ∃ wire_b, wm !! wire = Some wire_b ∧ width wire_b = width wire ∧
            port_input wire_b = false ∧ port_output wire_b = false ∧
            isPublic (wire_name wire_b) = false.

(** What drives the path-b copy of an input wire: with
    [-constrain_inputs] the input itself, otherwise the output wire of an
    [$anyseq] cell of the input's width in the miter. *)
Definition input_source (constrain_inputs : bool) (m : Module) (wire : Wire) (src : SigSpec)
    : Prop :=
  if constrain_inputs then src = sig_of wire
  else ∃ src_wire name,
         src = sig_of src_wire ∧ width src_wire = width wire ∧
         src_wire ∈ wires_ m ∧
         Some (mkCell name "$anyseq" [(ID_Y, sig_of src_wire)]
                 {[ ID_WIDTH := Const_of_nat (width wire) 32 ]}) ∈ cells_ m.

(** The free source that the loop over the wires makes for an input
    wire: an [$anyseq] cell that takes the auto-generated name number [k],
    and its output wire, of the width of the input, that takes the next
    one. *)
Definition source_wire (k : nat) (wire : Wire) : Wire :=
  mkWire (new_id (S k)) (width wire) false false false.

Definition source_cell (k : nat) (wire : Wire) : Cell :=
  mkCell (new_id k) "$anyseq" [(ID_Y, sig_of (source_wire k wire))]
         {[ ID_WIDTH := Const_of_nat (width wire) 32 ]}.

Definition is_anyseq (oc : option Cell) : bool :=
  match oc with Some c => bool_decide (type c = "$anyseq") | None => false end.

(** The names in use in a module: [Module::add] asserts, through
    [count_id], that the name of a new wire or cell is not the name of a
    wire, a cell, a memory or a process of the module. *)
Definition names (m : Module) : list IdString :=
  (wire_name <$> wires_ m) ++ (cell_name <$> cells m) ++ memories m ++ processes m.

(** The cell is one that [run] copies to path b: not a proof obligation,
    not a free source and, without [-constrain_undef], not an [$eqx] or
    [$nex] cell. *)
Definition copied (constrain_all : bool) (c : Cell) : bool :=
  negb (bool_decide (type c ∈ ["$assert"; "$live"; "$cover"])) &&
  negb (bool_decide (type c ∈ ["$anyseq"; "$anyconst"; "$allseq"; "$allconst"])) &&
  (constrain_all || negb (bool_decide (type c ∈ ["$eqx"; "$nex"]))).

(** The name of the divergence wire of a wire, if it gets one, and of the
    path-b copy of a cell, if it gets one. *)
Definition x_name (wire : Wire) : list IdString :=
  if isPublic (wire_name wire) then [label_x (wire_name wire)] else [].

Definition b_name (constrain_all : bool) (c : Cell) : list IdString :=
  if copied constrain_all c then [label_b (cell_name c)] else [].

(** The fixed names that [run] gives to objects it adds to the miter. *)
Definition fixed_names (constrain_all : bool) (src : Module) : list IdString :=
  (wires_ src ≫= x_name) ++ (cells src ≫= b_name constrain_all).

(** The names the run needs are free: the names of the source module and
    the fixed names of the objects to add are pairwise distinct, and none
    of them is an auto-generated name that [NEW_ID] has still to give
    out. *)
Definition names_free (constrain_all : bool) (idx : nat) (src : Module) : Prop :=
  NoDup (names src ++ fixed_names constrain_all src) ∧
  ∀ k, (idx ≤ k)%nat → new_id k ∉ names src ++ fixed_names constrain_all src.

(** From [w] to [w'] the name counter has not gone back, and every name
    in use in the miter of [w'] is in use in the miter of [w], or is one of
    [extra], or is an auto-generated name given out in between, each
    counted once. *)
Definition grows (extra : list IdString) (w w' : SensitizePathWorker) : Prop :=
  (autoidx w ≤ autoidx w')%nat ∧
  names (miter w') ⊆+ names (miter w) ++ extra ++
                      (new_id <$> seq (autoidx w) (autoidx w' - autoidx w)).

(** The ports the builder reads: [Y] on a free-source cell, [A], [B] and
    [Y] on an [$eqx] or [$nex] cell. *)
Definition ports_ok (c : Cell) : bool :=
  (if bool_decide (type c ∈ ["$anyseq"; "$anyconst"; "$allseq"; "$allconst"])
   then bool_decide (is_Some (getPort c ID_Y)) else true) &&
  (if bool_decide (type c ∈ ["$eqx"; "$nex"])
   then bool_decide (is_Some (getPort c ID_A)) && bool_decide (is_Some (getPort c ID_B)) &&
        bool_decide (is_Some (getPort c ID_Y))
   else true).

(** The options the command knows. *)
Definition known_option (arg : string) : Prop :=
  arg = "-constrain_inputs" ∨ arg = "-constrain_undef".

Definition starts_with_dash (arg : string) : bool :=
  bool_decide (head (list_ascii_of_string arg) = Some "-"%char).

(** The options at the front of the argument list: the longest prefix of
    known options. *)
Fixpoint options_prefix (rest : list string) : list string :=
  match rest with
  | [] => []
  | arg :: rest =>
      if bool_decide (arg = "-constrain_inputs") || bool_decide (arg = "-constrain_undef")
      then arg :: options_prefix rest else []
  end.

(** The cell is an [$eqx] or [$nex] comparison with a side that the
    canonicalizer [sm] maps to a fully undefined constant. *)
Definition compares_undef (sm : SigBit → SigBit) (c : Cell) : bool :=
  bool_decide (type c ∈ ["$eqx"; "$nex"]) &&
  match getPort c ID_A, getPort c ID_B with
  | Some port_a, Some port_b =>
      is_fully_undef (map sm port_a) || is_fully_undef (map sm port_b)
  | _, _ => false
  end.

(** The gate that replaces a comparison with an undefined constant: a
    signal is undefined where the two paths differ, so [===] becomes
    not-equal between the paths and [!==] becomes equal. *)
Definition cross_type (ty : IdString) : IdString :=
  if bool_decide (ty = "$eqx") then "$nex" else "$eqx".

End MiterSpec.

(* ===================================================================== *)
(** * A small source module                                               *)
(* ===================================================================== *)

Module MiterDemo.
Import SensitizePath MiterSpec Demo.

(** [c = (a === 4'bxzxz)], [en = c & 1'bx], and a free source on [f]. *)
Definition cmp_cell : Cell :=
  compare_cell "$eqx" "\cmp" (sig_of wire_a)
               [BitConst Sx; BitConst Sz; BitConst Sx; BitConst Sz] (sig_of wire_c).

Definition and_cell : Cell :=
  mkCell "\and" "$and" [(ID_A, sig_of wire_c); (ID_B, [BitConst Sx]); (ID_Y, sig_of wire_en)] ∅.

Definition wire_f : Wire := mkWire "\f" 2 false false false.

Definition any_cell : Cell :=
  mkCell "\any" "$anyseq" [(ID_Y, sig_of wire_f)] ∅.

Definition chk_cell : Cell :=
  mkCell "\chk" "$assert" [(ID_A, sig_of wire_c); (ID_EN, sig_of wire_en)] ∅.

(** A comparison of two defined signals. *)
Definition same_cell : Cell :=
  compare_cell "$nex" "\same" (sig_of wire_c) (sig_of wire_en) (sig_of wire_c).

Definition demo_src : Module :=
  mkModule "\top" [wire_a; wire_b; wire_c; wire_en; wire_f]
           [Some cmp_cell; Some and_cell; Some any_cell; Some chk_cell; Some same_cell]
           [] [] [].

Definition shadow_a : Wire := mkWire (new_id 0) 4 false false false.
Definition shadow_c : Wire := mkWire (new_id 1) 1 false false false.

(** A worker in the middle of a run: the source is cloned into the miter,
    the wires [a] and [c] are mapped. *)
Definition demo_worker (constrain_all : bool) : SensitizePathWorker :=
  mkWorker false constrain_all (λ b, b) demo_src
           (cloneInto demo_src (empty_module "\miter"))
           (<[wire_a := shadow_a]> (<[wire_c := shadow_c]> ∅)) [] 2.

(** A worker as [execute] makes it. *)
Definition fresh_worker (constrain_inputs constrain_all : bool) : SensitizePathWorker :=
  mkWorker constrain_inputs constrain_all (λ b, b) demo_src (empty_module "\miter") ∅ [] 0.

(** The canonicalizer of a module without aliases. *)
Definition SigMap_of_id (m : Module) (b : SigBit) : SigBit := b.

(** The worker after the loop over the wires of the source. *)
Definition demo_wired (constrain_inputs constrain_all : bool) : SensitizePathWorker :=
  (foldl run_wire (fresh_worker constrain_inputs constrain_all, ∅) (wires_ demo_src)).1.

Definition demo_sig : SigSpec := [BitWire wire_a 1; BitConst S1; BitWire wire_c 0].
Definition demo_sig_x : SigSpec := [BitWire wire_a 1; BitConst Sx; BitConst Sx; BitConst S0].

Definition demo_constrained :=
  default (demo_worker true, [], []) (rewrite_sigspec_constrain (demo_worker true) demo_sig_x).

End MiterDemo.

(* ===================================================================== *)
(** * Properties of the SatGen session                                    *)
(* ===================================================================== *)

Import SatGen Trace Demo.

Section SessionFacts.
Variable log_id : IdString -> string.

Local Abbreviation worker := (importSigSpecWorker log_id).
Local Abbreviation worker_bit := (importSigSpecWorker_bit log_id).

(** ** The literal cache of the oracle only grows *)

Lemma extends_refl g : extends g g.
Proof. by repeat split. Qed.

Lemma extends_trans g1 g2 g3 : extends g1 g2 → extends g2 g3 → extends g1 g3.
Proof.
  intros (Hm & Hs & Hp & Hc) (Hm' & Hs' & Hp' & Hc').
  repeat split; try congruence. auto.
Qed.

Lemma literal_named_keeps name ez0 n id :
  literalsCache ez0 !! n = Some id →
  literalsCache (literal_named name ez0).2 !! n = Some id.
Proof.
  intros Hn. unfold literal_named.
  destruct (literalsCache ez0 !! name) as [id'|] eqn:Hname; simpl; [done|].
  rewrite lookup_insert_ne; [done|]. intros ->. congruence.
Qed.

Lemma literal_named_bound name ez0 :
  ∃ id, (literal_named name ez0).1 = Var id ∧
        literalsCache (literal_named name ez0).2 !! name = Some id.
Proof.
  unfold literal_named.
  destruct (literalsCache ez0 !! name) as [id'|] eqn:Hname; simpl.
  - by exists id'.
  - eexists. split; [done|]. by rewrite lookup_insert_eq.
Qed.

Lemma literal_named_hit name ez0 id :
  literalsCache ez0 !! name = Some id →
  literal_named name ez0 = (Var id, ez0).
Proof. intros H. unfold literal_named. by rewrite H. Qed.

Lemma worker_bit_extends pf um du vec g bit :
  extends g (worker_bit pf um du (vec, g) bit).2.
Proof.
  unfold importSigSpecWorker_bit. destruct bit as [d|w o].
  - destruct (model_undef g && du && State_eqb d Sx); simpl; [|apply extends_refl].
    by repeat split.
  - unfold frozen_literal_named.
    destruct (literal_named (bit_name log_id pf w o) (ez g)) as [l e] eqn:He.
    destruct (subscript _ _ _) as [inner outer]. simpl.
    repeat split; try done. intros n id Hn. simpl.
    change e with (l, e).2. rewrite <- He. by apply literal_named_keeps.
Qed.

Lemma worker_fold_extends pf um du sig vec g :
  extends g (foldl (worker_bit pf um du) (vec, g) sig).2.
Proof.
  revert vec g. induction sig as [|bit sig IH]; intros vec g; cbn [foldl].
  - apply extends_refl.
  - destruct (worker_bit pf um du (vec, g) bit) as [vec' g'] eqn:Hstep.
    eapply extends_trans; [|apply IH].
    change g' with (vec', g').2. rewrite <- Hstep. apply worker_bit_extends.
Qed.

Lemma worker_extends g sig pf um du r :
  worker g sig pf um du = Some r → extends g r.2.
Proof.
  unfold importSigSpecWorker. destruct (um && negb (model_undef g)); [done|].
  intros [= <-]. apply worker_fold_extends.
Qed.

Lemma front_snd (r : list lit * SatGen) x : front r = Some x → x.2 = r.2.
Proof.
  unfold front. destruct (head r.1); simpl; [|done]. by intros [= <-].
Qed.

Lemma import_bit_extends i g bit t r :
  import_bit log_id i g bit t = Some r → extends g r.2.
Proof.
  destruct i; simpl;
    unfold importSigSpec, importDefSigSpec, importUndefSigSpec,
           importSigBit, importDefSigBit, importUndefSigBit;
    (destruct (decide (t = 0%Z)); [done|]);
    intros H; apply bind_Some in H as (r0 & Hw & Hf);
    apply front_snd in Hf as ->; by eapply worker_extends.
Qed.

Lemma importedSigBit_extends g bit t r :
  importedSigBit g bit t = Some r → extends g r.2.
Proof.
  unfold importedSigBit. destruct (decide (t = 0%Z)); [done|].
  destruct (subscript _ _ _) as [inner outer]. intros [= <-]. by repeat split.
Qed.

Lemma run_call_extends g c g' : run_call log_id g c = Some g' → extends g g'.
Proof.
  destruct c; simpl; intros H; apply fmap_Some in H as (r & Hr & ->).
  - unfold importSigSpec in Hr. destruct (decide _); [done|]. by eapply worker_extends.
  - unfold importDefSigSpec in Hr. destruct (decide _); [done|]. by eapply worker_extends.
  - unfold importUndefSigSpec in Hr. destruct (decide _); [done|]. by eapply worker_extends.
  - by eapply import_bit_extends.
  - by eapply importedSigBit_extends.
Qed.

Lemma run_calls_extends cs g g' : run_calls log_id cs g = Some g' → extends g g'.
Proof.
  revert g. induction cs as [|c cs IH]; intros g; simpl.
  - intros [= <-]. apply extends_refl.
  - intros H. apply bind_Some in H as (g1 & H1 & H2).
    eapply extends_trans; [by eapply run_call_extends | by apply IH].
Qed.

(** ** Literal stability *)

Lemma import_bit_unfold i g bit t :
  import_bit log_id i g bit t =
  if decide (t = 0%Z) then None
  else worker g [bit] (scope_pf i g t) (undef_namespace i) (is_def_import i) ≫= front.
Proof.
  destruct i; simpl;
    unfold importSigSpec, importDefSigSpec, importUndefSigSpec,
           importSigBit, importDefSigBit, importUndefSigBit;
    destruct (decide (t = 0%Z)); reflexivity.
Qed.

Lemma worker_single g bit pf um du :
  worker g [bit] pf um du =
  if um && negb (model_undef g) then None
  else Some (worker_bit pf um du ([], g) (sigmap g bit)).
Proof. reflexivity. Qed.

Lemma worker_bit_wire pf um du g w o :
  ∃ id g', worker_bit pf um du ([], g) (BitWire w o) = ([Var id], g') ∧
           literalsCache (ez g') !! bit_name log_id pf w o = Some id.
Proof.
  unfold importSigSpecWorker_bit, frozen_literal_named.
  destruct (literal_named_bound (bit_name log_id pf w o) (ez g)) as (id & Hl & Hc).
  destruct (literal_named _ _) as [l e]. simpl in Hl, Hc. subst l.
  destruct (subscript _ _ _) as [inner outer]. by eexists _, _.
Qed.

Lemma worker_bit_wire_hit pf um du g w o id :
  literalsCache (ez g) !! bit_name log_id pf w o = Some id →
  ∃ g', worker_bit pf um du ([], g) (BitWire w o) = ([Var id], g').
Proof.
  intros Hc. unfold importSigSpecWorker_bit, frozen_literal_named.
  rewrite (literal_named_hit _ _ _ Hc).
  destruct (subscript _ _ _) as [inner outer]. by eexists.
Qed.

Lemma worker_bit_const pf um du g d :
  model_undef g && du && bool_decide (BitConst d = BitConst Sx) = false →
  worker_bit pf um du ([], g) (BitConst d) = ([const_literal um d], g).
Proof.
  intros H. unfold importSigSpecWorker_bit.
  replace (State_eqb d Sx) with (bool_decide (BitConst d = BitConst Sx)).
  - by rewrite H.
  - destruct d; by compute.
Qed.

(** ** The import query *)

Lemma cached_subscript g pf pf' bit :
  (subscript ∅ (imported_signals g) pf).2 !! pf' ≫= (λ m : gmap SigBit lit, m !! bit)
  = cached g pf' bit.
Proof.
  unfold subscript, cached.
  destruct (imported_signals g !! pf) eqn:Hpf; simpl; [done|].
  destruct (decide (pf = pf')) as [<-|Hne].
  - by rewrite lookup_insert_eq, Hpf.
  - by rewrite lookup_insert_ne.
Qed.

Lemma subscript_fst_lookup g pf bit :
  (subscript ∅ (imported_signals g) pf).1 !! bit = cached g pf bit.
Proof.
  unfold subscript, cached.
  destruct (imported_signals g !! pf) eqn:Hpf; simpl; [done|]. apply lookup_empty.
Qed.


(** ** Vector operators of the oracle *)

Lemma vec_zip_Some f v1 v2 :
  length v1 = length v2 → vec_zip f v1 v2 = Some (zip_with f v1 v2).
Proof. intros H. unfold vec_zip. by rewrite decide_True. Qed.

Lemma vec_zip_None f v1 v2 :
  length v1 ≠ length v2 → vec_zip f v1 v2 = None.
Proof. intros H. unfold vec_zip. by rewrite decide_False. Qed.

Lemma eval_NOT rho a : eval rho (NOT a) = negb (eval rho a).
Proof. reflexivity. Qed.

Lemma eval_AND rho a b : eval rho (AND a b) = eval rho a && eval rho b.
Proof. simpl. unfold id. by rewrite andb_true_r. Qed.

Lemma eval_OR rho a b : eval rho (OR a b) = eval rho a || eval rho b.
Proof. simpl. unfold id. by rewrite orb_false_r. Qed.

Lemma eval_IFF rho a b : eval rho (IFF a b) = eqb (eval rho a) (eval rho b).
Proof. simpl. by rewrite andb_true_r. Qed.

Lemma eval_ITE rho c a b :
  eval rho (ITE c a b) = if eval rho c then eval rho a else eval rho b.
Proof. reflexivity. Qed.

Lemma eval_expression_and rho v :
  eval rho (expression OpAnd v) = forallb (eval rho) v.
Proof. simpl. induction v as [|x v IH]; simpl; [done|]. by rewrite IH. Qed.

(** ** Multiplexer with undef *)

(** C3, as the code has it: under undef modeling and on vectors of one
    length, the value result selects [b] when [s] holds and [a] otherwise;
    the undef result is, when the select is undefined, set exactly where
    the two values disagree or at least one operand is undefined, and is
    otherwise the undef flag of the selected operand. *)
Theorem mux_undef (g : SatGen) (s undef_s : lit) (a undef_a b undef_b : list lit) :
  model_undef g = true →
  length undef_a = length a → length b = length a → length undef_b = length a →
  ∃ res undef_res,
    mux g s undef_s a undef_a b undef_b = Some (res, undef_res) ∧
    length res = length a ∧ length undef_res = length a ∧
    ∀ rho i ai uai bi ubi,
      a !! i = Some ai → undef_a !! i = Some uai →
      b !! i = Some bi → undef_b !! i = Some ubi →
      eval rho <$> res !! i
        = Some (if eval rho s then eval rho bi else eval rho ai) ∧
      eval rho <$> undef_res !! i
        = Some (if eval rho undef_s
                then xorb (eval rho ai) (eval rho bi) || (eval rho uai || eval rho ubi)
                else if eval rho s then eval rho ubi else eval rho uai).
Proof.
  intros Hm Hua Hb Hub. unfold mux. rewrite Hm.
  unfold vec_ite, vec_iff, vec_or, vec_not.
  rewrite (vec_zip_Some (ITE s) b a) by lia. simpl.
  rewrite (vec_zip_Some IFF a b) by lia. simpl.
  rewrite (vec_zip_Some OR undef_a undef_b) by lia. simpl.
  rewrite (vec_zip_Some OR (map NOT _) _)
    by (rewrite length_map, !length_zip_with; lia). simpl.
  rewrite (vec_zip_Some (ITE s) undef_b undef_a) by lia. simpl.
  rewrite (vec_zip_Some (ITE undef_s))
    by (rewrite !length_zip_with, length_map, !length_zip_with; lia). simpl.
  eexists _, _. split; [reflexivity|].
  split; [rewrite length_zip_with; lia|].
  split; [rewrite !length_zip_with, length_map, !length_zip_with; lia|].
  intros rho i ai uai bi ubi Ha Hu Hbi Hubi.
  rewrite !lookup_zip_with, list_lookup_fmap, !lookup_zip_with.
  rewrite Ha, Hu, Hbi, Hubi. simpl. unfold id.
  split; [done|]. f_equal.
  destruct (eval rho undef_s); [|done].
  destruct (eval rho ai), (eval rho bi), (eval rho uai), (eval rho ubi); done.
Qed.

(** ** Undef gating *)

Lemma gating_forallb rho (u y yy : list lit) :
  forallb (eval rho) (zip_with OR u (zip_with IFF y yy)) = true ↔
  ∀ i ui yi yyi, u !! i = Some ui → y !! i = Some yi → yy !! i = Some yyi →
                 eval rho ui = false → eval rho yi = eval rho yyi.
Proof.
  revert y yy. induction u as [|u0 u IH]; intros y yy.
  - simpl. split; [|done]. intros _ i ui yi yyi Hu. by rewrite lookup_nil in Hu.
  - destruct y as [|y0 y]; [|destruct yy as [|yy0 yy]].
    + simpl. split; [|done]. intros _ i ui yi yyi _ Hy. by rewrite lookup_nil in Hy.
    + simpl. split; [|done]. intros _ i ui yi yyi _ _ Hyy. by rewrite lookup_nil in Hyy.
    + cbn [zip_with forallb]. rewrite andb_true_iff, IH, eval_OR, eval_IFF. split.
      * intros [H0 Hrest] [|i] ui yi yyi; simpl.
        -- intros [= <-] [= <-] [= <-] Hu. rewrite Hu in H0. simpl in H0.
           by apply eqb_prop.
        -- apply Hrest.
      * intros H. split.
        -- destruct (eval rho u0) eqn:Hu; [done|]. simpl.
           rewrite (H 0%nat u0 y0 yy0); try done. by destruct (eval rho yy0).
        -- intros i. apply (H (S i)).
Qed.

Lemma models_assume rho e ez0 :
  models rho (assume e ez0) = eval rho e && models rho ez0.
Proof. reflexivity. Qed.

(** C4, as the code has it: equality on operands of different lengths,
    and undef gating without undef modeling, on value vectors of different
    lengths or on an indicator longer than the values, are assertion
    failures, and nothing else is: an indicator shorter than the values is
    accepted and gates only its own positions. A successful gating
    returns no literal; it adds to the oracle the hard constraint that at
    every position where the indicator is false the two value vectors
    agree, and leaves positions where it is true unconstrained. The
    scalar overload does the same for one bit. *)
Theorem undefGating_contract (g : SatGen) (vec_y vec_yy vec_undef : list lit)
    (y yy undef : lit) (lhs rhs : SigSpec) (t1 t2 : Z) :
  (length lhs ≠ length rhs → signals_eq log_id g lhs rhs t1 t2 = None) ∧
  (undefGating g vec_y vec_yy vec_undef = None ↔
     model_undef g = false ∨ length vec_y ≠ length vec_yy ∨
     (length vec_y < length vec_undef)%nat) ∧
  (∀ g', undefGating g vec_y vec_yy vec_undef = Some g' →
     g' = with_ez g (ez g') ∧
     literals (ez g') = literals (ez g) ∧
     literalsCache (ez g') = literalsCache (ez g) ∧
     ∀ rho, models rho (ez g') = true ↔
            models rho (ez g) = true ∧
            ∀ i ui yi yyi,
              vec_undef !! i = Some ui → vec_y !! i = Some yi → vec_yy !! i = Some yyi →
              eval rho ui = false → eval rho yi = eval rho yyi) ∧
  (∀ rho, models rho (ez (undefGating_scalar g y yy undef)) = true ↔
          models rho (ez g) = true ∧
          (eval rho undef = false → eval rho y = eval rho yy)).
Proof.
  split; [|split; [|split]].
  - intros Hne. unfold signals_eq. by rewrite bool_decide_eq_false_2.
  - unfold undefGating. destruct (model_undef g); simpl; [|by split; [left|]].
    case_bool_decide as Hyy; simpl; [|by split; [right; left|]].
    case_bool_decide as Hlt; simpl.
    + unfold vec_iff, vec_or.
      rewrite vec_zip_Some by (rewrite !length_take; lia). simpl.
      rewrite vec_zip_Some by (rewrite length_zip_with, !length_take; lia). simpl.
      split; [done|]. intros [?|[?|?]]; [done|done|lia].
    + case_bool_decide as Heq; simpl.
      * unfold vec_iff, vec_or.
        rewrite vec_zip_Some by lia. simpl.
        rewrite vec_zip_Some by (rewrite length_zip_with; lia). simpl.
        split; [done|]. intros [?|[?|?]]; [done|done|lia].
      * split; [|done]. intros _. right; right. lia.
  - intros g'. unfold undefGating. destruct (model_undef g); simpl; [|done].
    case_bool_decide as Hyy; simpl; [|done].
    assert (Hgate : ∀ vy vyy,
      (∀ i ui, vec_undef !! i = Some ui → vy !! i = vec_y !! i ∧ vyy !! i = vec_yy !! i) →
      with_ez g (assume (expression OpAnd (zip_with OR vec_undef (zip_with IFF vy vyy))) (ez g)) = g' →
      g' = with_ez g (ez g') ∧ literals (ez g') = literals (ez g) ∧
      literalsCache (ez g') = literalsCache (ez g) ∧
      ∀ rho, models rho (ez g') = true ↔
             models rho (ez g) = true ∧
             ∀ i ui yi yyi,
               vec_undef !! i = Some ui → vec_y !! i = Some yi → vec_yy !! i = Some yyi →
               eval rho ui = false → eval rho yi = eval rho yyi).
    { intros vy vyy Hsame <-. repeat split; try done.
      - simpl in H. rewrite models_assume in H. by apply andb_true_iff in H as [_ ?].
      - simpl in H. rewrite models_assume in H. apply andb_true_iff in H as [H _].
        rewrite eval_expression_and in H.
        intros i ui yi yyi Hu Hy Hyy' Hf.
        destruct (Hsame i ui Hu) as [E1 E2].
        eapply (proj1 (gating_forallb rho vec_undef vy vyy) H i ui yi yyi); congruence.
      - intros [Hm Hall]. simpl. rewrite models_assume, Hm, andb_true_r.
        rewrite eval_expression_and. apply gating_forallb.
        intros i ui yi yyi Hu Hy Hyy' Hf.
        destruct (Hsame i ui Hu) as [E1 E2].
        eapply (Hall i ui yi yyi); congruence. }
    case_bool_decide as Hlt; simpl.
    + unfold vec_iff, vec_or.
      rewrite vec_zip_Some by (rewrite !length_take; lia). simpl.
      rewrite vec_zip_Some by (rewrite length_zip_with, !length_take; lia). simpl.
      intros [= H]. revert H. apply Hgate.
      intros i ui Hu. apply lookup_lt_Some in Hu.
      by rewrite !lookup_take_lt.
    + case_bool_decide as Heq; simpl; [|done].
      unfold vec_iff, vec_or.
      rewrite vec_zip_Some by lia. simpl.
      rewrite vec_zip_Some by (rewrite length_zip_with; lia). simpl.
      intros [= H]. revert H. by apply Hgate.
  - intros rho. unfold undefGating_scalar. simpl.
    rewrite models_assume, andb_true_iff, eval_OR, eval_IFF.
    split.
    + intros [H Hm]. split; [done|]. intros Hu. rewrite Hu in H. by apply eqb_prop.
    + intros [Hm H]. split; [|done].
      destruct (eval rho undef); [done|]. simpl. rewrite H by done.
      by destruct (eval rho yy).
Qed.

(** ** Width and sign normalization *)

Lemma pad_literal_snoc s vec :
  pad_literal s (vec ++ [pad_literal s vec]) = pad_literal s vec.
Proof.
  unfold pad_literal at 1. rewrite length_app, last_last. simpl.
  destruct s; simpl; [|by unfold pad_literal].
  rewrite bool_decide_eq_true_2 by lia. done.
Qed.

Lemma extend_while_pads fuel s n vec :
  (n - length vec ≤ fuel)%nat →
  extend_while fuel s n vec = vec ++ replicate (n - length vec) (pad_literal s vec).
Proof.
  revert vec. induction fuel as [|fuel IH]; intros vec Hfuel; simpl.
  - replace (n - length vec)%nat with 0%nat by lia. simpl. by rewrite app_nil_r.
  - destruct (decide (length vec < n)%nat) as [Hlt|Hge].
    + fold (pad_literal s vec). rewrite IH by (rewrite length_app; simpl; lia).
      rewrite pad_literal_snoc, length_app. simpl.
      replace (n - length vec)%nat with (S (n - (length vec + 1)))%nat by lia.
      simpl. by rewrite <- app_assoc.
    + replace (n - length vec)%nat with 0%nat by lia. simpl. by rewrite app_nil_r.
Qed.

Lemma extend_pads s n vec :
  extend s n vec = vec ++ replicate (n - length vec) (pad_literal s vec).
Proof. apply extend_while_pads. lia. Qed.

Lemma extend_length s n vec : length (extend s n vec) = (length vec `max` n)%nat.
Proof. rewrite extend_pads, length_app, length_replicate. lia. Qed.


(** ** Property obligations *)

Lemma worker_bit_singleton pf um du g bit :
  ∃ l g', worker_bit pf um du ([], g) bit = ([l], g') ∧ extends g g'.
Proof.
  pose proof (worker_bit_extends pf um du [] g bit) as E.
  destruct bit as [d|w o].
  - unfold importSigSpecWorker_bit in *.
    destruct (model_undef g && du && State_eqb d Sx); simpl in *; by eexists _, _.
  - destruct (worker_bit_wire pf um du g w o) as (id & g' & Hw & _).
    rewrite Hw in E |- *. by eexists _, _.
Qed.

Lemma importDefSigSpec_bit g bit t :
  t ≠ 0%Z →
  ∃ l g', importDefSigSpec log_id g [bit] t = Some ([l], g') ∧ extends g g'.
Proof.
  intros Ht. unfold importDefSigSpec. rewrite decide_False by done.
  rewrite worker_single.
  destruct (worker_bit_singleton (prefix g +:+ timestep_suffix t) false true g (sigmap g bit))
    as (l & g' & Hw & E).
  cbn [andb]. rewrite Hw. by eexists _, _.
Qed.

Lemma importUndefSigSpec_bit g bit t :
  t ≠ 0%Z → model_undef g = true →
  ∃ l g', importUndefSigSpec log_id g [bit] t = Some ([l], g') ∧ extends g g'.
Proof.
  intros Ht Hm. unfold importUndefSigSpec. rewrite decide_False by done.
  rewrite worker_single, Hm.
  destruct (worker_bit_singleton ("undef:" +:+ prefix g +:+ timestep_suffix t) true false g
              (sigmap g bit)) as (l & g' & Hw & E).
  cbn [andb negb]. rewrite Hw. by eexists _, _.
Qed.

Lemma eval_obligation rho ty check enable :
  eval rho (obligation ty check enable) =
  if bool_decide (ty = "$cover") then eval rho check && eval rho enable
  else implb (eval rho enable) (eval rho check).
Proof.
  unfold obligation. case_bool_decide.
  - apply eval_AND.
  - rewrite eval_OR, eval_NOT. by destruct (eval rho enable), (eval rho check).
Qed.

Lemma eval_defined rho undef value :
  eval rho (defined undef value) = negb (eval rho undef) && eval rho value.
Proof. unfold defined. by rewrite eval_AND, eval_NOT. Qed.

(** C8: for an assert, assume or cover cell whose check and enable are
    one bit each, at a valid timestep, the cell imports check and enable
    as definition literals, under undef modeling conjoins each with the
    negation of its own undef literal (so an undefined check or enable
    counts as false), and returns check AND enable for a cover and
    NOT(enable) OR check, the implication enable -> check, otherwise. *)
Theorem importPropertyCell_obligation (g : SatGen) (cell : Cell) (t : Z) (a en : SigBit) :
  type cell ∈ ["$assert"; "$assume"; "$cover"] →
  getPort cell ID_A = Some [a] →
  getPort cell ID_EN = Some [en] →
  t ≠ 0%Z →
  ∃ c0 ga e0 gb,
    importDefSigSpec log_id g [sigmap g a] t = Some ([c0], ga) ∧
    importDefSigSpec log_id ga [sigmap g en] t = Some ([e0], gb) ∧
    (model_undef g = false →
       importPropertyCell log_id g cell t = Some (obligation (type cell) c0 e0, gb)) ∧
    (model_undef g = true →
       ∃ uc gc ue gd,
         importUndefSigSpec log_id gb [sigmap g a] t = Some ([uc], gc) ∧
         importUndefSigSpec log_id gc [sigmap g en] t = Some ([ue], gd) ∧
         importPropertyCell log_id g cell t
           = Some (obligation (type cell) (defined uc c0) (defined ue e0), gd)) ∧
    ∀ rho check enable undef value,
      eval rho (obligation (type cell) check enable)
        = (if bool_decide (type cell = "$cover")
           then eval rho check && eval rho enable
           else implb (eval rho enable) (eval rho check)) ∧
      eval rho (defined undef value) = negb (eval rho undef) && eval rho value.
Proof.
  intros Hty Ha Hen Ht.
  destruct (importDefSigSpec_bit g (sigmap g a) t Ht) as (c0 & ga & Hc & Ea).
  destruct (importDefSigSpec_bit ga (sigmap g en) t Ht) as (e0 & gb & He & Eb).
  pose proof (extends_trans _ _ _ Ea Eb) as Eab.
  exists c0, ga, e0, gb. split; [done|]. split; [done|].
  assert (Hpre :
    importPropertyCell log_id g cell t =
    ('(check_bit, enable_bit, g') ←
       (if model_undef gb then
          '(undef_check, g1) ← importUndefSigSpec log_id gb [sigmap g a] t ≫= front;
          '(undef_en, g2) ← importUndefSigSpec log_id g1 [sigmap g en] t ≫= front;
          Some (AND (NOT undef_check) c0, AND (NOT undef_en) e0, g2)
        else Some (c0, e0, gb));
     if bool_decide (type cell = "$cover") then Some (AND check_bit enable_bit, g')
     else Some (OR (NOT enable_bit) check_bit, g'))).
  { unfold importPropertyCell.
    rewrite bool_decide_eq_true_2 by done. simpl.
    rewrite Ha, Hen. simpl. rewrite Hc. simpl.
    destruct Ea as (_ & Hs & _). rewrite He. simpl. done. }
  destruct Eab as (Hm & Hs & _).
  split; [|split].
  - intros Hoff. rewrite Hpre, Hm, Hoff. simpl. unfold obligation.
    by case_bool_decide.
  - intros Hon.
    destruct (importUndefSigSpec_bit gb (sigmap g a) t Ht) as (uc & gc & Hu & Ec);
      [congruence|].
    destruct (importUndefSigSpec_bit gc (sigmap g en) t Ht) as (ue & gd & Hv & Ed).
    { destruct Ec as (-> & _). congruence. }
    exists uc, gc, ue, gd. split; [done|]. split; [done|].
    rewrite Hpre, Hm, Hon, Hu. simpl. rewrite Hv. simpl.
    unfold obligation, defined. by case_bool_decide.
  - intros rho check enable undef value. split.
    + apply eval_obligation.
    + apply eval_defined.
Qed.

(** ** Equality with undef *)

Local Abbreviation vec_at := (Trace.vec_at log_id).

Lemma canon_literal_in_mono e e' pf um cbit l :
  (∀ n id, literalsCache e !! n = Some id → literalsCache e' !! n = Some id) →
  canon_literal_in log_id e pf um cbit l → canon_literal_in log_id e' pf um cbit l.
Proof.
  intros Hmono. destruct cbit as [d|w o]; simpl; [done|].
  intros (id & -> & Hc). exists id. split; [done|]. by apply Hmono.
Qed.

Lemma vec_at_extends g g' um t sig vec :
  extends g g' → vec_at g um t sig vec → vec_at g' um t sig vec.
Proof.
  intros (_ & Hs & Hp & Hc) H. unfold Trace.vec_at in *. rewrite Hs, Hp.
  eapply Forall2_impl; [exact H|]. intros cbit l. by apply canon_literal_in_mono.
Qed.

Lemma worker_fold_result pf um csig vec0 g :
  ∃ vec g', foldl (worker_bit pf um false) (vec0, g) csig = (vec0 ++ vec, g') ∧
            extends g g' ∧ Forall2 (canon_literal_in log_id (ez g') pf um) csig vec.
Proof.
  revert vec0 g. induction csig as [|cbit csig IH]; intros vec0 g; cbn [foldl].
  - exists [], g. rewrite app_nil_r. split; [done|]. split; [apply extends_refl|constructor].
  - assert (∃ l g1, worker_bit pf um false (vec0, g) cbit = (vec0 ++ [l], g1) ∧
                    extends g g1 ∧ canon_literal_in log_id (ez g1) pf um cbit l)
      as (l & g1 & Hstep & E1 & Hl).
    { pose proof (worker_bit_extends pf um false vec0 g cbit) as E.
      destruct cbit as [d|w o].
      - unfold importSigSpecWorker_bit in *. rewrite andb_false_r in *. simpl in *.
        by eexists _, _.
      - unfold importSigSpecWorker_bit, frozen_literal_named in *.
        destruct (literal_named_bound (bit_name log_id pf w o) (ez g)) as (id & Hv & Hc).
        destruct (literal_named _ _) as [l e]. simpl in Hv, Hc. subst l.
        destruct (subscript _ _ _) as [inner outer]. simpl in E.
        eexists _, _. split; [done|]. split; [done|]. simpl. by exists id. }
    rewrite Hstep. destruct (IH (vec0 ++ [l]) g1) as (vec & g' & Hfold & E & Hall).
    exists (l :: vec), g'. rewrite Hfold, <- app_assoc. split; [done|].
    split; [by eapply extends_trans|]. constructor; [|done].
    destruct E as (_ & _ & _ & Hc). by eapply canon_literal_in_mono.
Qed.

Lemma worker_fold_replay pf um csig vec vec0 g :
  Forall2 (canon_literal_in log_id (ez g) pf um) csig vec →
  ∃ g', foldl (worker_bit pf um false) (vec0, g) csig = (vec0 ++ vec, g') ∧
        ez g' = ez g ∧ extends g g'.
Proof.
  intros Hall. revert vec vec0 g Hall.
  induction csig as [|cbit csig IH]; intros vec vec0 g Hall; cbn [foldl].
  - apply Forall2_nil_inv_l in Hall as ->. exists g. rewrite app_nil_r.
    split; [done|]. split; [done|apply extends_refl].
  - apply Forall2_cons_inv_l in Hall as (l & vec' & Hl & Hall & ->).
    assert (∃ g1, worker_bit pf um false (vec0, g) cbit = (vec0 ++ [l], g1) ∧
                  ez g1 = ez g ∧ extends g g1) as (g1 & Hstep & He & E1).
    { pose proof (worker_bit_extends pf um false vec0 g cbit) as E.
      destruct cbit as [d|w o]; simpl in Hl.
      - subst l. unfold importSigSpecWorker_bit in *. rewrite andb_false_r in *.
        simpl in *. by eexists.
      - destruct Hl as (id & -> & Hc).
        unfold importSigSpecWorker_bit, frozen_literal_named in *.
        rewrite (literal_named_hit _ _ _ Hc) in *.
        destruct (subscript _ _ _) as [inner outer]. by eexists. }
    rewrite Hstep. rewrite <- He in Hall.
    destruct (IH vec' (vec0 ++ [l]) g1 Hall) as (g' & Hfold & He' & E').
    exists g'. rewrite Hfold, <- app_assoc. split; [done|].
    split; [congruence|by eapply extends_trans].
Qed.

Local Abbreviation import_ns := (Trace.import_ns log_id).

Lemma import_ns_result um g sig t :
  t ≠ 0%Z → (um = true → model_undef g = true) →
  ∃ vec g', import_ns um g sig t = Some (vec, g') ∧ extends g g' ∧ vec_at g' um t sig vec.
Proof.
  intros Ht Hm.
  assert (um && negb (model_undef g) = false) as Hok.
  { destruct um; [by rewrite Hm|done]. }
  destruct (worker_fold_result
              ((if um then "undef:" +:+ prefix g else prefix g) +:+ timestep_suffix t)
              um (map (sigmap g) sig) [] g) as (vec & g' & Hfold & E & Hall).
  exists vec, g'. split; [|split; [done|]].
  - unfold Trace.import_ns, importUndefSigSpec, importSigSpec, importSigSpecWorker.
    destruct um; rewrite decide_False by done; rewrite ?Hm by done;
      cbn [andb negb]; f_equal; exact Hfold.
  - unfold Trace.vec_at. destruct E as (_ & -> & -> & _). done.
Qed.

Lemma import_ns_replay um g sig t vec :
  t ≠ 0%Z → (um = true → model_undef g = true) →
  vec_at g um t sig vec →
  ∃ g', import_ns um g sig t = Some (vec, g') ∧ extends g g'.
Proof.
  intros Ht Hm Hat.
  destruct (worker_fold_replay _ _ _ _ [] g Hat) as (g' & Hfold & _ & E).
  exists g'. split; [|done].
  unfold Trace.import_ns, importUndefSigSpec, importSigSpec, importSigSpecWorker.
  destruct um; rewrite decide_False by done; rewrite ?Hm by done;
    cbn [andb negb]; f_equal; exact Hfold.
Qed.

Lemma vec_at_length g um t sig vec : vec_at g um t sig vec → length vec = length sig.
Proof. intros H. apply Forall2_length in H. by rewrite length_map in H. Qed.

Lemma signals_eq_bit_Some vl vr ul ur i x :
  signals_eq_bit vl vr ul ur i = Some x ↔
  ∃ a b c d, ul !! i = Some a ∧ ur !! i = Some b ∧ vl !! i = Some c ∧ vr !! i = Some d ∧
             x = AND (IFF a b) (IFF (OR c a) (OR d b)).
Proof.
  unfold signals_eq_bit. split.
  - destruct (ul !! i) as [a|]; simpl; [|done].
    destruct (ur !! i) as [b|]; simpl; [|done].
    destruct (vl !! i) as [c|]; simpl; [|done].
    destruct (vr !! i) as [d|]; simpl; [|done].
    intros [= <-]. by exists a, b, c, d.
  - intros (a & b & c & d & -> & -> & -> & -> & ->). done.
Qed.

Lemma eval_eq_bit rho a b c d :
  eval rho (AND (IFF a b) (IFF (OR c a) (OR d b)))
  = undef_eq (eval rho c) (eval rho a) (eval rho d) (eval rho b).
Proof. by rewrite eval_AND, !eval_IFF, !eval_OR. Qed.

Lemma undef_eq_sym va ua vb ub : undef_eq va ua vb ub = undef_eq vb ub va ua.
Proof. by destruct va, ua, vb, ub. Qed.

Lemma mapM_seq_total (f : nat → option lit) n :
  (∀ i, (i < n)%nat → is_Some (f i)) → is_Some (mapM f (seq 0 n)).
Proof.
  intros H. apply mapM_is_Some, Forall_forall. intros i Hi.
  apply list_elem_of_In, in_seq in Hi. apply H. lia.
Qed.

Lemma mapM_seq_lookup (f : nat → option lit) n l i x :
  mapM f (seq 0 n) = Some l → l !! i = Some x → (i < n)%nat ∧ f i = Some x.
Proof.
  intros HM Hl. apply mapM_Some in HM.
  pose proof (Forall2_length _ _ _ HM) as Hlen. rewrite length_seq in Hlen.
  assert (i < n)%nat as Hi by (apply lookup_lt_Some in Hl; lia).
  split; [done|].
  eapply (Forall2_lookup_lr _ _ _ i i x) in HM; [done| |done].
  by rewrite lookup_seq_lt.
Qed.

Lemma canon_literal_in_functional e pf um cbit l l' :
  canon_literal_in log_id e pf um cbit l → canon_literal_in log_id e pf um cbit l' → l = l'.
Proof.
  destruct cbit as [d|w o]; simpl; [congruence|].
  intros (id & -> & H) (id' & -> & H'). congruence.
Qed.

Lemma vec_at_functional g um t sig vec vec' :
  vec_at g um t sig vec → vec_at g um t sig vec' → vec = vec'.
Proof.
  unfold Trace.vec_at. generalize (map (sigmap g) sig). intros csig H. revert vec'.
  induction H as [|cbit l csig vec Hl _ IH]; intros vec' H'.
  - by apply Forall2_nil_inv_l in H'.
  - apply Forall2_cons_inv_l in H' as (l' & vec'' & Hl' & H' & ->).
    f_equal; [by eapply canon_literal_in_functional | by apply IH].
Qed.

Lemma forallb_lookup {A} (f : A → bool) (l : list A) :
  forallb f l = true ↔ ∀ i x, l !! i = Some x → f x = true.
Proof.
  induction l as [|y l IH]; simpl.
  - split; [|done]. intros _ i x. by rewrite lookup_nil.
  - rewrite andb_true_iff, IH. split.
    + intros [Hy Hl] [|i] x; simpl; [by intros [= <-]|apply Hl].
    + intros H. split; [by apply (H 0%nat)|]. intros i. apply (H (S i)).
Qed.

(** What [signals_eq] returns, in terms of the literals the session holds
    for its operands afterwards. *)
Lemma signals_eq_result g lhs rhs t1 t2 :
  length lhs = length rhs → t1 ≠ 0%Z → rhs_timestep t1 t2 ≠ 0%Z →
  ∃ f g' va vb,
    signals_eq log_id g lhs rhs t1 t2 = Some (f, g') ∧ extends g g' ∧
    vec_at g' false t1 lhs va ∧ vec_at g' false (rhs_timestep t1 t2) rhs vb ∧
    (model_undef g = false →
       ∀ rho, eval rho f = true ↔
              ∀ i vai vbi, va !! i = Some vai → vb !! i = Some vbi →
                           eval rho vai = eval rho vbi) ∧
    (model_undef g = true →
       ∃ ua ub,
         vec_at g' true t1 lhs ua ∧ vec_at g' true (rhs_timestep t1 t2) rhs ub ∧
         ∀ rho, eval rho f = true ↔
                ∀ i vai uai vbi ubi,
                  va !! i = Some vai → ua !! i = Some uai →
                  vb !! i = Some vbi → ub !! i = Some ubi →
                  undef_eq (eval rho vai) (eval rho uai) (eval rho vbi) (eval rho ubi) = true).
Proof.
  intros Hlen Ht1 Ht2. unfold signals_eq.
  change (if decide (t2 < 0)%Z then t1 else t2) with (rhs_timestep t1 t2).
  set (t2' := rhs_timestep t1 t2) in *.
  rewrite bool_decide_eq_true_2 by done. cbn [negb].
  destruct (import_ns_result false g lhs t1 Ht1) as (va & ga & Ha & Ea & Hva); [done|].
  destruct (import_ns_result false ga rhs t2' Ht2) as (vb & gb & Hb & Eb & Hvb); [done|].
  simpl in Ha, Hb. rewrite Ha. simpl. rewrite Hb. simpl.
  pose proof (extends_trans _ _ _ Ea Eb) as Eab.
  assert (model_undef gb = model_undef g) as Hm by apply Eab. rewrite Hm.
  pose proof (vec_at_length _ _ _ _ _ Hva) as La.
  pose proof (vec_at_length _ _ _ _ _ Hvb) as Lb.
  destruct (model_undef g) eqn:Hmu; cbn [negb].
  - destruct (import_ns_result true gb lhs t1 Ht1) as (ua & gc & Hua & Ec & Hvua);
      [congruence|].
    destruct (import_ns_result true gc rhs t2' Ht2) as (ub & gd & Hub & Ed & Hvub).
    { intros _. destruct Ec as (-> & _). congruence. }
    simpl in Hua, Hub. rewrite Hua. simpl. rewrite Hub. simpl.
    pose proof (vec_at_length _ _ _ _ _ Hvua) as Lua.
    pose proof (vec_at_length _ _ _ _ _ Hvub) as Lub.
    destruct (mapM_seq_total (signals_eq_bit va vb ua ub) (length lhs)) as [l Hl].
    { intros i Hi.
      destruct (lookup_lt_is_Some_2 ua i) as [x1 H1]; [lia|].
      destruct (lookup_lt_is_Some_2 ub i) as [x2 H2]; [lia|].
      destruct (lookup_lt_is_Some_2 va i) as [x3 H3]; [lia|].
      destruct (lookup_lt_is_Some_2 vb i) as [x4 H4]; [lia|].
      eexists. apply signals_eq_bit_Some. by exists x1, x2, x3, x4. }
    rewrite Hl. simpl.
    exists (expression OpAnd l), gd, va, vb. split; [done|].
    split; [eauto using extends_trans|].
    split; [eauto using vec_at_extends, extends_trans|].
    split; [eauto using vec_at_extends, extends_trans|].
    split; [done|]. intros _. exists ua, ub.
    split; [eauto using vec_at_extends|]. split; [done|].
    intros rho. rewrite eval_expression_and, forallb_lookup. split.
    + intros H i vai uai vbi ubi H1 H2 H3 H4.
      assert (i < length l)%nat as Hi.
      { pose proof (length_mapM _ _ _ Hl) as Hll. rewrite length_seq in Hll.
        apply lookup_lt_Some in H1. lia. }
      destruct (lookup_lt_is_Some_2 l i Hi) as [x Hx].
      destruct (mapM_seq_lookup _ _ _ _ _ Hl Hx) as [_ Hf].
      apply signals_eq_bit_Some in Hf as (a & b & c & d & ? & ? & ? & ? & ->).
      specialize (H i _ Hx). rewrite eval_eq_bit in H.
      replace vai with c by congruence. replace uai with a by congruence.
      replace vbi with d by congruence. by replace ubi with b by congruence.
    + intros H i x Hx.
      destruct (mapM_seq_lookup _ _ _ _ _ Hl Hx) as [_ Hf].
      apply signals_eq_bit_Some in Hf as (a & b & c & d & ? & ? & ? & ? & ->).
      rewrite eval_eq_bit. by eapply H.
  - unfold vec_eq, vec_iff. rewrite vec_zip_Some by lia. simpl.
    exists (expression OpAnd (zip_with IFF va vb)), gb, va, vb. split; [done|].
    split; [done|]. split; [eauto using vec_at_extends|]. split; [done|].
    split; [|done]. intros _ rho. rewrite eval_expression_and, forallb_lookup. split.
    + intros H i vai vbi H1 H2.
      specialize (H i (IFF vai vbi)). rewrite lookup_zip_with, H1 in H. simpl in H.
      rewrite H2 in H. simpl in H. specialize (H eq_refl).
      rewrite andb_true_r in H. by apply eqb_prop.
    + intros H i x Hx. rewrite lookup_zip_with in Hx.
      destruct (va !! i) as [vai|] eqn:H1; simpl in Hx; [|done].
      destruct (vb !! i) as [vbi|] eqn:H2; simpl in Hx; [|done].
      injection Hx as <-. rewrite eval_IFF, (H i vai vbi) by done.
      by destruct (eval rho vbi).
Qed.

(** C6, as the code has it: when each operand is imported at the same
    timestep in both calls (in particular when one timestep serves both
    operands), [signals_eq] on equal-length vectors returns a formula, the
    call with the operands swapped returns one in the same session, and
    the two formulas have the same truth value under every assignment.
    Under undef modeling the formula holds exactly when, at every
    position, the undef flags agree and the disjunction of each value with
    its own undef flag agrees between the two sides. *)
Theorem signals_eq_symmetric (g : SatGen) (a b : SigSpec) (t1 t2 u1 u2 : Z) :
  length a = length b →
  t1 ≠ 0%Z → rhs_timestep t1 t2 ≠ 0%Z →
  u1 = rhs_timestep t1 t2 → rhs_timestep u1 u2 = t1 →
  ∃ f1 g1 f2 g2 va vb,
    signals_eq log_id g a b t1 t2 = Some (f1, g1) ∧
    signals_eq log_id g1 b a u1 u2 = Some (f2, g2) ∧
    (∀ rho, eval rho f2 = eval rho f1) ∧
    vec_at g1 false t1 a va ∧ vec_at g1 false u1 b vb ∧
    (model_undef g = true →
       ∃ ua ub,
         vec_at g1 true t1 a ua ∧ vec_at g1 true u1 b ub ∧
         ∀ rho, eval rho f1 = true ↔
                ∀ i vai uai vbi ubi,
                  va !! i = Some vai → ua !! i = Some uai →
                  vb !! i = Some vbi → ub !! i = Some ubi →
                  undef_eq (eval rho vai) (eval rho uai) (eval rho vbi) (eval rho ubi) = true).
Proof.
  intros Hlen Ht1 Ht2 -> Hu.
  destruct (signals_eq_result g a b t1 t2 Hlen Ht1 Ht2)
    as (f1 & g1 & va & vb & H1 & E1 & Hva & Hvb & Hoff & Hon).
  destruct (signals_eq_result g1 b a (rhs_timestep t1 t2) u2)
    as (f2 & g2 & vb' & va' & H2 & E2 & Hvb' & Hva' & Hoff' & Hon');
    [done|done|by rewrite Hu|].
  rewrite Hu in *.
  assert (vb' = vb) as -> by eauto using vec_at_functional, vec_at_extends.
  assert (va' = va) as -> by eauto using vec_at_functional, vec_at_extends.
  exists f1, g1, f2, g2, va, vb. split; [done|]. split; [done|].
  assert (model_undef g1 = model_undef g) as Hm by apply E1.
  split; [|split; [done|split; [done|]]].
  - intros rho. apply eq_true_iff_eq.
    destruct (model_undef g) eqn:Hmu.
    + destruct (Hon eq_refl) as (ua & ub & Hua & Hub & Hf1).
      destruct (Hon' Hm) as (ub' & ua' & Hub' & Hua' & Hf2).
      assert (ub' = ub) as -> by eauto using vec_at_functional, vec_at_extends.
      assert (ua' = ua) as -> by eauto using vec_at_functional, vec_at_extends.
      rewrite Hf1, Hf2. split; intros H i vai uai vbi ubi ? ? ? ?;
        rewrite undef_eq_sym; by eapply H.
    + rewrite (Hoff eq_refl), (Hoff' Hm). split; intros H i x y ? ?;
        symmetry; by eapply H.
  - intros Hmu. destruct (Hon Hmu) as (ua & ub & Hua & Hub & Hf1). by exists ua, ub.
Qed.

End SessionFacts.

(** ** Concrete sessions *)

(** A result whose first component is known determines the whole result;
    this keeps large session states out of the computations below. *)
Lemma some_of_fst {A B} (o : option (A * B)) (a : A) (d : A * B) :
  fst <$> o = Some a → o = Some (a, (default d o).2).
Proof. destruct o as [[a' b]|]; simpl; [|done]. by intros [= ->]. Qed.

Lemma some_of_default {A} (o : option A) (d : A) :
  (λ _, tt) <$> o = Some tt → o = Some (default d o).
Proof. by destruct o. Qed.

(** C1 as stated fails on the code: with undef modeling on, an X constant
    imported twice through [importDefSigSpec] at one scope key gets two
    different literals, and [importSigSpec] gives it a third one. *)
Lemma import_def_x_fresh_each_time :
  importDefSigSpec id undef_session [BitConst Sx] (-1)
    = Some ([Var 1], with_ez undef_session (mkSolver [""] ∅ [])) ∧
  importDefSigSpec id (with_ez undef_session (mkSolver [""] ∅ [])) [BitConst Sx] (-1)
    = Some ([Var 2], with_ez undef_session (mkSolver [""; ""] ∅ [])) ∧
  importSigSpec id (with_ez undef_session (mkSolver [""; ""] ∅ [])) [BitConst Sx] (-1)
    = Some ([CONST_FALSE], with_ez undef_session (mkSolver [""; ""] ∅ [])) ∧
  Var 1 ≠ Var 2 ∧ Var 2 ≠ CONST_FALSE.
Proof. repeat split; try reflexivity; discriminate. Qed.



Lemma mux_undef_witness :
  ∃ res undef_res,
    mux undef_session (Var 6) (Var 5) [Var 1] [Var 3] [Var 2] [Var 4] = Some (res, undef_res) ∧
    length res = 1%nat ∧ length undef_res = 1%nat ∧
    ∀ rho i ai uai bi ubi,
      [Var 1] !! i = Some ai → [Var 3] !! i = Some uai →
      [Var 2] !! i = Some bi → [Var 4] !! i = Some ubi →
      eval rho <$> res !! i
        = Some (if eval rho (Var 6) then eval rho bi else eval rho ai) ∧
      eval rho <$> undef_res !! i
        = Some (if eval rho (Var 5)
                then xorb (eval rho ai) (eval rho bi) || (eval rho uai || eval rho ubi)
                else if eval rho (Var 6) then eval rho ubi else eval rho uai).
Proof.
  apply (mux_undef undef_session (Var 6) (Var 5) [Var 1] [Var 3] [Var 2] [Var 4]);
    reflexivity.
Defined.

(** C3 as stated fails on the code: with an undefined select and two
    operands that are both undefined and carry equal values, neither the
    values nor the undef flags disagree, yet the result is undefined. *)
Lemma mux_undef_when_both_undefined :
  mux undef_session (Var 6) (Var 5) [Var 1] [Var 3] [Var 2] [Var 4]
    = Some ([ITE (Var 6) (Var 2) (Var 1)],
            [ITE (Var 5) (OR (NOT (IFF (Var 1) (Var 2))) (OR (Var 3) (Var 4)))
                 (ITE (Var 6) (Var 4) (Var 3))]) ∧
  eval (λ _, true) (Var 5) = true ∧
  xorb (eval (λ _, true) (Var 1)) (eval (λ _, true) (Var 2))
    || xorb (eval (λ _, true) (Var 3)) (eval (λ _, true) (Var 4)) = false ∧
  eval (λ _, true)
    (ITE (Var 5) (OR (NOT (IFF (Var 1) (Var 2))) (OR (Var 3) (Var 4)))
         (ITE (Var 6) (Var 4) (Var 3))) = true.
Proof. repeat split. Qed.

(** C4 as stated fails on the code: value vectors of length one gated by
    an empty indicator are no assertion failure; the values are cut to
    the indicator's length and an empty conjunction is assumed. With undef
    modeling off, gating fails even on vectors of equal length. *)
Lemma undefGating_short_indicator :
  undefGating undef_session [Var 1] [Var 2] []
    = Some (with_ez undef_session (assume (expression OpAnd []) (ez undef_session))) ∧
  undefGating plain_session [Var 1] [Var 2] [Var 3] = None.
Proof. split; reflexivity. Qed.

(** An assert cell and a cover cell over the one-bit wires [c] and [en]. *)
Lemma importPropertyCell_obligation_witness :
  ∃ c0 ga e0 gb,
    importDefSigSpec id undef_session [sigmap undef_session (BitWire wire_c 0)] 1
      = Some ([c0], ga) ∧
    importDefSigSpec id ga [sigmap undef_session (BitWire wire_en 0)] 1 = Some ([e0], gb) ∧
    (model_undef undef_session = false →
       importPropertyCell id undef_session assert_cell 1
         = Some (obligation (type assert_cell) c0 e0, gb)) ∧
    (model_undef undef_session = true →
       ∃ uc gc ue gd,
         importUndefSigSpec id gb [sigmap undef_session (BitWire wire_c 0)] 1
           = Some ([uc], gc) ∧
         importUndefSigSpec id gc [sigmap undef_session (BitWire wire_en 0)] 1
           = Some ([ue], gd) ∧
         importPropertyCell id undef_session assert_cell 1
           = Some (obligation (type assert_cell) (defined uc c0) (defined ue e0), gd)) ∧
    ∀ rho check enable undef value,
      eval rho (obligation (type assert_cell) check enable)
        = (if bool_decide (type assert_cell = "$cover")
           then eval rho check && eval rho enable
           else implb (eval rho enable) (eval rho check)) ∧
      eval rho (defined undef value) = negb (eval rho undef) && eval rho value.
Proof.
  apply (importPropertyCell_obligation id undef_session assert_cell 1
           (BitWire wire_c 0) (BitWire wire_en 0)).
  - constructor.
  - reflexivity.
  - reflexivity.
  - discriminate.
Defined.

Example assert_cell_obligation :
  fst <$> importPropertyCell id undef_session assert_cell 1
  = Some (OR (NOT (AND (NOT (Var 4)) (Var 2))) (AND (NOT (Var 3)) (Var 1))).
Proof. reflexivity. Qed.

Lemma signals_eq_symmetric_witness :
  ∃ f1 g1 f2 g2 va vb,
    signals_eq id undef_session (bits_of wire_a) (bits_of wire_b) 2 (-1) = Some (f1, g1) ∧
    signals_eq id g1 (bits_of wire_b) (bits_of wire_a) 2 (-1) = Some (f2, g2) ∧
    (∀ rho, eval rho f2 = eval rho f1) ∧
    vec_at id g1 false 2 (bits_of wire_a) va ∧ vec_at id g1 false 2 (bits_of wire_b) vb ∧
    (model_undef undef_session = true →
       ∃ ua ub,
         vec_at id g1 true 2 (bits_of wire_a) ua ∧ vec_at id g1 true 2 (bits_of wire_b) ub ∧
         ∀ rho, eval rho f1 = true ↔
                ∀ i vai uai vbi ubi,
                  va !! i = Some vai → ua !! i = Some uai →
                  vb !! i = Some vbi → ub !! i = Some ubi →
                  undef_eq (eval rho vai) (eval rho uai) (eval rho vbi) (eval rho ubi) = true).
Proof.
  apply (signals_eq_symmetric id undef_session (bits_of wire_a) (bits_of wire_b) 2 (-1) 2 (-1)).
  - reflexivity.
  - discriminate.
  - vm_compute. discriminate.
  - reflexivity.
  - reflexivity.
Defined.

(** C6 as stated fails on the code for some pairs of timesteps. With
    [c] at the combinational timestep -1 and [en] at timestep 5, the
    swapped call reads "-1" as "same timestep as the left operand" and
    compares both signals at timestep 5; keeping the timesteps in place
    compares [en] at -1 with [c] at 5. The session names its variables
    1: c, 2: en at 5, 3 and 4: their undef flags, 5: c at 5, 6: its undef
    flag, 7: en, 8: its undef flag. Under the assignment below the first
    formula holds and neither of the other two does. *)
Lemma signals_eq_swap_timesteps_differ :
  ∃ g1 g2 g3,
    signals_eq id undef_session [BitWire wire_c 0] [BitWire wire_en 0] (-1) 5
      = Some (expression OpAnd
                [AND (IFF (Var 3) (Var 4)) (IFF (OR (Var 1) (Var 3)) (OR (Var 2) (Var 4)))], g1) ∧
    signals_eq id g1 [BitWire wire_en 0] [BitWire wire_c 0] 5 (-1)
      = Some (expression OpAnd
                [AND (IFF (Var 4) (Var 6)) (IFF (OR (Var 2) (Var 4)) (OR (Var 5) (Var 6)))], g2) ∧
    signals_eq id g2 [BitWire wire_en 0] [BitWire wire_c 0] (-1) 5
      = Some (expression OpAnd
                [AND (IFF (Var 8) (Var 6)) (IFF (OR (Var 7) (Var 8)) (OR (Var 5) (Var 6)))], g3) ∧
    eval (λ n, bool_decide (n ∈ [1; 2; 7]%nat))
      (expression OpAnd
         [AND (IFF (Var 3) (Var 4)) (IFF (OR (Var 1) (Var 3)) (OR (Var 2) (Var 4)))]) = true ∧
    eval (λ n, bool_decide (n ∈ [1; 2; 7]%nat))
      (expression OpAnd
         [AND (IFF (Var 4) (Var 6)) (IFF (OR (Var 2) (Var 4)) (OR (Var 5) (Var 6)))]) = false ∧
    eval (λ n, bool_decide (n ∈ [1; 2; 7]%nat))
      (expression OpAnd
         [AND (IFF (Var 8) (Var 6)) (IFF (OR (Var 7) (Var 8)) (OR (Var 5) (Var 6)))]) = false.
Proof.
  eexists _, _, _.
  split; [apply (some_of_fst _ _ (CONST_FALSE, undef_session)); vm_compute; reflexivity|].
  split; [apply (some_of_fst _ _ (CONST_FALSE, undef_session)); vm_compute; reflexivity|].
  split; [apply (some_of_fst _ _ (CONST_FALSE, undef_session)); vm_compute; reflexivity|].
  repeat (split; [vm_compute; reflexivity|]). vm_compute; reflexivity.
Qed.


(* ===================================================================== *)
(** * Properties of the miter builder                                     *)
(* ===================================================================== *)

Import SensitizePath MiterSpec.

(** ** Chunks *)

Lemma chunks_nil sig : chunks sig = [] → sig = [].
Proof.
  destruct sig as [|bit rest]; [done|]. simpl.
  destruct (chunks rest) as [|c cs]; [done|].
  destruct bit as [d|w o], (chunk_wire c) as [w'|]; try done.
  by destruct (decide _).
Qed.

(** A wire chunk made by [chunks] carries no constant data. *)
Lemma chunks_wire_data sig :
  Forall (λ c, chunk_is_wire c = true → chunk_data c = []) (chunks sig).
Proof.
  induction sig as [|bit rest IH]; simpl; [constructor|].
  destruct (chunks rest) as [|c cs].
  - constructor; [|constructor]. by destruct bit.
  - apply Forall_cons in IH as [Hc Hcs].
    destruct bit as [d|w o], (chunk_wire c) as [w'|] eqn:Hw; simpl.
    + by repeat constructor.
    + by constructor.
    + destruct (decide _); by repeat constructor.
    + by repeat constructor.
Qed.

Lemma chunk_bits_wire_cons w data o n :
  chunk_bits (mkChunk (Some w) data o (S n))
  = BitWire w o :: chunk_bits (mkChunk (Some w) data (S o) n).
Proof.
  unfold chunk_bits. simpl. rewrite Nat.add_0_r. f_equal.
  rewrite <- seq_shift, map_map. apply map_ext. intros i. f_equal. lia.
Qed.

(** The chunks of a signal spell out the signal. *)
Lemma chunks_flatten sig : foldr (λ c acc, chunk_bits c ++ acc) [] (chunks sig) = sig.
Proof.
  induction sig as [|bit rest IH]; simpl; [done|].
  destruct (chunks rest) as [|c cs] eqn:Hc.
  - apply chunks_nil in Hc as ->. destruct bit as [d|w o]; simpl; [done|].
    unfold chunk_bits. simpl. by rewrite Nat.add_0_r.
  - cbn [foldr] in IH.
    assert (Hone : ∀ b, chunk_bits (chunk_of_bit b) = [b]).
    { intros [d|w o]; unfold chunk_bits; simpl; [done|]. by rewrite Nat.add_0_r. }
    destruct bit as [d|w o], (chunk_wire c) as [w'|] eqn:Hw; cbn [foldr].
    + by rewrite Hone, IH.
    + rewrite <- IH. unfold chunk_bits. simpl. by rewrite Hw.
    + destruct (decide _) as [[-> Ho]|_]; cbn [foldr].
      * rewrite chunk_bits_wire_cons. simpl. rewrite <- IH. do 2 f_equal.
        unfold chunk_bits. simpl. rewrite Hw. by rewrite <- Ho.
      * by rewrite Hone, IH.
    + by rewrite Hone, IH.
Qed.

(** ** Rewriting a signal to path b *)

Lemma rewrite_chunk_bits wm c :
  (chunk_is_wire c = true → chunk_data c = []) →
  chunk_bits (rewrite_chunk wm c) = chunk_bits c ≫= path_b_bit wm.
Proof.
  intros Hdata. unfold rewrite_chunk, chunk_bits, chunk_is_wire in *.
  destruct (chunk_wire c) as [w|] eqn:Hw; simpl.
  - destruct (wm !! w) as [w'|] eqn:Hm; simpl.
    + generalize (seq 0 (chunk_width c)). intros l.
      induction l as [|i l IH]; simpl; [done|]. rewrite Hm. simpl. f_equal. exact IH.
    + rewrite Hdata by done. simpl.
      generalize (seq 0 (chunk_width c)). intros l.
      induction l as [|i l IH]; simpl; [done|]. rewrite Hm. exact IH.
  - rewrite Hw. clear Hdata.
    induction (chunk_data c) as [|d l IH]; simpl; [done|]. f_equal. exact IH.
Qed.

Lemma rewrite_fold wm cs acc :
  Forall (λ c, chunk_is_wire c = true → chunk_data c = []) cs →
  foldl (λ new_sig chunk, append new_sig (rewrite_chunk wm chunk)) acc cs
  = acc ++ (foldr (λ c acc, chunk_bits c ++ acc) [] cs ≫= path_b_bit wm).
Proof.
  intros Hcs. revert acc. induction Hcs as [|c cs Hc _ IH]; intros acc; simpl.
  - by rewrite app_nil_r.
  - rewrite IH. unfold append. rewrite rewrite_chunk_bits by done.
    by rewrite bind_app, app_assoc.
Qed.

(** [rewrite_sigspec] moves a signal to path b bit by bit. *)
Lemma rewrite_sigspec_bits w sig :
  rewrite_sigspec w sig = sig ≫= path_b_bit (wire_map w).
Proof.
  unfold rewrite_sigspec. rewrite rewrite_fold by apply chunks_wire_data.
  by rewrite chunks_flatten.
Qed.

Lemma rewrite_sigspec_wire_map w w' sig :
  wire_map w' = wire_map w → rewrite_sigspec w' sig = rewrite_sigspec w sig.
Proof. intros H. by rewrite !rewrite_sigspec_bits, H. Qed.

(** ** The constrained rewrite *)

Lemma chunk_of_bit_bits b : chunk_bits (chunk_of_bit b) = [b].
Proof. destruct b as [d|w o]; unfold chunk_bits; simpl; [done|]. by rewrite Nat.add_0_r. Qed.

Lemma chunk_of_bit_data b : chunk_is_wire (chunk_of_bit b) = true → chunk_data (chunk_of_bit b) = [].
Proof. by destruct b. Qed.

Lemma constrain_chunk_wire st c :
  chunk_is_wire c = true → chunk_data c = [] →
  constrain_chunk st c
  = (st.1.1, st.1.2 ++ chunk_bits c, st.2 ++ (chunk_bits c ≫= path_b_bit (wire_map st.1.1))).
Proof.
  intros Hw Hd. unfold constrain_chunk. rewrite Hw. destruct st as [[w sa] sb]. simpl.
  unfold append. by rewrite rewrite_chunk_bits.
Qed.

Lemma constrain_data_one d x_len st :
  constrain_data [d] x_len st =
  if State_eqb d Sx then flush (S x_len) st
  else let '(w, sig_a, sig_b) := flush x_len st in
       (w, sig_a ++ [BitConst d], sig_b ++ [BitConst d]).
Proof.
  simpl. destruct (State_eqb d Sx); [done|]. fold (flush x_len st).
  by destruct (flush x_len st) as [[w sa] sb].
Qed.

(** The loop over the chunks does what the bit-by-bit description says. *)
Lemma constrain_fold_bits sig x_len st :
  constrain_bits sig x_len st =
  match chunks sig with
  | [] => flush x_len st
  | c :: cs =>
      if chunk_is_wire c then foldl constrain_chunk (flush x_len st) (c :: cs)
      else foldl constrain_chunk (constrain_data (chunk_data c) x_len st) cs
  end.
Proof.
  revert x_len st. induction sig as [|bit rest IH]; intros x_len st; [done|].
  pose proof (chunks_wire_data rest) as Hdata.
  cbn [chunks]. destruct (chunks rest) as [|c cs] eqn:Hc.
  - (* the last bit *)
    apply chunks_nil in Hc as ->.
    destruct bit as [d|w o].
    + change (chunk_is_wire (chunk_of_bit (BitConst d))) with false. cbn [foldl].
      change (chunk_data (chunk_of_bit (BitConst d))) with [d].
      rewrite constrain_data_one. destruct d; simpl; try done;
        fold (flush x_len st); by destruct (flush x_len st) as [[w sa] sb].
    + change (chunk_is_wire (chunk_of_bit (BitWire w o))) with true. cbn [foldl].
      rewrite constrain_chunk_wire by done. rewrite chunk_of_bit_bits. simpl.
      destruct (flush x_len st) as [[w1 sa] sb]. simpl. by rewrite app_nil_r.
  - apply Forall_cons in Hdata as [Hcd _].
    destruct bit as [d|w o].
    + (* a constant bit *)
      assert (constrain_bits (BitConst d :: rest) x_len st
              = if State_eqb d Sx then constrain_bits rest (S x_len) st
                else let '(w, sa, sb) := flush x_len st in
                     constrain_bits rest 0 (w, sa ++ [BitConst d], sb ++ [BitConst d])) as ->.
      { destruct d; try done. }
      destruct (chunk_wire c) as [w'|] eqn:Hw.
      * change (chunk_is_wire (chunk_of_bit (BitConst d))) with false.
        change (chunk_data (chunk_of_bit (BitConst d))) with [d].
        rewrite constrain_data_one.
        destruct (State_eqb d Sx).
        -- rewrite IH. unfold chunk_is_wire. by rewrite Hw.
        -- destruct (flush x_len st) as [[w1 sa] sb]. rewrite IH.
           unfold chunk_is_wire. by rewrite Hw.
      * unfold chunk_is_wire at 1. cbn [chunk_wire chunk_data constrain_data].
        destruct (State_eqb d Sx).
        -- rewrite IH. unfold chunk_is_wire. by rewrite Hw.
        -- fold (flush x_len st). destruct (flush x_len st) as [[w1 sa] sb]. rewrite IH.
           unfold chunk_is_wire. by rewrite Hw.
    + (* a wire bit *)
      cbn [constrain_bits].
      assert (Hstep : ∀ st1 : SensitizePathWorker * SigSpec * SigSpec,
        foldl constrain_chunk st1 (chunk_of_bit (BitWire w o) :: c :: cs)
        = constrain_bits rest 0
            (st1.1.1, st1.1.2 ++ [BitWire w o],
             st1.2 ++ path_b_bit (wire_map st1.1.1) (BitWire w o))).
      { intros [[w1 sa] sb].
        change (foldl constrain_chunk (w1, sa, sb) (chunk_of_bit (BitWire w o) :: c :: cs))
          with (foldl constrain_chunk
                  (constrain_chunk (w1, sa, sb) (chunk_of_bit (BitWire w o))) (c :: cs)).
        rewrite constrain_chunk_wire by done.
        rewrite chunk_of_bit_bits. cbn [fst snd]. rewrite IH.
        replace ([BitWire w o] ≫= path_b_bit (wire_map w1))
          with (path_b_bit (wire_map w1) (BitWire w o)) by (simpl; by rewrite app_nil_r).
        destruct (chunk_is_wire c) eqn:Hcw; [done|].
        cbn [foldl]. unfold constrain_chunk at 2. by rewrite Hcw. }
      destruct (chunk_wire c) as [w'|] eqn:Hw.
      * destruct (decide (w = w' ∧ S o = chunk_offset c)) as [[<- Ho]|_].
        -- (* the bit joins the chunk that follows *)
           change (chunk_is_wire (mkChunk (Some w) [] o (S (chunk_width c)))) with true.
           cbn [foldl]. rewrite constrain_chunk_wire by done.
           destruct (flush x_len st) as [[w1 sa] sb]. cbn [fst snd].
           rewrite chunk_bits_wire_cons.
           assert (chunk_is_wire c = true) as Hcw by (unfold chunk_is_wire; by rewrite Hw).
           assert (mkChunk (Some w) [] (S o) (chunk_width c) = c) as ->.
           { destruct c as [cw cd co cn]. simpl in *. subst. by rewrite (Hcd eq_refl). }
           rewrite IH, Hcw. cbn [foldl]. rewrite constrain_chunk_wire by auto.
           cbn [fst snd flush]. simpl.
           by rewrite <- !app_assoc.
        -- change (chunk_is_wire (chunk_of_bit (BitWire w o))) with true.
           cbv iota. rewrite Hstep. by destruct (flush x_len st) as [[w1 sa] sb].
      * change (chunk_is_wire (chunk_of_bit (BitWire w o))) with true.
        cbv iota. rewrite Hstep. by destruct (flush x_len st) as [[w1 sa] sb].
Qed.

(** ** Workers that continue one another *)

Lemma continues_refl K w : continues K w w.
Proof. repeat split; try done. by exists []; rewrite app_nil_r. Qed.

Lemma continues_trans K w1 w2 w3 :
  continues K w1 w2 → continues K w2 w3 → continues K w1 w3.
Proof.
  intros (A1 & A2 & A3 & A4 & A5 & [m1 A6] & A7 & A8) (B1 & B2 & B3 & B4 & B5 & [m2 B6] & B7 & B8).
  repeat split; try congruence.
  - exists (m1 ++ m2). by rewrite B6, A6, app_assoc.
  - lia.
  - intros i Hk Hi. rewrite B8 by (done || lia). by apply A8.
Qed.

Lemma continues_weaken (K K' : nat → Prop) w w' :
  (∀ i, K' i → K i) → continues K w w' → continues K' w w'.
Proof.
  intros HK (A1 & A2 & A3 & A4 & A5 & A6 & A7 & A8). repeat split; try done.
  intros i Hk. apply A8. by apply HK.
Qed.

Lemma continues_connect K w conn : continues K w (connect w conn).
Proof. repeat split; try done. by exists [conn]. Qed.

Lemma continues_append K w m idx new :
  cells_ m = cells_ (miter w) ++ new → continues K w (with_miter w m idx).
Proof.
  intros Hm. repeat split; try done; simpl.
  - by exists []; rewrite app_nil_r.
  - rewrite Hm, length_app. lia.
  - intros i _ Hi. rewrite Hm. by apply lookup_app_l.
Qed.

Lemma Anyseq_cells m idx name n :
  cells_ (Anyseq m idx name n).1.2
  = cells_ m ++ [Some (mkCell name "$anyseq" [(ID_Y, sig_of (mkWire (new_id idx) n false false false))]
                         {[ ID_WIDTH := Const_of_nat n 32 ]})].
Proof. reflexivity. Qed.

Lemma Anyseq_sig m idx name n :
  (Anyseq m idx name n).1.1 = sig_of (mkWire (new_id idx) n false false false).
Proof. reflexivity. Qed.

Lemma length_sig_of w : length (sig_of w) = width w.
Proof. unfold sig_of. by rewrite length_map, length_seq. Qed.

(** What [append_anyseq] adds: one [$anyseq] cell, and the bits of its
    output wire at the end of both signals. *)
Lemma append_anyseq_spec w sa sb n :
  ∃ w' wire c,
    append_anyseq (w, sa, sb) n = (w', sa ++ sig_of wire, sb ++ sig_of wire) ∧
    width wire = n ∧ type c = "$anyseq" ∧ getPort c ID_Y = Some (sig_of wire) ∧
    cells_ (miter w') = cells_ (miter w) ++ [Some c] ∧
    continues (λ _, True) w w'.
Proof.
  unfold append_anyseq.
  pose proof (Anyseq_cells (miter w) (S (autoidx w)) (new_id (autoidx w)) n) as Hc.
  pose proof (Anyseq_sig (miter w) (S (autoidx w)) (new_id (autoidx w)) n) as Hs.
  destruct (Anyseq _ _ _ _) as [[anyseq m] idx]. simpl in Hc, Hs. subst anyseq.
  eexists _, _, _. split; [done|]. split; [done|]. split; [|split; [|split; [exact Hc|]]].
  - done.
  - done.
  - by eapply continues_append.
Qed.

(** The bit-by-bit rewrite adds one [$anyseq] cell per run of undefined
    constants and nothing else, and path a keeps the length of the
    signal. *)
Lemma constrain_bits_spec sig x_len w sa sb :
  ∃ w' sa' sb' new,
    constrain_bits sig x_len (w, sa, sb) = (w', sa', sb') ∧
    continues (λ _, True) w w' ∧
    cells_ (miter w') = cells_ (miter w) ++ new ∧
    Forall anyseq_cell new ∧
    length new = ((if bool_decide (0 < x_len)%nat then 1 else 0)
                  + x_runs (bool_decide (0 < x_len)%nat) sig)%nat ∧
    length sa' = (length sa + x_len + length sig)%nat.
Proof.
  revert x_len w sa sb. induction sig as [|bit rest IH]; intros x_len w sa sb.
  - cbn [constrain_bits]. unfold flush. case_bool_decide as Hx.
    + destruct (append_anyseq_spec w sa sb x_len) as (w' & wire & c & -> & Hw & Hty & _ & Hc & Hk).
      exists w', (sa ++ sig_of wire), (sb ++ sig_of wire), [Some c].
      split_and!; try done.
      * constructor; [|constructor]. by exists c.
      * rewrite length_app, length_sig_of. simpl. lia.
    + exists w, sa, sb, []. split_and!; try done.
      * apply continues_refl.
      * by rewrite app_nil_r.
      * simpl. lia.
  - assert (Hother : ∀ b, (∀ rest' xl st, constrain_bits (b :: rest') xl st
                 = let '(w1, sa1, sb1) := flush xl st in
                   constrain_bits rest' 0 (w1, sa1 ++ [b], sb1 ++ path_b_bit (wire_map w1) b)) →
               x_runs (bool_decide (0 < x_len)%nat) (b :: rest) = x_runs false rest →
      ∃ w' sa' sb' new,
        constrain_bits (b :: rest) x_len (w, sa, sb) = (w', sa', sb') ∧
        continues (λ _, True) w w' ∧ cells_ (miter w') = cells_ (miter w) ++ new ∧
        Forall anyseq_cell new ∧
        length new = ((if bool_decide (0 < x_len)%nat then 1 else 0)
                      + x_runs (bool_decide (0 < x_len)%nat) (b :: rest))%nat ∧
        length sa' = (length sa + x_len + length (b :: rest))%nat).
    { intros b Hdef Hruns. rewrite Hdef, Hruns. unfold flush. case_bool_decide as Hx.
      - destruct (append_anyseq_spec w sa sb x_len)
          as (w1 & wire & c & -> & Hw & Hty & _ & Hc & Hk).
        lazy beta iota.
        destruct (IH 0%nat w1 ((sa ++ sig_of wire) ++ [b])
                    ((sb ++ sig_of wire) ++ path_b_bit (wire_map w1) b))
          as (w' & sa' & sb' & new & Heq & Hk' & Hc' & Hnew & Hlen & Hsa).
        exists w', sa', sb', (Some c :: new). split_and!; try done.
        + by eapply continues_trans.
        + rewrite Hc', Hc, <- app_assoc. done.
        + constructor; [by exists c|done].
        + simpl. rewrite Hlen. simpl. lia.
        + rewrite Hsa, !length_app, length_sig_of. simpl. lia.
      - destruct (IH 0%nat w (sa ++ [b]) (sb ++ path_b_bit (wire_map w) b))
          as (w' & sa' & sb' & new & Heq & Hk' & Hc' & Hnew & Hlen & Hsa).
        exists w', sa', sb', new. split_and!; try done.
        rewrite Hsa, !length_app. simpl. lia. }
    destruct bit as [d|wr o]; [destruct d|].
    + apply Hother; [done|]. by case_bool_decide.
    + apply Hother; [done|]. by case_bool_decide.
    + (* an undefined constant extends the run *)
      cbn [constrain_bits].
      destruct (IH (S x_len) w sa sb) as (w' & sa' & sb' & new & Heq & Hk' & Hc' & Hnew & Hlen & Hsa).
      exists w', sa', sb', new. split_and!; try done.
      * rewrite Hlen. rewrite bool_decide_eq_true_2 by lia. simpl.
        destruct (bool_decide (0 < x_len)%nat); simpl; lia.
      * rewrite Hsa. simpl. lia.
    + apply Hother; [done|]. by case_bool_decide.
    + apply Hother; [done|]. by case_bool_decide.
Qed.

Lemma rewrite_sigspec_constrain_bits w sig :
  rewrite_sigspec_constrain w sig = Some (constrain_bits sig 0 (w, [], [])).
Proof.
  unfold rewrite_sigspec_constrain.
  assert (foldl constrain_chunk (w, [], []) (chunks sig) = constrain_bits sig 0 (w, [], [])) as ->.
  { rewrite constrain_fold_bits. destruct (chunks sig) as [|c cs]; [done|].
    destruct (chunk_is_wire c) eqn:Hc; [done|].
    cbn [foldl]. unfold constrain_chunk at 2. by rewrite Hc. }
  destruct (constrain_bits_spec sig 0 w [] []) as (w' & sa' & sb' & new & -> & _ & _ & _ & _ & Hsa).
  simpl in Hsa. by rewrite bool_decide_eq_true_2.
Qed.

(** ** Ports of a cell *)

Lemma assoc_set_eq {A} k (v : A) l : assoc k (assoc_set k v l) = Some v.
Proof.
  induction l as [|[k' v'] l IH]; simpl.
  - by rewrite decide_True.
  - destruct (decide (k = k')) as [->|Hne]; simpl.
    + by rewrite decide_True.
    + by rewrite decide_False.
Qed.

Lemma assoc_set_ne {A} k k' (v : A) l : k ≠ k' → assoc k' (assoc_set k v l) = assoc k' l.
Proof.
  intros Hne. induction l as [|[k0 v0] l IH]; simpl.
  - by rewrite decide_False.
  - destruct (decide (k = k0)) as [->|Hne0]; simpl.
    + by rewrite !decide_False.
    + destruct (decide (k' = k0)); [done|]. apply IH.
Qed.

Lemma getPort_setPort_eq c port sig : getPort (setPort c port sig) port = Some sig.
Proof. apply assoc_set_eq. Qed.

Lemma getPort_setPort_ne c port port' sig :
  port ≠ port' → getPort (setPort c port sig) port' = getPort c port'.
Proof. apply assoc_set_ne. Qed.

Lemma assoc_elem {A} k (v : A) l : NoDup l.*1 → (k, v) ∈ l → assoc k l = Some v.
Proof.
  induction l as [|[k' v'] l IH]; simpl; intros Hnd Hin.
  - by apply elem_of_nil in Hin.
  - apply NoDup_cons in Hnd as [Hk' Hnd].
    apply elem_of_cons in Hin as [[= <- <-]|Hin].
    + by rewrite decide_True.
    + rewrite decide_False; [by apply IH|]. intros ->. apply Hk'.
      apply list_elem_of_fmap. by exists (k', v).
Qed.

(** ** The pool of undriven signals *)

Lemma pool_wires_empty : pool_wires ∅.
Proof. intros b Hb. set_solver. Qed.

Lemma pool_wires_add p sig : pool_wires p → pool_wires (pool_add p sig).
Proof.
  intros Hp b. unfold pool_add. rewrite elem_of_union, elem_of_list_to_set, list_elem_of_filter.
  intros [Hb|[Hb _]]; [by apply Hp|done].
Qed.

Lemma pool_wires_del p sig : pool_wires p → pool_wires (pool_del p sig).
Proof. intros Hp b. unfold pool_del. rewrite elem_of_difference. intros [Hb _]. by apply Hp. Qed.

Lemma chunks_wire_bits sig :
  Forall (λ b, is_wire_bit b = true) sig → Forall (λ c, chunk_is_wire c = true) (chunks sig).
Proof.
  induction 1 as [|bit rest Hbit _ IH]; simpl; [constructor|].
  destruct bit as [d|w o]; [done|].
  destruct (chunks rest) as [|c cs]; [by repeat constructor|].
  apply Forall_cons in IH as [Hc Hcs].
  destruct (chunk_wire c) as [w'|] eqn:Hw.
  - destruct (decide _); by repeat constructor.
  - by repeat constructor.
Qed.

(** ** The loops of [run] *)

Lemma after_wires_refl w : after_wires w w.
Proof.
  split_and!; try done; [by exists []; rewrite app_nil_r|].
  exists []. by rewrite app_nil_r.
Qed.

Lemma after_wires_trans w1 w2 w3 : after_wires w1 w2 → after_wires w2 w3 → after_wires w1 w3.
Proof.
  intros (A1 & A2 & A3 & A4 & [m1 A5] & n1 & A6 & A7) (B1 & B2 & B3 & B4 & [m2 B5] & n2 & B6 & B7).
  split_and!; try congruence.
  - exists (m1 ++ m2). by rewrite B5, A5, app_assoc.
  - exists (n1 ++ n2). split; [by rewrite B6, A6, app_assoc|]. by apply Forall_app.
Qed.

Lemma add_x_wire_after w wire_a wire_b :
  after_wires w (add_x_wire w wire_a wire_b) ∧
  wire_map (add_x_wire w wire_a wire_b) = wire_map w.
Proof.
  unfold add_x_wire. destruct (isPublic (wire_name wire_a)); simpl.
  - split; [|done]. split_and!; try done; [by exists []; rewrite app_nil_r|].
    eexists [_]. split; [reflexivity|]. constructor; [|constructor].
    eexists. split; [reflexivity|]. right.
    eexists _, wire_a, wire_b, _. split; reflexivity.
  - split; [apply after_wires_refl|done].
Qed.

Lemma run_wire_after w u wire :
  after_wires w (run_wire (w, u) wire).1 ∧
  (pool_wires u → pool_wires (run_wire (w, u) wire).2).
Proof.
  unfold run_wire. cbn [addWire_like fst snd].
  set (wire_b := mkWire _ _ false false _).
  set (w1 := with_wire_map _ _).
  assert (after_wires w w1) as H1.
  { subst w1. split_and!; try done; [by exists []; rewrite app_nil_r|].
    exists []. by rewrite app_nil_r. }
  destruct (add_x_wire_after w1 wire wire_b) as [H2 _].
  pose proof (after_wires_trans _ _ _ H1 H2) as H12.
  destruct (opt_constrain_all (add_x_wire w1 wire wire_b)); simpl.
  { split; [done|]. apply pool_wires_add. }
  destruct (port_input wire); simpl; [|done].
  destruct (opt_constrain_inputs (add_x_wire w1 wire wire_b)); simpl.
  - split; [|done]. eapply after_wires_trans; [exact H12|].
    split_and!; try done; [by eexists [_]|]. exists []. by rewrite app_nil_r.
  - split; [|done]. eapply after_wires_trans; [exact H12|].
    split_and!; try done; [by eexists [_]|].
    eexists [_]. split; [reflexivity|]. constructor; [|constructor].
    eexists. split; [reflexivity|]. by left.
Qed.

Lemma run_wires_after wires w u :
  after_wires w (foldl run_wire (w, u) wires).1 ∧
  (pool_wires u → pool_wires (foldl run_wire (w, u) wires).2).
Proof.
  revert w u. induction wires as [|wire wires IH]; intros w u; cbn [foldl].
  - split; [apply after_wires_refl|done].
  - destruct (run_wire_after w u wire) as [H1 P1].
    destruct (run_wire (w, u) wire) as [w1 u1]. simpl in H1, P1.
    destruct (IH w1 u1) as [H2 P2]. split; [by eapply after_wires_trans|auto].
Qed.

(** A queued direct connection never fails; without [-constrain_undef] it
    leaves the cells alone. *)
Lemma run_conn_spec w conn :
  ∃ w', run_conn w conn = Some w' ∧ continues (λ _, True) w w' ∧
        (opt_constrain_all w = false → cells_ (miter w') = cells_ (miter w)) ∧
        (∃ new, cells_ (miter w') = cells_ (miter w) ++ new ∧ Forall anyseq_cell new).
Proof.
  unfold run_conn. destruct (opt_constrain_all w) eqn:Hall.
  - rewrite rewrite_sigspec_constrain_bits.
    destruct (constrain_bits_spec conn.2 0 w [] [])
      as (w1 & sa & sb & new & -> & Hk & Hc & Hnew & _ & _).
    simpl. eexists. split; [done|]. split_and!.
    + eapply continues_trans; [exact Hk|].
      eapply continues_trans; apply continues_connect.
    + done.
    + by exists new.
  - eexists. split; [done|]. split_and!.
    + eapply continues_trans; apply continues_connect.
    + done.
    + exists []. by rewrite app_nil_r.
Qed.

Lemma run_conns_spec conns w :
  ∃ w', foldM run_conn w conns = Some w' ∧ continues (λ _, True) w w' ∧
        (opt_constrain_all w = false → cells_ (miter w') = cells_ (miter w)) ∧
        (∃ new, cells_ (miter w') = cells_ (miter w) ++ new ∧ Forall anyseq_cell new).
Proof.
  revert w. induction conns as [|conn conns IH]; intros w; cbn [foldM].
  - exists w. split; [done|]. split; [apply continues_refl|]. split; [done|].
    exists []. by rewrite app_nil_r.
  - destruct (run_conn_spec w conn) as (w1 & -> & Hk1 & Hc1 & n1 & Hn1 & Hf1). simpl.
    destruct (IH w1) as (w' & -> & Hk & Hc & n2 & Hn2 & Hf2).
    exists w'. split; [done|]. split; [by eapply continues_trans|]. split.
    + intros Hall. rewrite Hc, Hc1; [done|done|]. destruct Hk1 as (_ & -> & _). done.
    + exists (n1 ++ n2). split; [by rewrite Hn2, Hn1, app_assoc|]. by apply Forall_app.
Qed.

Lemma run_undriven_spec w c :
  chunk_is_wire c = true →
  ∃ w', run_undriven w c = Some w' ∧ continues (λ _, True) w w' ∧
        ∃ new, cells_ (miter w') = cells_ (miter w) ++ new ∧ Forall anyseq_cell new.
Proof.
  unfold run_undriven, chunk_is_wire. destruct (chunk_wire c) as [wire_a|]; [|done].
  intros _. destruct (port_input wire_a).
  - eexists. split; [done|]. split; [apply continues_connect|].
    exists []. by rewrite app_nil_r.
  - eexists. split; [done|]. split.
    + eapply continues_trans; [|eapply continues_trans; apply continues_connect].
      by eapply continues_append.
    + eexists [_]. split; [reflexivity|]. constructor; [|constructor]. by eexists.
Qed.

Lemma run_undrivens_spec cs w :
  Forall (λ c, chunk_is_wire c = true) cs →
  ∃ w', foldM run_undriven w cs = Some w' ∧ continues (λ _, True) w w' ∧
        ∃ new, cells_ (miter w') = cells_ (miter w) ++ new ∧ Forall anyseq_cell new.
Proof.
  intros Hcs. revert w. induction Hcs as [|c cs Hc _ IH]; intros w; cbn [foldM].
  - exists w. split; [done|]. split; [apply continues_refl|]. exists []. by rewrite app_nil_r.
  - destruct (run_undriven_spec w c Hc) as (w1 & -> & Hk1 & n1 & Hn1 & Hf1). simpl.
    destruct (IH w1) as (w' & -> & Hk & n2 & Hn2 & Hf2).
    exists w'. split; [done|]. split; [by eapply continues_trans|].
    exists (n1 ++ n2). split; [by rewrite Hn2, Hn1, app_assoc|]. by apply Forall_app.
Qed.

(* ===================================================================== *)
(** * More properties of the SatGen session                               *)
(* ===================================================================== *)

Import SatGen Trace Demo.

Section SessionMore.
Variable log_id : IdString -> string.

Local Abbreviation worker := (importSigSpecWorker log_id).
Local Abbreviation worker_bit := (importSigSpecWorker_bit log_id).

(** ** What one step of the import loop does to the session *)

Lemma cached_insert g pf bit l pf' bit' :
  cached (with_imported_signals g
            (<[pf := <[bit := l]> (subscript ∅ (imported_signals g) pf).1]>
               (subscript ∅ (imported_signals g) pf).2)) pf' bit'
  = if decide (pf' = pf ∧ bit' = bit) then Some l else cached g pf' bit'.
Proof.
  unfold cached at 1. simpl.
  destruct (decide (pf' = pf)) as [->|Hpf].
  - rewrite lookup_insert_eq. simpl.
    destruct (decide (bit' = bit)) as [->|Hb].
    + rewrite lookup_insert_eq. by rewrite decide_True.
    + rewrite lookup_insert_ne by done. rewrite decide_False by tauto.
      apply subscript_fst_lookup.
  - rewrite lookup_insert_ne by done. rewrite decide_False by tauto.
    apply cached_subscript.
Qed.

(** A step on a wire bit, spelled out. *)
Lemma worker_bit_wire_step pf um du vec g w o :
  worker_bit pf um du (vec, g) (BitWire w o)
  = (vec ++ [(literal_named (bit_name log_id pf w o) (ez g)).1],
     with_imported_signals (with_ez g (literal_named (bit_name log_id pf w o) (ez g)).2)
       (<[pf := <[BitWire w o := (literal_named (bit_name log_id pf w o) (ez g)).1]>
                  (subscript ∅ (imported_signals g) pf).1]>
          (subscript ∅ (imported_signals g) pf).2)).
Proof.
  unfold importSigSpecWorker_bit, frozen_literal_named.
  destruct (literal_named _ _) as [l e]. simpl.
  by destruct (subscript _ _ _) as [inner outer].
Qed.

(** A step on a constant bit never touches the cache of imported signals
    nor the names of the oracle. *)
Lemma worker_bit_const_step pf um du vec g d :
  ∃ l e, worker_bit pf um du (vec, g) (BitConst d) = (vec ++ [l], with_ez g e) ∧
         literalsCache e = literalsCache (ez g) ∧ assumed e = assumed (ez g).
Proof.
  unfold importSigSpecWorker_bit.
  destruct (model_undef g && du && State_eqb d Sx); simpl.
  - by eexists _, _.
  - exists (if State_eqb d (if um then Sx else S1) then CONST_TRUE else CONST_FALSE), (ez g).
    split; [|done]. by destruct g.
Qed.

Lemma literal_named_assumed name e : assumed (literal_named name e).2 = assumed e.
Proof. unfold literal_named. by destruct (literalsCache e !! name). Qed.

Lemma step_frame_refl pf g : step_frame pf g g.
Proof. by unfold step_frame; split_and!. Qed.

Lemma step_frame_trans pf g1 g2 g3 :
  step_frame pf g1 g2 → step_frame pf g2 g3 → step_frame pf g1 g3.
Proof.
  intros (A1 & A2 & A3 & A4) (B1 & B2 & B3 & B4).
  unfold step_frame; split_and!;
    [congruence | congruence | intros pf' bit Hne; by rewrite B3, A3 | intros d; by rewrite B4, A4].
Qed.

Lemma worker_bit_frame pf um du vec g bit :
  step_frame pf g (worker_bit pf um du (vec, g) bit).2.
Proof.
  destruct bit as [d|w o].
  - destruct (worker_bit_const_step pf um du vec g d) as (l & e & -> & Hc & Ha).
    by unfold step_frame; split_and!.
  - rewrite worker_bit_wire_step. cbn [snd]. unfold step_frame. split_and!.
    + simpl. apply literal_named_assumed.
    + done.
    + intros pf' bit Hne.
      rewrite (cached_insert (with_ez g _) pf (BitWire w o) _ pf' bit).
      by rewrite decide_False by tauto.
    + intros d.
      rewrite (cached_insert (with_ez g _) pf (BitWire w o) _ pf (BitConst d)).
      by rewrite decide_False by (intros [_ [=]]).
Qed.

Lemma worker_fold_frame pf um du sig vec g :
  step_frame pf g (foldl (worker_bit pf um du) (vec, g) sig).2.
Proof.
  revert vec g. induction sig as [|bit sig IH]; intros vec g; cbn [foldl].
  - apply step_frame_refl.
  - pose proof (worker_bit_frame pf um du vec g bit) as H1.
    destruct (worker_bit pf um du (vec, g) bit) as [vec' g'].
    eapply step_frame_trans; [exact H1|apply IH].
Qed.

Lemma worker_fold_length pf um du sig vec g :
  length (foldl (worker_bit pf um du) (vec, g) sig).1 = (length vec + length sig)%nat.
Proof.
  revert vec g. induction sig as [|bit sig IH]; intros vec g; cbn [foldl].
  - simpl. lia.
  - assert (∃ l g', worker_bit pf um du (vec, g) bit = (vec ++ [l], g')) as (l & g' & ->).
    { destruct bit as [d|w o].
      - destruct (worker_bit_const_step pf um du vec g d) as (l & e & -> & _). by eexists _, _.
      - rewrite worker_bit_wire_step. by eexists _, _. }
    rewrite IH, length_app. simpl. lia.
Qed.

(** X1. The import worker fails in one case only, an undef-mode import
    while undef modeling is off; otherwise it returns one literal per bit
    of the signal, adds no assumption to the oracle, and leaves the
    initial-state record, the cache of every other scope prefix and the
    (empty) cache entries of constants as they were. *)
Theorem importSigSpecWorker_shape (g : SatGen) (sig : SigSpec) (pf : string)
    (undef_mode dup_undef : bool) :
  (worker g sig pf undef_mode dup_undef = None ↔
     undef_mode = true ∧ model_undef g = false) ∧
  ∀ vec g', worker g sig pf undef_mode dup_undef = Some (vec, g') →
    length vec = length sig ∧
    assumed (ez g') = assumed (ez g) ∧
    initstates g' = initstates g ∧
    (∀ pf' bit, pf' ≠ pf → cached g' pf' bit = cached g pf' bit) ∧
    (∀ d, cached g' pf (BitConst d) = cached g pf (BitConst d)).
Proof.
  unfold importSigSpecWorker. split.
  - destruct undef_mode, (model_undef g); simpl; split; try done; by intros [? ?].
  - intros vec g'. destruct (undef_mode && negb (model_undef g)); [done|].
    intros [= H].
    pose proof (worker_fold_length pf undef_mode dup_undef (map (sigmap g) sig) [] g) as Hlen.
    pose proof (worker_fold_frame pf undef_mode dup_undef (map (sigmap g) sig) [] g) as Hfr.
    rewrite H in Hlen, Hfr. simpl in Hlen, Hfr. rewrite length_map in Hlen.
    split; [done|]. exact Hfr.
Qed.

(** ** Import, then query *)

Local Abbreviation imported_with := (Trace.imported_with log_id).

Lemma cached_with_ez g e pf bit : cached (with_ez g e) pf bit = cached g pf bit.
Proof. reflexivity. Qed.

Lemma worker_bit_keeps pf um du vec g bit w o l :
  imported_with pf w o l g → imported_with pf w o l (worker_bit pf um du (vec, g) bit).2.
Proof.
  intros [(id & -> & Hid) Hc]. destruct bit as [d|w' o'].
  - destruct (worker_bit_const_step pf um du vec g d) as (l & e & -> & He & _).
    split; [exists id; split; [done|]; simpl; by rewrite He | done].
  - rewrite worker_bit_wire_step. cbn [snd]. split.
    + exists id. split; [done|]. simpl. by apply literal_named_keeps.
    + rewrite (cached_insert (with_ez g _) pf (BitWire w' o') _ pf (BitWire w o)).
      destruct (decide _) as [[_ [= -> ->]]|_]; [|done].
      by rewrite (literal_named_hit _ _ _ Hid).
Qed.

Lemma worker_fold_keeps pf um du sig vec g w o l :
  imported_with pf w o l g →
  imported_with pf w o l (foldl (worker_bit pf um du) (vec, g) sig).2.
Proof.
  revert vec g. induction sig as [|bit sig IH]; intros vec g H; cbn [foldl]; [done|].
  pose proof (worker_bit_keeps pf um du vec g bit w o l H) as H1.
  destruct (worker_bit pf um du (vec, g) bit) as [vec' g']. by apply IH.
Qed.

Lemma worker_bit_imports pf um du vec g w o :
  ∃ l g', worker_bit pf um du (vec, g) (BitWire w o) = (vec ++ [l], g') ∧
          imported_with pf w o l g'.
Proof.
  rewrite worker_bit_wire_step. eexists _, _. split; [done|].
  destruct (literal_named_bound (bit_name log_id pf w o) (ez g)) as (id & Hl & Hc).
  split.
  - exists id. by split.
  - rewrite (cached_insert (with_ez g _) pf (BitWire w o) _ pf (BitWire w o)).
    by rewrite decide_True.
Qed.

Lemma worker_fold_imports pf um du csig vec0 g :
  ∃ vec g', foldl (worker_bit pf um du) (vec0, g) csig = (vec0 ++ vec, g') ∧
            Forall2 (λ cb l, ∀ w o, cb = BitWire w o → imported_with pf w o l g') csig vec.
Proof.
  revert vec0 g. induction csig as [|cb csig IH]; intros vec0 g; cbn [foldl].
  - exists [], g. rewrite app_nil_r. split; [done|constructor].
  - assert (∃ l g1, worker_bit pf um du (vec0, g) cb = (vec0 ++ [l], g1) ∧
                    ∀ w o, cb = BitWire w o → imported_with pf w o l g1)
      as (l & g1 & Hstep & Hl).
    { destruct cb as [d|w o].
      - destruct (worker_bit_const_step pf um du vec0 g d) as (l & e & -> & _).
        by eexists _, _.
      - destruct (worker_bit_imports pf um du vec0 g w o) as (l & g1 & -> & H).
        exists l, g1. split; [done|]. by intros ? ? [= <- <-]. }
    rewrite Hstep. destruct (IH (vec0 ++ [l]) g1) as (vec & g' & Hfold & Hall).
    exists (l :: vec), g'. rewrite Hfold, <- app_assoc. split; [done|].
    constructor; [|done]. intros w o Hcb.
    pose proof (worker_fold_keeps pf um du csig (vec0 ++ [l]) g1 w o l (Hl w o Hcb)) as Hk.
    by rewrite Hfold in Hk.
Qed.

Lemma importedSigBit_hit g bit t l :
  t ≠ 0%Z → cached g (prefix g +:+ timestep_suffix t) bit = Some l →
  importedSigBit g bit t = Some (true, g).
Proof.
  intros Ht Hc. unfold importedSigBit. rewrite decide_False by done.
  unfold cached in Hc. unfold subscript.
  destruct (imported_signals g !! (prefix g +:+ timestep_suffix t)) as [inner|]; [|done].
  simpl in Hc. rewrite Hc. rewrite bool_decide_eq_true_2 by eauto. by destruct g.
Qed.

(** X2. Import, then query: after [importSigSpec] or [importDefSigSpec]
    of a signal, every bit of the signal that canonicalizes to a wire bit
    is cached under the scope with the very literal the import returned
    for it, and [importedSigBit] on the canonical bit at the same timestep
    answers yes without changing the session. *)
Theorem import_then_imported (g g' : SatGen) (sig : SigSpec) (t : Z) (vec : list lit)
    (i : nat) (b : SigBit) (l : lit) :
  importSigSpec log_id g sig t = Some (vec, g') ∨
  importDefSigSpec log_id g sig t = Some (vec, g') →
  sig !! i = Some b → vec !! i = Some l →
  is_wire_bit (sigmap g b) = true →
  cached g' (prefix g +:+ timestep_suffix t) (sigmap g b) = Some l ∧
  importedSigBit g' (sigmap g b) t = Some (true, g').
Proof.
  intros Himp Hb Hl Hw.
  assert (t ≠ 0%Z ∧ ∃ du, foldl (worker_bit (prefix g +:+ timestep_suffix t) false du) ([], g)
                            (map (sigmap g) sig) = (vec, g')) as [Ht [du Hfold]].
  { unfold importSigSpec, importDefSigSpec, importSigSpecWorker in Himp.
    destruct (decide (t = 0%Z)); [by destruct Himp|]. split; [done|].
    destruct Himp as [[= H]|[= H]]; eauto. }
  destruct (worker_fold_imports (prefix g +:+ timestep_suffix t) false du (map (sigmap g) sig) [] g)
    as (vec' & g'' & Hfold' & Hall).
  rewrite Hfold in Hfold'. injection Hfold' as <- <-.
  pose proof (worker_fold_extends log_id (prefix g +:+ timestep_suffix t) false du
                (map (sigmap g) sig) [] g) as E.
  rewrite Hfold in E. destruct E as (_ & _ & Hp & _). simpl in Hp.
  destruct (sigmap g b) as [d|w o] eqn:Hcb; [done|].
  eapply (Forall2_lookup_lr _ _ _ i (BitWire w o) l) in Hall; [| |done].
  - destruct (Hall w o eq_refl) as [_ Hc]. split; [done|].
    eapply importedSigBit_hit; [done|]. by rewrite Hp.
  - by rewrite list_lookup_fmap, Hb; simpl; rewrite Hcb.
Qed.

(** ** Sessions reached by imports *)

Lemma worker_bit_agree pf um du vec g cb :
  (∃ b, sigmap g b = cb) →
  caches_agree log_id g ∧ canonical_keys g →
  caches_agree log_id (worker_bit pf um du (vec, g) cb).2 ∧
  canonical_keys (worker_bit pf um du (vec, g) cb).2.
Proof.
  intros Hcanon [Ha Hk]. destruct cb as [d|w o].
  - destruct (worker_bit_const_step pf um du vec g d) as (l & e & -> & He & _).
    cbn [snd]. split.
    + intros pf' bit l' Hc. rewrite cached_with_ez in Hc.
      destruct (Ha pf' bit l' Hc) as (w & o & id & -> & -> & Hid).
      exists w, o, id. split_and!; try done. simpl. by rewrite He.
    + intros pf' bit l' Hc. by apply (Hk pf' bit l').
  - rewrite worker_bit_wire_step. cbn [snd]. split.
    + intros pf' bit l' Hc.
      rewrite (cached_insert (with_ez g _) pf (BitWire w o) _ pf' bit) in Hc.
      destruct (decide _) as [[-> ->]|_].
      * injection Hc as <-.
        destruct (literal_named_bound (bit_name log_id pf w o) (ez g)) as (id & Hl & Hid).
        by exists w, o, id.
      * destruct (Ha pf' bit l' Hc) as (w' & o' & id & -> & -> & Hid).
        exists w', o', id. split_and!; try done. simpl. by apply literal_named_keeps.
    + intros pf' bit l' Hc.
      rewrite (cached_insert (with_ez g _) pf (BitWire w o) _ pf' bit) in Hc.
      destruct (decide _) as [[-> ->]|_]; [exact Hcanon|]. by apply (Hk pf' bit l').
Qed.

Lemma worker_fold_agree pf um du csig vec g :
  Forall (λ cb, ∃ b, sigmap g b = cb) csig →
  caches_agree log_id g ∧ canonical_keys g →
  caches_agree log_id (foldl (worker_bit pf um du) (vec, g) csig).2 ∧
  canonical_keys (foldl (worker_bit pf um du) (vec, g) csig).2.
Proof.
  revert vec g. induction csig as [|cb csig IH]; intros vec g Hc HI; cbn [foldl]; [done|].
  apply Forall_cons in Hc as [Hcb Hc].
  pose proof (worker_bit_agree pf um du vec g cb Hcb HI) as H1.
  pose proof (worker_bit_extends log_id pf um du vec g cb) as (_ & Hs & _).
  destruct (worker_bit pf um du (vec, g) cb) as [vec' g']. simpl in *.
  apply IH; [|done]. rewrite Hs. done.
Qed.

Lemma worker_agree g sig pf um du r :
  worker g sig pf um du = Some r →
  caches_agree log_id g ∧ canonical_keys g →
  caches_agree log_id r.2 ∧ canonical_keys r.2.
Proof.
  unfold importSigSpecWorker. destruct (um && negb (model_undef g)); [done|].
  intros [= <-]. apply worker_fold_agree.
  apply Forall_forall. intros cb Hcb. apply list_elem_of_fmap in Hcb as (b & -> & _). by exists b.
Qed.

Lemma run_call_agree g c g' :
  run_call log_id g c = Some g' →
  caches_agree log_id g ∧ canonical_keys g →
  caches_agree log_id g' ∧ canonical_keys g'.
Proof.
  destruct c as [sig t|sig t|sig t|i bit t|bit t]; simpl; intros H;
    apply fmap_Some in H as (r & Hr & ->).
  - unfold importSigSpec in Hr. destruct (decide _); [done|]. by eapply worker_agree.
  - unfold importDefSigSpec in Hr. destruct (decide _); [done|]. by eapply worker_agree.
  - unfold importUndefSigSpec in Hr. destruct (decide _); [done|]. by eapply worker_agree.
  - rewrite import_bit_unfold in Hr. destruct (decide _); [done|].
    apply bind_Some in Hr as (r0 & Hw & Hf). apply front_snd in Hf as ->.
    by eapply worker_agree.
  - unfold importedSigBit in Hr. destruct (decide _); [done|].
    pose proof (λ pf', cached_subscript g (prefix g +:+ timestep_suffix t) pf') as Hsub.
    destruct (subscript _ _ _) as [inner outer]. injection Hr as <-. simpl in *.
    intros [Ha Hk]. split.
    + intros pf' b l Hc. unfold cached in Hc. simpl in Hc. rewrite Hsub in Hc. by apply Ha.
    + intros pf' b l Hc. unfold cached in Hc. simpl in Hc. rewrite Hsub in Hc.
      by apply (Hk pf' b l).
Qed.

Lemma run_calls_agree cs g g' :
  run_calls log_id cs g = Some g' →
  caches_agree log_id g ∧ canonical_keys g →
  caches_agree log_id g' ∧ canonical_keys g'.
Proof.
  revert g. induction cs as [|c cs IH]; intros g; simpl.
  - by intros [= <-].
  - intros H HI. apply bind_Some in H as (g1 & H1 & H2).
    eapply IH; [done|]. by eapply run_call_agree.
Qed.

Lemma empty_cache_agree g :
  imported_signals g = ∅ → caches_agree log_id g ∧ canonical_keys g.
Proof.
  intros He. split; intros pf bit l Hc; unfold cached in Hc; by rewrite He, lookup_empty in Hc.
Qed.

(** X3. In a session that started with an empty cache of imported signals
    and has only served imports and import queries, the two caches agree:
    only wire bits are cached, each cached bit is canonical, and the
    literal cached for a bit under a scope prefix is the oracle's named
    literal for the name the bit has under that prefix. *)
Theorem session_caches_agree (g g' : SatGen) (calls : list call) :
  imported_signals g = ∅ →
  run_calls log_id calls g = Some g' →
  ∀ pf bit l, cached g' pf bit = Some l →
    (∃ b, sigmap g' b = bit) ∧
    ∃ w o id, bit = BitWire w o ∧ l = Var id ∧
              literalsCache (ez g') !! bit_name log_id pf w o = Some id.
Proof.
  intros He Hrun pf bit l Hc.
  destruct (run_calls_agree calls g g' Hrun (empty_cache_agree g He)) as [Ha Hk].
  split; [by apply (Hk pf bit l)|by apply Ha].
Qed.

(** X4. The query does not canonicalize its argument: in such a session
    [importedSigBit] answers no for every bit that is not a value of the
    canonicalizer, whatever has been imported. *)
Theorem importedSigBit_needs_canonical (g g' : SatGen) (calls : list call)
    (bit : SigBit) (t : Z) :
  imported_signals g = ∅ →
  run_calls log_id calls g = Some g' →
  (∀ b, sigmap g' b ≠ bit) →
  t ≠ 0%Z →
  ∃ g'', importedSigBit g' bit t = Some (false, g'').
Proof.
  intros He Hrun Hnc Ht.
  destruct (run_calls_agree calls g g' Hrun (empty_cache_agree g He)) as [_ Hk].
  unfold importedSigBit. rewrite decide_False by done.
  pose proof (subscript_fst_lookup g' (prefix g' +:+ timestep_suffix t) bit) as Hfst.
  destruct (subscript _ _ _) as [inner outer]. simpl in Hfst.
  eexists. f_equal. f_equal. apply bool_decide_eq_false_2.
  intros [l Hl]. rewrite Hfst in Hl.
  destruct (Hk _ _ _ Hl) as [b Hb]. by apply (Hnc b).
Qed.

(** X5. Constants cost nothing: importing a signal whose bits all
    canonicalize to constants returns constant literals, true exactly for
    the bits that are 1 (value namespace) or X (undef namespace), and
    leaves the whole session as it was. *)
Theorem import_constants (g : SatGen) (sig : SigSpec) (t : Z) :
  Forall (λ b, is_wire_bit (sigmap g b) = false) sig →
  t ≠ 0%Z →
  importSigSpec log_id g sig t
    = Some (map (λ b, if decide (sigmap g b = BitConst S1) then CONST_TRUE else CONST_FALSE) sig, g) ∧
  (model_undef g = true →
   importUndefSigSpec log_id g sig t
     = Some (map (λ b, if decide (sigmap g b = BitConst Sx) then CONST_TRUE else CONST_FALSE) sig, g)).
Proof.
  intros Hconst Ht.
  assert (Hfold : ∀ pf um vec0,
    foldl (worker_bit pf um false) (vec0, g) (map (sigmap g) sig)
    = (vec0 ++ map (λ b, if decide (sigmap g b = BitConst (if um then Sx else S1))
                         then CONST_TRUE else CONST_FALSE) sig, g)).
  { intros pf um. induction Hconst as [|b sig Hb _ IH]; intros vec0; cbn [map foldl].
    - by rewrite app_nil_r.
    - destruct (sigmap g b) as [d|w o] eqn:Hcb; [|done].
      assert (worker_bit pf um false (vec0, g) (BitConst d)
              = (vec0 ++ [if decide (BitConst d = BitConst (if um then Sx else S1))
                          then CONST_TRUE else CONST_FALSE], g)) as ->.
      { unfold importSigSpecWorker_bit. rewrite andb_false_r. do 3 f_equal.
        destruct um, d; by compute. }
      by rewrite IH, <- app_assoc. }
  unfold importSigSpec, importUndefSigSpec, importSigSpecWorker.
  rewrite !decide_False by done. split.
  - simpl. by rewrite (Hfold _ false []).
  - intros ->. simpl. by rewrite (Hfold _ true []).
Qed.

(** ** Switching contexts *)

Lemma import_bit_again i1 i2 g g1 g2 bit t l :
  undef_namespace i1 = undef_namespace i2 →
  duplicated_x g i1 bit = false → duplicated_x g i2 bit = false →
  import_bit log_id i1 g bit t = Some (l, g1) →
  model_undef g2 = model_undef g → sigmap g2 = sigmap g → prefix g2 = prefix g →
  (∀ n id, literalsCache (ez g1) !! n = Some id → literalsCache (ez g2) !! n = Some id) →
  ∃ g3, import_bit log_id i2 g2 bit t = Some (l, g3).
Proof.
  intros Hns Hd1 Hd2 H1 Hm Hs Hp Hkeep.
  rewrite import_bit_unfold in H1. rewrite import_bit_unfold.
  destruct (decide (t = 0%Z)); [done|].
  rewrite worker_single in H1. rewrite worker_single.
  rewrite Hm, Hs, <- Hns.
  assert (scope_pf i2 g2 t = scope_pf i1 g t) as ->.
  { unfold scope_pf. by rewrite <- Hns, Hp. }
  destruct (undef_namespace i1 && negb (model_undef g)); [done|].
  unfold duplicated_x in Hd1, Hd2.
  destruct (sigmap g bit) as [d|w o] eqn:Hbit.
  - rewrite worker_bit_const in H1 by done.
    rewrite worker_bit_const by (by rewrite Hm).
    injection H1 as <- <-. by eexists.
  - destruct (worker_bit_wire log_id (scope_pf i1 g t) (undef_namespace i1) (is_def_import i1) g w o)
      as (id & g' & Hw & Hc).
    rewrite Hw in H1. injection H1 as <- <-.
    apply Hkeep in Hc.
    destruct (worker_bit_wire_hit log_id (scope_pf i1 g t) (undef_namespace i1)
                (is_def_import i2) g2 w o id Hc) as (g3 & ->).
    by eexists.
Qed.

(** X6. Literals survive a change of context: after an import under one
    context, [setContext] to any other canonicalizer and prefix, any
    imports and queries there, and [setContext] back, importing the same
    bit at the same timestep through the same entry point returns the same
    literal (X constants under a definition import apart). *)
Theorem import_stable_across_contexts (g g1 g2 : SatGen) (i : importer) (bit : SigBit) (t : Z)
    (l : lit) (sm : SigBit → SigBit) (pfx : string) (calls : list call) :
  duplicated_x g i bit = false →
  import_bit log_id i g bit t = Some (l, g1) →
  run_calls log_id calls (setContext g1 sm pfx) = Some g2 →
  ∃ g3, import_bit log_id i (setContext g2 (sigmap g) (prefix g)) bit t = Some (l, g3).
Proof.
  intros Hd H1 Hrun.
  pose proof (import_bit_extends _ _ _ _ _ _ H1) as (Hm1 & _ & _ & Hc1). simpl in Hm1, Hc1.
  pose proof (run_calls_extends _ _ _ _ Hrun) as (Hm2 & _ & _ & Hc2). simpl in Hm2, Hc2.
  eapply (import_bit_again i i g g1); try done; simpl; (congruence || auto).
Qed.

(** ** The initial-state record *)

(** X7. [setInitState] fails exactly when the key (prefix, timestep) is
    recorded as false; otherwise it records true for the key, keeps every
    other entry, never turns a true entry false, and doing it again
    changes nothing. *)
Theorem setInitState_spec (g : SatGen) (t : Z) :
  (setInitState g t = None ↔ initstates g !! (prefix g, t) = Some false) ∧
  ∀ g', setInitState g t = Some g' →
    initstates g' !! (prefix g, t) = Some true ∧
    (∀ k, k ≠ (prefix g, t) → initstates g' !! k = initstates g !! k) ∧
    (∀ k, initstates g !! k = Some true → initstates g' !! k = Some true) ∧
    setInitState g' t = Some g'.
Proof.
  unfold setInitState. split.
  - destruct (initstates g !! (prefix g, t)) as [[]|] eqn:Hk; simpl; split; done.
  - intros g'.
    destruct (bool_decide (initstates g !! (prefix g, t) = None)
              || bool_decide (initstates g !! (prefix g, t) = Some true)); [|done].
    intros [= <-]. simpl. split_and!.
    + by rewrite lookup_insert_eq.
    + intros k Hk. by rewrite lookup_insert_ne.
    + intros k Hk. destruct (decide (k = (prefix g, t))) as [->|Hne].
      * by rewrite lookup_insert_eq.
      * by rewrite lookup_insert_ne.
    + rewrite lookup_insert_eq. rewrite (bool_decide_eq_true_2 (Some true = Some true)) by done.
      rewrite orb_true_r. unfold with_initstates. simpl. by rewrite insert_insert_eq.
Qed.

(** ** Multiplexer and gating *)

(** X8. [mux] fails exactly on operands of mismatched length: with undef
    modeling off only the two value vectors count, the undef vectors are
    ignored and the undef result is empty; with undef modeling on all four
    vectors must have one length. *)
Theorem mux_lengths (g : SatGen) (s undef_s : lit) (a undef_a b undef_b : list lit) :
  (model_undef g = false →
     (mux g s undef_s a undef_a b undef_b = None ↔ length b ≠ length a) ∧
     (length b = length a →
      mux g s undef_s a undef_a b undef_b = Some (zip_with (ITE s) b a, []))) ∧
  (model_undef g = true →
     (mux g s undef_s a undef_a b undef_b = None ↔
      ¬ (length undef_a = length a ∧ length b = length a ∧ length undef_b = length a))).
Proof.
  unfold mux, vec_ite, vec_iff, vec_or, vec_not, vec_zip. split; intros ->.
  - split.
    + destruct (decide (length b = length a)); simpl; split; done.
    + intros Hlen. by rewrite decide_True.
  - repeat (match goal with
            | |- context [decide (?x = ?y)] =>
                destruct (decide (x = y)); simpl; rewrite ?length_map, ?length_zip_with in *
            end);
      split; intros; first [done | lia | (exfalso; lia)].
Qed.

(** X9. On one-bit vectors the vector form of undef gating constrains the
    oracle exactly like the scalar overload (which, unlike the vector
    form, does not require undef modeling to be on). *)
Theorem undefGating_scalar_agrees (g : SatGen) (y yy undef : lit) :
  model_undef g = true →
  ∃ g', undefGating g [y] [yy] [undef] = Some g' ∧
        ∀ rho, models rho (ez g') = models rho (ez (undefGating_scalar g y yy undef)).
Proof.
  intros Hm. unfold undefGating. rewrite Hm. simpl.
  eexists. split; [reflexivity|]. intros rho. simpl.
  unfold models. simpl. unfold id. by rewrite !andb_true_r.
Qed.

(** ** Width normalization *)

Lemma extend_noop s n vec : (n ≤ length vec)%nat → extend s n vec = vec.
Proof.
  intros H. rewrite extend_pads. replace (n - length vec)%nat with 0%nat by lia.
  simpl. apply app_nil_r.
Qed.

Lemma extendSignalWidth_same_length (vec_a vec_b : list lit) (cell : Cell) (y_width : nat)
    (forced_signed : bool) :
  length (extendSignalWidth vec_a vec_b cell y_width forced_signed).1
    = length (extendSignalWidth vec_a vec_b cell y_width forced_signed).2.
Proof.
  unfold extendSignalWidth. cbn [fst snd]. rewrite !extend_length. lia.
Qed.

(** X10. The binary normalizer returns two vectors of one length, is the
    identity on operands that already have one length of at least
    [y_width], and normalizing its result again changes nothing. *)
Theorem extendSignalWidth_idempotent (vec_a vec_b : list lit) (cell : Cell) (y_width : nat)
    (forced_signed : bool) :
  length (extendSignalWidth vec_a vec_b cell y_width forced_signed).1
    = length (extendSignalWidth vec_a vec_b cell y_width forced_signed).2 ∧
  extendSignalWidth (extendSignalWidth vec_a vec_b cell y_width forced_signed).1
                    (extendSignalWidth vec_a vec_b cell y_width forced_signed).2
                    cell y_width forced_signed
    = extendSignalWidth vec_a vec_b cell y_width forced_signed ∧
  (length vec_a = length vec_b → (y_width ≤ length vec_a)%nat →
   extendSignalWidth vec_a vec_b cell y_width forced_signed = (vec_a, vec_b)).
Proof.
  unfold extendSignalWidth. cbn [fst snd].
  set (s := if negb forced_signed && _ && _ then _ else _).
  set (a' := extend s (length vec_b `max` y_width) vec_a).
  set (b' := extend s (length a' `max` y_width) vec_b).
  assert (length a' = (length vec_a `max` (length vec_b `max` y_width))%nat) as La
    by apply extend_length.
  assert (length b' = (length vec_b `max` (length a' `max` y_width))%nat) as Lb
    by apply extend_length.
  assert (length vec_a = length vec_b → (y_width ≤ length vec_a)%nat → (a', b') = (vec_a, vec_b))
    as Hsame.
  { intros Hab Hy. subst a' b'.
    rewrite (extend_noop s _ vec_a) by lia. by rewrite (extend_noop s _ vec_b) by lia. }
  clearbody a' b'. split_and!.
  - lia.
  - rewrite (extend_noop s _ a') by lia. by rewrite (extend_noop s _ b') by lia.
  - done.
Qed.

Lemma fresh_while_spec fuel n vec e :
  (n - length vec ≤ fuel)%nat →
  ∃ e', fresh_while fuel n (vec, e)
          = (vec ++ map Var (seq (S (length (literals e))) (n - length vec)), e') ∧
        literals e' = literals e ++ replicate (n - length vec) "" ∧
        literalsCache e' = literalsCache e ∧ assumed e' = assumed e.
Proof.
  revert vec e. induction fuel as [|fuel IH]; intros vec e Hfuel; cbn [fresh_while fst snd].
  - replace (n - length vec)%nat with 0%nat by lia. simpl. exists e.
    by rewrite !app_nil_r.
  - destruct (decide (length vec < n)%nat) as [Hlt|Hge].
    + unfold literal. cbn [fst snd].
      destruct (IH (vec ++ [Var (S (length (literals e)))])
                   (mkSolver (literals e ++ [""]) (literalsCache e) (assumed e)))
        as (e' & -> & Hl & Hc & Ha).
      { rewrite length_app. simpl. lia. }
      exists e'. simpl in Hl, Hc, Ha. rewrite length_app in *. simpl in *.
      replace (n - length vec)%nat with (S (n - (length vec + 1)))%nat by lia.
      split_and!; try done.
      * simpl. rewrite <- app_assoc. simpl. rewrite length_app. simpl.
        by rewrite Nat.add_1_r.
      * rewrite Hl, <- app_assoc. done.
    + replace (n - length vec)%nat with 0%nat by lia. simpl. exists e.
      by rewrite !app_nil_r.
Qed.

(** X11. With an output vector, the binary and the unary normalizer leave
    all their vectors with one length, the largest of the lengths given.
    The output vector keeps its literals and is filled up with fresh
    anonymous literals, numbered from the first unused variable; named
    literals and assumptions of the oracle are untouched. *)
Theorem extendSignalWidth_output (g : SatGen) (vec_a vec_b vec_y : list lit) (cell : Cell)
    (forced_signed : bool) :
  (let '(a', b', y', g') := extendSignalWidth_y g vec_a vec_b vec_y cell forced_signed in
   let n := ((length vec_a `max` length vec_b) `max` length vec_y)%nat in
   length a' = n ∧ length b' = n ∧ length y' = n ∧
   (a', b') = extendSignalWidth vec_a vec_b cell (length vec_y) forced_signed ∧
   y' = vec_y ++ map Var (seq (S (length (literals (ez g)))) (n - length vec_y)) ∧
   literalsCache (ez g') = literalsCache (ez g) ∧ assumed (ez g') = assumed (ez g) ∧
   g' = with_ez g (ez g')) ∧
  (let '(a', y', g') := extendSignalWidthUnary g vec_a vec_y cell forced_signed in
   let n := (length vec_a `max` length vec_y)%nat in
   length a' = n ∧ length y' = n ∧
   y' = vec_y ++ map Var (seq (S (length (literals (ez g)))) (n - length vec_y)) ∧
   literalsCache (ez g') = literalsCache (ez g) ∧ assumed (ez g') = assumed (ez g) ∧
   g' = with_ez g (ez g')).
Proof.
  split.
  - unfold extendSignalWidth_y.
    pose proof (extendSignalWidth_same_length vec_a vec_b cell (length vec_y) forced_signed)
      as Hab.
    destruct (extendSignalWidth vec_a vec_b cell (length vec_y) forced_signed) as [a' b'] eqn:He.
    assert (length a' = ((length vec_a `max` length vec_b) `max` length vec_y)%nat) as La.
    { unfold extendSignalWidth in He. injection He as <- _. rewrite extend_length. lia. }
    simpl in Hab.
    destruct (fresh_while_spec (length a') (length a') vec_y (ez g)) as (e' & Hf & Hl & Hc & Ha);
      [lia|].
    rewrite Hf. cbv zeta. rewrite length_app, length_map, length_seq, <- Hab, La.
    split_and!; try done. lia.
  - unfold extendSignalWidthUnary.
    set (s := forced_signed || _).
    pose proof (extend_length s (length vec_y) vec_a) as La.
    destruct (fresh_while_spec (length (extend s (length vec_y) vec_a))
                (length (extend s (length vec_y) vec_a)) vec_y (ez g))
      as (e' & Hf & Hl & Hc & Ha); [lia|].
    rewrite Hf. cbv zeta. rewrite length_app, length_map, length_seq, La.
    split_and!; try done. lia.
Qed.

(** ** Property cells *)

Lemma importPropertyCell_total g cell t a en :
  type cell ∈ ["$assert"; "$assume"; "$cover"] →
  getPort cell ID_A = Some [a] → getPort cell ID_EN = Some [en] → t ≠ 0%Z →
  is_Some (importPropertyCell log_id g cell t).
Proof.
  intros Hty Ha Hen Ht.
  destruct (importDefSigSpec_bit log_id g (sigmap g a) t Ht) as (c0 & ga & Hc & Ea).
  destruct (importDefSigSpec_bit log_id ga (sigmap g en) t Ht) as (e0 & gb & He & Eb).
  pose proof (extends_trans _ _ _ Ea Eb) as (Hm & _).
  unfold importPropertyCell. rewrite bool_decide_eq_true_2 by done. simpl.
  rewrite Ha, Hen. simpl. rewrite Hc. simpl. rewrite He. simpl.
  destruct (model_undef gb) eqn:Hon.
  - destruct (importUndefSigSpec_bit log_id gb (sigmap g a) t Ht Hon) as (uc & gc & Hu & Ec).
    destruct (importUndefSigSpec_bit log_id gc (sigmap g en) t Ht) as (ue & gd & Hv & Ed).
    { destruct Ec as (-> & _). done. }
    rewrite Hu. simpl. rewrite Hv. simpl. by case_bool_decide.
  - simpl. by case_bool_decide.
Qed.

(** X12. [importPropertyCell] fails exactly on a contract violation: a
    cell that is not an assert, assume or cover (a [$live] or [$fair]
    cell, say), a missing check or enable port, a check or enable that is
    not one bit wide, or timestep 0. *)
Theorem importPropertyCell_fails (g : SatGen) (cell : Cell) (t : Z) :
  importPropertyCell log_id g cell t = None ↔
  type cell ∉ ["$assert"; "$assume"; "$cover"] ∨
  (∀ sig, getPort cell ID_A = Some sig → length sig ≠ 1%nat) ∨
  (∀ sig, getPort cell ID_EN = Some sig → length sig ≠ 1%nat) ∨
  t = 0%Z.
Proof.
  split.
  - intros Hnone.
    destruct (decide (type cell ∈ ["$assert"; "$assume"; "$cover"])) as [Hty|Hty]; [|by left].
    assert (Hport : ∀ p, (∃ x, getPort cell p = Some [x]) ∨
                         (∀ sig, getPort cell p = Some sig → length sig ≠ 1%nat)).
    { intros p. destruct (getPort cell p) as [[|x [|x' sx]]|].
      - right. intros sig [= <-]. simpl. lia.
      - left. by exists x.
      - right. intros sig [= <-]. simpl. lia.
      - right. by intros sig. }
    destruct (Hport ID_A) as [[a Ha]|Ha]; [|by right; left].
    destruct (Hport ID_EN) as [[en Hen]|Hen]; [|by right; right; left].
    destruct (decide (t = 0%Z)) as [->|Ht]; [by repeat right|].
    destruct (importPropertyCell_total g cell t a en Hty Ha Hen Ht) as [r Hr]. congruence.
  - unfold importPropertyCell. intros [Hty|[Ha|[Hen| ->]]].
    + by rewrite bool_decide_eq_false_2.
    + destruct (bool_decide _); simpl; [|done].
      destruct (getPort cell ID_A) as [sa|]; simpl; [|done].
      destruct (getPort cell ID_EN) as [se|]; simpl; [|done].
      rewrite length_map. rewrite (bool_decide_eq_false_2 (length sa = 1%nat)); [done|].
      by apply Ha.
    + destruct (bool_decide _); simpl; [|done].
      destruct (getPort cell ID_A) as [sa|]; simpl; [|done].
      destruct (getPort cell ID_EN) as [se|]; simpl; [|done].
      rewrite !length_map. destruct (bool_decide (length sa = 1%nat)); simpl; [|done].
      rewrite (bool_decide_eq_false_2 (length se = 1%nat)); [done|]. by apply Hen.
    + destruct (bool_decide _); simpl; [|done].
      destruct (getPort cell ID_A) as [sa|]; simpl; [|done].
      destruct (getPort cell ID_EN) as [se|]; simpl; [|done].
      destruct (negb _); [done|]. by destruct (negb _).
Qed.

(** ** More on equality *)

(** X13. [signals_eq] fails exactly when the operands differ in length or
    a timestep is 0 (the right one after a negative [timestep_rhs] has
    been replaced by the left one). With undef modeling off, the formula
    it returns holds exactly when the value literals of the two operands
    agree at every position. *)
Theorem signals_eq_plain (g : SatGen) (lhs rhs : SigSpec) (t1 t2 : Z) :
  (signals_eq log_id g lhs rhs t1 t2 = None ↔
     length lhs ≠ length rhs ∨ t1 = 0%Z ∨ rhs_timestep t1 t2 = 0%Z) ∧
  (model_undef g = false →
   ∀ f g', signals_eq log_id g lhs rhs t1 t2 = Some (f, g') →
     ∃ va vb, vec_at log_id g' false t1 lhs va ∧
              vec_at log_id g' false (rhs_timestep t1 t2) rhs vb ∧
              ∀ rho, eval rho f = true ↔
                     ∀ i vai vbi, va !! i = Some vai → vb !! i = Some vbi →
                                  eval rho vai = eval rho vbi).
Proof.
  assert (Hfail : signals_eq log_id g lhs rhs t1 t2 = None ↔
                  length lhs ≠ length rhs ∨ t1 = 0%Z ∨ rhs_timestep t1 t2 = 0%Z).
  { split.
    - intros Hnone.
      destruct (decide (length lhs = length rhs)) as [Hlen|]; [|by left].
      destruct (decide (t1 = 0%Z)) as [|Ht1]; [by right; left|].
      destruct (decide (rhs_timestep t1 t2 = 0%Z)) as [|Ht2]; [by right; right|].
      destruct (signals_eq_result log_id g lhs rhs t1 t2 Hlen Ht1 Ht2)
        as (f & g' & va & vb & H & _). congruence.
    - unfold signals_eq.
      change (if decide (t2 < 0)%Z then t1 else t2) with (rhs_timestep t1 t2).
      intros [Hlen|[ -> |Ht2]].
      + by rewrite bool_decide_eq_false_2.
      + by destruct (negb _).
      + rewrite Ht2. destruct (negb _); [done|].
        by destruct (importSigSpec log_id g lhs t1) as [[vl g1]|]. }
  split; [exact Hfail|].
  intros Hoff f g' Heq.
  assert (length lhs = length rhs ∧ t1 ≠ 0%Z ∧ rhs_timestep t1 t2 ≠ 0%Z) as (Hlen & Ht1 & Ht2).
  { assert (¬ (length lhs ≠ length rhs ∨ t1 = 0%Z ∨ rhs_timestep t1 t2 = 0%Z)) as Hok.
    { intros Hbad. apply Hfail in Hbad. congruence. }
    destruct (decide (length lhs = length rhs)); tauto. }
  destruct (signals_eq_result log_id g lhs rhs t1 t2 Hlen Ht1 Ht2)
    as (f0 & g0 & va & vb & H & _ & Hva & Hvb & Hplain & _).
  rewrite Heq in H. injection H as <- <-. exists va, vb. auto.
Qed.

(** X14. Equality is reflexive as built: comparing a signal with itself
    at one timestep gives a formula that holds under every assignment,
    with or without undef modeling, because both sides import the same
    literals. *)
Theorem signals_eq_reflexive (g : SatGen) (sig : SigSpec) (t t2 : Z) :
  t ≠ 0%Z → rhs_timestep t t2 = t →
  ∃ f g', signals_eq log_id g sig sig t t2 = Some (f, g') ∧ ∀ rho, eval rho f = true.
Proof.
  intros Ht Hr.
  destruct (signals_eq_result log_id g sig sig t t2 eq_refl Ht)
    as (f & g' & va & vb & H & _ & Hva & Hvb & Hoff & Hon); [by rewrite Hr|].
  rewrite Hr in *.
  assert (vb = va) as -> by eauto using vec_at_functional.
  exists f, g'. split; [done|]. intros rho.
  destruct (model_undef g) eqn:Hm.
  - destruct (Hon eq_refl) as (ua & ub & Hua & Hub & Hf).
    assert (ub = ua) as -> by eauto using vec_at_functional.
    apply Hf. intros i vai uai vbi ubi H1 H2 H3 H4.
    replace vbi with vai by congruence. replace ubi with uai by congruence.
    unfold undef_eq. by destruct (eval rho vai), (eval rho uai).
  - apply (Hoff eq_refl). intros i vai vbi H1 H2. congruence.
Qed.

End SessionMore.

(** ** Concrete instances *)

Lemma some_pair_default {A B} (o : option (A * B)) (d : A * B) :
  (λ _, tt) <$> o = Some tt → o = Some ((default d o).1, (default d o).2).
Proof. by destruct o as [[a b]|]. Qed.

Lemma import_then_imported_witness :
  cached (default ([], undef_session) demo_import).2
         (prefix undef_session +:+ timestep_suffix 3)
         (sigmap undef_session (BitWire wire_a 2)) = Some (Var 3) ∧
  importedSigBit (default ([], undef_session) demo_import).2
                 (sigmap undef_session (BitWire wire_a 2)) 3
    = Some (true, (default ([], undef_session) demo_import).2).
Proof.
  apply (import_then_imported id undef_session (default ([], undef_session) demo_import).2
           (bits_of wire_a) 3 (default ([], undef_session) demo_import).1
           2 (BitWire wire_a 2) (Var 3)).
  - left. apply some_pair_default. vm_compute. reflexivity.
  - reflexivity.
  - vm_compute. reflexivity.
  - reflexivity.
Defined.

Lemma session_caches_agree_witness :
  (∃ b, sigmap (default undef_session (run_calls id demo_calls undef_session)) b
        = BitWire wire_b 0) ∧
  ∃ w o n, BitWire wire_b 0 = BitWire w o ∧
    default CONST_FALSE
      (cached (default undef_session (run_calls id demo_calls undef_session))
         (prefix undef_session +:+ timestep_suffix 3) (BitWire wire_b 0)) = Var n ∧
    literalsCache (ez (default undef_session (run_calls id demo_calls undef_session)))
      !! bit_name id (prefix undef_session +:+ timestep_suffix 3) w o = Some n.
Proof.
  assert (run_calls id demo_calls undef_session
          = Some (default undef_session (run_calls id demo_calls undef_session))) as Hrun.
  { apply some_of_default. vm_compute. reflexivity. }
  apply (session_caches_agree id undef_session
           (default undef_session (run_calls id demo_calls undef_session)) demo_calls
           eq_refl Hrun (prefix undef_session +:+ timestep_suffix 3) (BitWire wire_b 0)).
  apply some_of_default. vm_compute. reflexivity.
Defined.

Lemma importedSigBit_needs_canonical_witness :
  ∃ g'', importedSigBit (default alias_session (run_calls id alias_calls alias_session))
                        (BitWire wire_c 0) 3 = Some (false, g'').
Proof.
  apply (importedSigBit_needs_canonical id alias_session
           (default alias_session (run_calls id alias_calls alias_session)) alias_calls
           (BitWire wire_c 0) 3).
  - reflexivity.
  - apply some_of_default. vm_compute. reflexivity.
  - intros b. change (alias_map b ≠ BitWire wire_c 0). unfold alias_map.
    destruct (decide (b = BitWire wire_c 0)); [discriminate|done].
  - discriminate.
Defined.

Lemma import_constants_witness :
  importSigSpec id undef_session [BitConst S1; BitConst Sx; BitConst S0; BitConst Sz] 1
    = Some (map (λ b, if decide (sigmap undef_session b = BitConst S1)
                      then CONST_TRUE else CONST_FALSE)
                [BitConst S1; BitConst Sx; BitConst S0; BitConst Sz], undef_session) ∧
  (model_undef undef_session = true →
   importUndefSigSpec id undef_session [BitConst S1; BitConst Sx; BitConst S0; BitConst Sz] 1
     = Some (map (λ b, if decide (sigmap undef_session b = BitConst Sx)
                       then CONST_TRUE else CONST_FALSE)
                 [BitConst S1; BitConst Sx; BitConst S0; BitConst Sz], undef_session)).
Proof.
  apply (import_constants id undef_session [BitConst S1; BitConst Sx; BitConst S0; BitConst Sz] 1).
  - repeat constructor.
  - discriminate.
Defined.

Lemma import_stable_across_contexts_witness :
  ∃ g3, import_bit id ViaSigSpec
          (setContext (default undef_session ctx_mid) (sigmap undef_session) (prefix undef_session))
          (BitWire wire_a 2) 3 = Some (Var 1, g3).
Proof.
  apply (import_stable_across_contexts id undef_session
           (default (CONST_FALSE, undef_session) ctx_first).2 (default undef_session ctx_mid)
           ViaSigSpec (BitWire wire_a 2) 3 (Var 1) alias_map "other." demo_calls).
  - reflexivity.
  - apply some_of_fst. vm_compute. reflexivity.
  - apply some_of_default. vm_compute. reflexivity.
Defined.

Lemma undefGating_scalar_agrees_witness :
  ∃ g', undefGating undef_session [Var 1] [Var 2] [Var 3] = Some g' ∧
        ∀ rho, models rho (ez g')
               = models rho (ez (undefGating_scalar undef_session (Var 1) (Var 2) (Var 3))).
Proof. apply (undefGating_scalar_agrees undef_session (Var 1) (Var 2) (Var 3)). reflexivity. Defined.

Lemma signals_eq_reflexive_witness :
  ∃ f g', signals_eq id undef_session (bits_of wire_a) (bits_of wire_a) 2 (-1) = Some (f, g') ∧
          ∀ rho, eval rho f = true.
Proof.
  apply (signals_eq_reflexive id undef_session (bits_of wire_a) 2 (-1)).
  - discriminate.
  - reflexivity.
Defined.

(* ===================================================================== *)
(** * The literal of a bit is stable across imports                       *)
(* ===================================================================== *)

Section Stability.
Variable log_id : IdString -> string.

Local Abbreviation worker := (importSigSpecWorker log_id).
Local Abbreviation worker_bit := (importSigSpecWorker_bit log_id).

Lemma literal_named_length name e :
  (length (literals e) ≤ length (literals (literal_named name e).2))%nat.
Proof.
  unfold literal_named. destruct (literalsCache e !! name); simpl; [done|].
  rewrite length_app. simpl. lia.
Qed.

(** One round of the import loop: the literal added for the bit, and how
    the oracle grows. *)
Lemma worker_bit_at pf um du vec g cb :
  ∃ l g1,
    worker_bit pf um du (vec, g) cb = (vec ++ [l], g1) ∧
    extends g g1 ∧
    (length (literals (ez g)) ≤ length (literals (ez g1)))%nat ∧
    match cb with
    | BitWire w o =>
        ∃ id, l = Var id ∧ literalsCache (ez g1) !! bit_name log_id pf w o = Some id
    | BitConst d =>
        if model_undef g && du && State_eqb d Sx
        then ∃ n, l = Var n ∧ (length (literals (ez g)) < n ≤ length (literals (ez g1)))%nat
        else l = const_literal um d
    end.
Proof.
  pose proof (worker_bit_extends log_id pf um du vec g cb) as Hext.
  destruct cb as [d|w o].
  - unfold importSigSpecWorker_bit in *.
    destruct (model_undef g && du && State_eqb d Sx); simpl in *.
    + eexists _, _. split; [reflexivity|]. split; [exact Hext|]. simpl.
      rewrite length_app. simpl. split; [lia|]. eexists. split; [reflexivity|]. lia.
    + eexists _, _. split; [reflexivity|]. split; [exact Hext|]. split; [lia|done].
  - rewrite worker_bit_wire_step in *. simpl in Hext.
    eexists _, _. split; [reflexivity|]. split; [exact Hext|]. simpl.
    split; [apply literal_named_length|].
    destruct (literal_named_bound (bit_name log_id pf w o) (ez g)) as (id & Hl & Hc).
    exists id. by rewrite Hl.
Qed.

(** The loop over a vector, position by position: a wire bit gets the
    oracle's literal for its name, a constant its constant literal, and an
    X constant under a definition import with undef modeling a variable
    that the oracle did not have before the loop. *)
Lemma worker_fold_at pf um du csig vec0 g :
  ∃ vec g',
    foldl (worker_bit pf um du) (vec0, g) csig = (vec0 ++ vec, g') ∧
    extends g g' ∧
    (length (literals (ez g)) ≤ length (literals (ez g')))%nat ∧
    Forall2 (λ cb l,
               match cb with
               | BitWire w o =>
                   ∃ id, l = Var id ∧ literalsCache (ez g') !! bit_name log_id pf w o = Some id
               | BitConst d =>
                   if model_undef g && du && State_eqb d Sx
                   then ∃ n, l = Var n ∧
                             (length (literals (ez g)) < n ≤ length (literals (ez g')))%nat
                   else l = const_literal um d
               end) csig vec.
Proof.
  revert vec0 g. induction csig as [|cb csig IH]; intros vec0 g; cbn [foldl].
  - exists [], g. rewrite app_nil_r. split; [done|]. split; [apply extends_refl|].
    split; [done|constructor].
  - destruct (worker_bit_at pf um du vec0 g cb) as (l & g1 & -> & E1 & L1 & Hl).
    destruct (IH (vec0 ++ [l]) g1) as (vec & g' & -> & E2 & L2 & Hall).
    exists (l :: vec), g'. rewrite <- app_assoc. split; [done|].
    split; [by eapply extends_trans|]. split; [lia|].
    assert (model_undef g1 = model_undef g) as Hm by apply E1.
    constructor.
    + destruct cb as [d|w o].
      * destruct (model_undef g && du && State_eqb d Sx); [|done].
        destruct Hl as (n & -> & Hn). exists n. split; [done|lia].
      * destruct Hl as (id & -> & Hc). exists id. split; [done|]. by apply E2.
    + eapply Forall2_impl; [exact Hall|]. intros [d|w o] l'; [|done]. simpl.
      rewrite Hm. destruct (model_undef g && du && State_eqb d Sx); [|done].
      intros (n & -> & Hn). exists n. split; [done|lia].
Qed.

Lemma worker_literals g sig pf um du r :
  worker g sig pf um du = Some r →
  (length (literals (ez g)) ≤ length (literals (ez r.2)))%nat.
Proof.
  unfold importSigSpecWorker. destruct (um && negb (model_undef g)); [done|].
  intros [= <-].
  destruct (worker_fold_at pf um du (map (sigmap g) sig) [] g) as (vec & g' & -> & _ & L & _).
  exact L.
Qed.

Lemma at_position_snd k (r : list lit * SatGen) x : at_position k r = Some x → x.2 = r.2.
Proof.
  unfold at_position. destruct (r.1 !! k); simpl; [|done]. by intros [= <-].
Qed.

Lemma front_at_position (r : list lit * SatGen) : front r = at_position 0 r.
Proof. unfold front, at_position. by destruct r.1. Qed.

Lemma import_at_unfold g r t :
  import_at log_id g r t =
  if decide (t = 0%Z) then None
  else worker g (request_sig r) (scope_pf (request_importer r) g t)
              (undef_namespace (request_importer r)) (is_def_import (request_importer r))
         ≫= at_position (request_pos r).
Proof.
  destruct r as [sig k|sig k|sig k|i bit]; simpl.
  - unfold importSigSpec. by destruct (decide (t = 0%Z)).
  - unfold importDefSigSpec. by destruct (decide (t = 0%Z)).
  - unfold importUndefSigSpec. by destruct (decide (t = 0%Z)).
  - rewrite import_bit_unfold. destruct (decide (t = 0%Z)); [done|].
    destruct (worker g [bit] _ _ _) as [r|]; simpl; [|done]. apply front_at_position.
Qed.

Lemma import_bit_literals i g bit t r :
  import_bit log_id i g bit t = Some r →
  (length (literals (ez g)) ≤ length (literals (ez r.2)))%nat.
Proof.
  rewrite import_bit_unfold. destruct (decide (t = 0%Z)); [done|].
  intros H. apply bind_Some in H as (r0 & Hw & Hf).
  apply front_snd in Hf as ->. by eapply worker_literals.
Qed.

Lemma run_call_literals g c g' :
  run_call log_id g c = Some g' →
  (length (literals (ez g)) ≤ length (literals (ez g')))%nat.
Proof.
  destruct c; simpl; intros H; apply fmap_Some in H as (r & Hr & ->).
  - unfold importSigSpec in Hr. destruct (decide _); [done|]. by eapply worker_literals.
  - unfold importDefSigSpec in Hr. destruct (decide _); [done|]. by eapply worker_literals.
  - unfold importUndefSigSpec in Hr. destruct (decide _); [done|]. by eapply worker_literals.
  - by eapply import_bit_literals.
  - unfold importedSigBit in Hr. destruct (decide _); [done|].
    destruct (subscript _ _ _) as [inner outer]. by injection Hr as <-.
Qed.

Lemma run_calls_literals cs g g' :
  run_calls log_id cs g = Some g' →
  (length (literals (ez g)) ≤ length (literals (ez g')))%nat.
Proof.
  revert g. induction cs as [|c cs IH]; intros g; simpl.
  - by intros [= <-].
  - intros H. apply bind_Some in H as (g1 & H1 & H2).
    apply run_call_literals in H1. apply IH in H2. lia.
Qed.

(** What an import of a request returned: the literal at the position of
    the bit, with what is known of it. *)
Lemma import_at_spec g r t bit l g1 :
  request_bit r = Some bit →
  import_at log_id g r t = Some (l, g1) →
  t ≠ 0%Z ∧
  undef_namespace (request_importer r) && negb (model_undef g) = false ∧
  extends g g1 ∧
  (length (literals (ez g)) ≤ length (literals (ez g1)))%nat ∧
  match sigmap g bit with
  | BitWire w o =>
      ∃ id, l = Var id ∧
            literalsCache (ez g1)
              !! bit_name log_id (scope_pf (request_importer r) g t) w o = Some id
  | BitConst d =>
      if model_undef g && is_def_import (request_importer r) && State_eqb d Sx
      then ∃ n, l = Var n ∧ (length (literals (ez g)) < n ≤ length (literals (ez g1)))%nat
      else l = const_literal (undef_namespace (request_importer r)) d
  end.
Proof.
  intros Hbit. rewrite import_at_unfold. destruct (decide (t = 0%Z)); [done|].
  unfold importSigSpecWorker.
  destruct (undef_namespace (request_importer r) && negb (model_undef g)); [done|].
  cbn [mbind option_bind].
  destruct (worker_fold_at (scope_pf (request_importer r) g t)
              (undef_namespace (request_importer r)) (is_def_import (request_importer r))
              (map (sigmap g) (request_sig r)) [] g) as (vec & g' & -> & E & L & Hall).
  unfold at_position. simpl. intros H. apply bind_Some in H as (l' & Hl & [= -> ->]).
  split; [done|]. split; [done|]. split; [done|]. split; [done|].
  assert (map (sigmap g) (request_sig r) !! request_pos r = Some (sigmap g bit)) as Hcb.
  { unfold request_bit in Hbit. by rewrite list_lookup_fmap, Hbit. }
  exact (Forall2_lookup_lr _ _ _ _ _ _ Hall Hcb Hl).
Qed.

(** An import of a request succeeds when the timestep is not 0 and the
    undef namespace is only asked for with undef modeling on. *)
Lemma import_at_total g r t bit :
  request_bit r = Some bit →
  t ≠ 0%Z →
  undef_namespace (request_importer r) && negb (model_undef g) = false →
  ∃ l g1, import_at log_id g r t = Some (l, g1).
Proof.
  intros Hbit Ht Hns. rewrite import_at_unfold. rewrite decide_False by done.
  unfold importSigSpecWorker. rewrite Hns. cbn [mbind option_bind].
  unfold at_position.
  destruct (lookup_lt_is_Some_2
              (foldl (worker_bit (scope_pf (request_importer r) g t)
                        (undef_namespace (request_importer r))
                        (is_def_import (request_importer r)))
                     ([], g) (map (sigmap g) (request_sig r))).1 (request_pos r)) as [l Hl].
  { rewrite worker_fold_length, length_map. simpl.
    apply lookup_lt_Some in Hbit. exact Hbit. }
  rewrite Hl. simpl. by eexists _, _.
Qed.

Lemma duplicated_x_const g i bit d :
  sigmap g bit = BitConst d →
  duplicated_x g i bit = model_undef g && is_def_import i && State_eqb d Sx.
Proof.
  intros Hd. unfold duplicated_x. rewrite Hd. f_equal. by destruct d.
Qed.

Lemma duplicated_x_wire g i bit w o :
  sigmap g bit = BitWire w o → duplicated_x g i bit = false.
Proof.
  intros Hd. unfold duplicated_x. rewrite Hd.
  rewrite (bool_decide_eq_false_2 (BitWire w o = BitConst Sx)) by done.
  by rewrite andb_false_r.
Qed.

Lemma const_literal_not_var um d n : const_literal um d ≠ Var n.
Proof. unfold const_literal. by destruct (State_eqb _ _). Qed.

(** C1, as the code has it. Take two imports of one bit at one scope key
    (prefix of the session, timestep, namespace), each through any entry
    point, the bit at any position of the signal imported, with any
    imports and import queries served in between. The second import
    succeeds whenever the first did, and it returns the literal of the
    first exactly when neither of the two is a definition import of a bit
    that canonicalizes to the constant X while undef modeling is on. Such
    an import gives the bit a new variable each time, so the two literals
    differ. *)
Theorem import_literal_stable
    (g : SatGen) (r1 r2 : request) (bit : SigBit) (t : Z) (calls : list call)
    (l1 : lit) (g1 g2 : SatGen) :
  request_bit r1 = Some bit →
  request_bit r2 = Some bit →
  undef_namespace (request_importer r1) = undef_namespace (request_importer r2) →
  import_at log_id g r1 t = Some (l1, g1) →
  run_calls log_id calls g1 = Some g2 →
  ∃ l2 g3,
    import_at log_id g2 r2 t = Some (l2, g3) ∧
    (l2 = l1 ↔ duplicated_x g (request_importer r1) bit = false ∧
               duplicated_x g (request_importer r2) bit = false).
Proof.
  intros Hb1 Hb2 Hns H1 Hrun.
  destruct (import_at_spec g r1 t bit l1 g1 Hb1 H1) as (Ht & Hum & E1 & L1 & Hl1).
  pose proof (run_calls_extends _ _ _ _ Hrun) as E2.
  pose proof (run_calls_literals _ _ _ Hrun) as L2.
  destruct (extends_trans _ _ _ E1 E2) as (Hm & Hs & Hp & _).
  destruct (import_at_total g2 r2 t bit Hb2 Ht) as (l2 & g3 & H2).
  { by rewrite Hm, <- Hns. }
  exists l2, g3. split; [exact H2|].
  destruct (import_at_spec g2 r2 t bit l2 g3 Hb2 H2) as (_ & _ & E3 & L3 & Hl2).
  rewrite Hs, Hm in Hl2.
  assert (scope_pf (request_importer r2) g2 t = scope_pf (request_importer r1) g t) as Hpf.
  { unfold scope_pf. by rewrite <- Hns, Hp. }
  rewrite Hpf in Hl2.
  destruct (sigmap g bit) as [d|w o] eqn:Hbit.
  - rewrite !(duplicated_x_const g _ bit d Hbit).
    destruct (model_undef g && is_def_import (request_importer r1) && State_eqb d Sx) eqn:D1;
      destruct (model_undef g && is_def_import (request_importer r2) && State_eqb d Sx) eqn:D2.
    + destruct Hl1 as (n1 & -> & Hn1). destruct Hl2 as (n2 & -> & Hn2).
      split; [|by intros [? _]]. intros [= ->]. lia.
    + destruct Hl1 as (n1 & -> & Hn1). subst l2.
      split; [|by intros [? _]]. intros Heq. by apply const_literal_not_var in Heq.
    + destruct Hl2 as (n2 & -> & Hn2). subst l1.
      split; [|by intros [_ ?]]. intros Heq. symmetry in Heq.
      by apply const_literal_not_var in Heq.
    + subst l1 l2. rewrite <- Hns. done.
  - rewrite !(duplicated_x_wire g _ bit w o Hbit).
    destruct Hl1 as (id1 & -> & Hc1). destruct Hl2 as (id2 & -> & Hc2).
    destruct E2 as (_ & _ & _ & K2). destruct E3 as (_ & _ & _ & K3).
    apply K2, K3 in Hc1. rewrite Hc1 in Hc2. injection Hc2 as <-. done.
Qed.

End Stability.

Lemma import_literal_stable_witness :
  ∃ l2 g3,
    import_at id (default undef_session demo_req_mid) demo_req2 3 = Some (l2, g3) ∧
    (l2 = (default (CONST_FALSE, undef_session) demo_req_first).1 ↔
       duplicated_x undef_session (request_importer demo_req1) (BitWire wire_a 2) = false ∧
       duplicated_x undef_session (request_importer demo_req2) (BitWire wire_a 2) = false).
Proof.
  apply (import_literal_stable id undef_session demo_req1 demo_req2 (BitWire wire_a 2) 3
           demo_calls (default (CONST_FALSE, undef_session) demo_req_first).1
           (default (CONST_FALSE, undef_session) demo_req_first).2
           (default undef_session demo_req_mid)).
  - reflexivity.
  - reflexivity.
  - reflexivity.
  - apply some_pair_default. vm_compute. reflexivity.
  - apply some_of_default. vm_compute. reflexivity.
Defined.

(* ===================================================================== *)
(** * More properties of the miter builder                                *)
(* ===================================================================== *)

Import SensitizePath MiterSpec.

(** ** The two rewrites of a signal *)

Lemma mapped_cons wm b sig : mapped wm (b :: sig) → mapped wm [b] ∧ mapped wm sig.
Proof.
  intros H. split; intros wr o Hin; apply (H wr o).
  - apply list_elem_of_singleton in Hin as <-. by left.
  - by right.
Qed.

Lemma path_b_bit_mapped wm b : mapped wm [b] → path_b_bit wm b = [shadow_bit wm b].
Proof.
  intros H. destruct b as [d|wr o]; simpl; [done|].
  destruct (H wr o) as [wr' ->]; [by left|done].
Qed.

Lemma bind_path_b_mapped wm sig :
  mapped wm sig → sig ≫= path_b_bit wm = map (shadow_bit wm) sig.
Proof.
  induction sig as [|b sig IH]; intros H; [done|].
  apply mapped_cons in H as [Hb Hs]. simpl. rewrite path_b_bit_mapped by done.
  simpl. f_equal. by apply IH.
Qed.

(** X15. [rewrite_sigspec] moves a signal to path b bit by bit: when every
    wire of the signal has a copy in the wire map, the result has the same
    length, keeps each constant bit, and replaces each wire bit by the bit
    of the copy at the same offset. A signal of constants is left as it
    is. *)
Theorem rewrite_sigspec_pointwise (w : SensitizePathWorker) (sig : SigSpec) :
  mapped (wire_map w) sig →
  rewrite_sigspec w sig = map (shadow_bit (wire_map w)) sig ∧
  length (rewrite_sigspec w sig) = length sig ∧
  (Forall (λ b, is_wire_bit b = false) sig → rewrite_sigspec w sig = sig).
Proof.
  intros Hm. rewrite rewrite_sigspec_bits, bind_path_b_mapped by done.
  split; [done|]. split; [by rewrite length_map|].
  intros Hc. clear Hm. induction Hc as [|b sig Hb _ IH]; [done|].
  simpl. rewrite IH. by destruct b.
Qed.



Lemma constrain_bits_no_x sig w sa sb :
  Forall (λ b, b ≠ BitConst Sx) sig →
  constrain_bits sig 0 (w, sa, sb) = (w, sa ++ sig, sb ++ (sig ≫= path_b_bit (wire_map w))).
Proof.
  intros H. revert sa sb. induction H as [|b sig Hb _ IH]; intros sa sb.
  - simpl. by rewrite !app_nil_r.
  - assert (constrain_bits (b :: sig) 0 (w, sa, sb)
            = constrain_bits sig 0 (w, sa ++ [b], sb ++ path_b_bit (wire_map w) b)) as ->.
    { destruct b as [[]|wr o]; done. }
    rewrite IH, <- !app_assoc. done.
Qed.

(** X17. On a signal without undefined constants the constrained rewrite
    is the plain one: path a is the signal itself, path b is
    [rewrite_sigspec] of it, and the worker (miter, counter, queue) is
    unchanged. *)
Theorem rewrite_sigspec_constrain_no_x (w : SensitizePathWorker) (sig : SigSpec) :
  Forall (λ b, b ≠ BitConst Sx) sig →
  rewrite_sigspec_constrain w sig = Some (w, sig, rewrite_sigspec w sig).
Proof.
  intros H. rewrite rewrite_sigspec_constrain_bits, constrain_bits_no_x by done.
  by rewrite rewrite_sigspec_bits.
Qed.

Lemma constrained_run wm n wire :
  width wire = n →
  Forall3 (constrained_bit wm) (replicate n (BitConst Sx)) (sig_of wire) (sig_of wire).
Proof.
  intros <-. unfold sig_of.
  assert (∀ l : list nat,
    Forall3 (constrained_bit wm) (replicate (length l) (BitConst Sx))
            (map (BitWire wire) l) (map (BitWire wire) l)) as H.
  { induction l as [|i l IH]; simpl; constructor; done. }
  specialize (H (seq 0 (width wire))). by rewrite length_seq in H.
Qed.

Lemma constrain_bits_pointwise sig x_len w sa sb :
  mapped (wire_map w) sig →
  ∃ w' ra rb,
    constrain_bits sig x_len (w, sa, sb) = (w', sa ++ ra, sb ++ rb) ∧
    Forall3 (constrained_bit (wire_map w)) (replicate x_len (BitConst Sx) ++ sig) ra rb.
Proof.
  revert x_len w sa sb. induction sig as [|bit rest IH]; intros x_len w sa sb Hm.
  - cbn [constrain_bits]. unfold flush. rewrite app_nil_r. case_bool_decide as Hx.
    + destruct (append_anyseq_spec w sa sb x_len) as (w' & wire & c & -> & Hw & _).
      exists w', (sig_of wire), (sig_of wire). split; [done|]. by apply constrained_run.
    + replace x_len with 0%nat by lia. exists w, [], []. rewrite !app_nil_r.
      split; [done|constructor].
  - apply mapped_cons in Hm as [Hb Hrest].
    assert (Hother : (∀ xl st, constrain_bits (bit :: rest) xl st
                 = let '(w1, sa1, sb1) := flush xl st in
                   constrain_bits rest 0
                     (w1, sa1 ++ [bit], sb1 ++ path_b_bit (wire_map w1) bit)) →
               constrained_bit (wire_map w) bit bit (shadow_bit (wire_map w) bit) →
      ∃ w' ra rb,
        constrain_bits (bit :: rest) x_len (w, sa, sb) = (w', sa ++ ra, sb ++ rb) ∧
        Forall3 (constrained_bit (wire_map w))
                (replicate x_len (BitConst Sx) ++ bit :: rest) ra rb).
    { intros Hdef Hbit. rewrite Hdef. unfold flush. case_bool_decide as Hx.
      - destruct (append_anyseq_spec w sa sb x_len)
          as (w1 & wire & c & -> & Hw & _ & _ & _ & Hk).
        assert (wire_map w1 = wire_map w) as Hwm by apply Hk.
        lazy beta iota. rewrite Hwm, path_b_bit_mapped by done.
        destruct (IH 0%nat w1 ((sa ++ sig_of wire) ++ [bit])
                    ((sb ++ sig_of wire) ++ [shadow_bit (wire_map w) bit]))
          as (w' & ra & rb & Heq & Hall); [by rewrite Hwm|].
        exists w', (sig_of wire ++ [bit] ++ ra),
               (sig_of wire ++ [shadow_bit (wire_map w) bit] ++ rb).
        rewrite Heq, <- !app_assoc. split; [done|].
        apply Forall3_app; [by apply constrained_run|].
        constructor; [done|]. by rewrite <- Hwm.
      - destruct (IH 0%nat w (sa ++ [bit]) (sb ++ path_b_bit (wire_map w) bit))
          as (w' & ra & rb & Heq & Hall); [done|].
        rewrite path_b_bit_mapped in Heq by done.
        replace x_len with 0%nat by lia.
        exists w', ([bit] ++ ra), ([shadow_bit (wire_map w) bit] ++ rb).
        rewrite path_b_bit_mapped by done.
        rewrite Heq, <- !app_assoc. split; [done|]. by constructor. }
    destruct bit as [d|wr o]; [destruct d|].
    + by apply Hother.
    + by apply Hother.
    + cbn [constrain_bits].
      destruct (IH (S x_len) w sa sb Hrest) as (w' & ra & rb & Heq & Hall).
      exists w', ra, rb. split; [done|].
      replace (replicate x_len (BitConst Sx) ++ BitConst Sx :: rest)
        with (replicate (S x_len) (BitConst Sx) ++ rest); [done|].
      rewrite replicate_S_end, <- app_assoc. done.
    + by apply Hother.
    + by apply Hother.
Qed.

(** X18. The constrained rewrite, bit by bit: when every wire of the
    signal has a copy, both results have the length of the signal; at an
    undefined constant both paths carry one and the same wire bit (of a
    free source), at any other constant both carry the constant, and at a
    wire bit path a carries the bit and path b the bit of the copy. *)
Theorem rewrite_sigspec_constrain_pointwise (w w' : SensitizePathWorker)
    (sig sig_a sig_b : SigSpec) :
  mapped (wire_map w) sig →
  rewrite_sigspec_constrain w sig = Some (w', sig_a, sig_b) →
  Forall3 (constrained_bit (wire_map w)) sig sig_a sig_b.
Proof.
  intros Hm. rewrite rewrite_sigspec_constrain_bits.
  destruct (constrain_bits_pointwise sig 0 w [] [] Hm) as (w1 & ra & rb & -> & Hall).
  by intros [= <- <- <-].
Qed.

(** ** Comparisons with an undefined constant *)

Section CellsMore.
Variable known : Cell -> bool.
Variable output : Cell -> IdString -> bool.

Local Abbreviation run_cell := (SensitizePath.run_cell known output).

Lemma eqx_nex_dispatch w u h cell :
  cell_at (miter w) h = Some cell →
  type cell ∈ ["$eqx"; "$nex"] →
  opt_constrain_all w = false →
  run_cell (w, u) h = (w' ← convert_x_equality w h cell; Some (w', u)).
Proof.
  intros Hc Hty Hall. unfold SensitizePath.run_cell. rewrite Hc, Hall.
  apply elem_of_cons in Hty as [-> | Hty]; [reflexivity|].
  apply list_elem_of_singleton in Hty as ->. reflexivity.
Qed.

(** X19. A comparison of two defined signals is left alone: when neither
    side of an [$eqx] or [$nex] cell is a fully undefined constant,
    [convert_x_equality] changes nothing, and without [-constrain_undef]
    the loop over the cells then moves on without copying the cell to
    path b. *)
Theorem convert_x_equality_keeps (w : SensitizePathWorker) (u : SigPool) (h : nat)
    (cell : Cell) (port_a port_b : SigSpec) :
  getPort cell ID_A = Some port_a → getPort cell ID_B = Some port_b →
  is_fully_undef (map (sigmap w) port_a) = false →
  is_fully_undef (map (sigmap w) port_b) = false →
  convert_x_equality w h cell = Some w ∧
  (cell_at (miter w) h = Some cell → type cell ∈ ["$eqx"; "$nex"] →
   opt_constrain_all w = false → run_cell (w, u) h = Some (w, u)).
Proof.
  intros Ha Hb Hua Hub.
  assert (convert_x_equality w h cell = Some w) as Hconv.
  { unfold convert_x_equality. rewrite Ha, Hb. simpl. by rewrite Hua, Hub. }
  split; [done|]. intros Hc Hty Hall. rewrite (eqx_nex_dispatch w u h cell) by done. by rewrite Hconv.
Qed.

(** X20. The equals-undefined rewrite: when a side of the comparison is a
    fully undefined constant, [convert_x_equality] removes the cell, adds
    one gate of the opposite polarity ([$nex] for [$eqx], [$eqx]
    otherwise) with a fresh one-bit output, whose operand on the undefined
    side is the path-b rewrite of the other side, and queues two
    connections that drive the old output and its path-b rewrite from that
    one wire. *)
Theorem convert_x_equality_rewrites (w : SensitizePathWorker) (h : nat) (cell : Cell)
    (port_a port_b port_y : SigSpec) :
  getPort cell ID_A = Some port_a → getPort cell ID_B = Some port_b →
  getPort cell ID_Y = Some port_y →
  is_fully_undef (map (sigmap w) port_a) || is_fully_undef (map (sigmap w) port_b) = true →
  ∃ w',
    convert_x_equality w h cell = Some w' ∧
    let eq_wire := mkWire (new_id (S (autoidx w))) 1 false false false in
    let sig_a := if is_fully_undef (map (sigmap w) port_a)
                 then rewrite_sigspec w (map (sigmap w) port_b) else map (sigmap w) port_a in
    let sig_b := if is_fully_undef (map (sigmap w) port_a)
                 then map (sigmap w) port_b else rewrite_sigspec w (map (sigmap w) port_a) in
    cells_ (miter w')
      = <[h := None]> (cells_ (miter w) ++
          [Some (compare_cell (cross_type (type cell)) (new_id (autoidx w))
                   sig_a sig_b (sig_of eq_wire))]) ∧
    wires_ (miter w') = wires_ (miter w) ++ [eq_wire] ∧
    new_connections w'
      = new_connections w ++ [(port_y, sig_of eq_wire);
                              (rewrite_sigspec w port_y, sig_of eq_wire)] ∧
    wire_map w' = wire_map w ∧ autoidx w' = S (S (autoidx w)).
Proof.
  intros Ha Hb Hy Hundef. unfold convert_x_equality. rewrite Ha, Hb. simpl.
  destruct (is_fully_undef (map (sigmap w) port_a)) eqn:Hua.
  - unfold cross_type. destruct (bool_decide (type cell = "$eqx")); simpl; rewrite Hy; simpl;
      eexists; (split; [reflexivity|]); simpl; rewrite <- app_assoc; done.
  - simpl in Hundef. rewrite Hundef.
    unfold cross_type. destruct (bool_decide (type cell = "$eqx")); simpl; rewrite Hy; simpl;
      eexists; (split; [reflexivity|]); simpl; rewrite <- app_assoc; done.
Qed.

(** X21. Proof obligations are not duplicated and free sources are
    shared: on an [$assert], [$live] or [$cover] cell the loop over the
    cells leaves the worker as it is; on an [$anyseq], [$anyconst],
    [$allseq] or [$allconst] cell it only queues the connection that drives
    the path-b rewrite of the output from the output itself. The pool of
    undriven signals can only shrink, and does not change without
    [-constrain_undef]. *)
Theorem run_cell_skips (w : SensitizePathWorker) (u : SigPool) (h : nat) (cell : Cell) :
  cell_at (miter w) h = Some cell →
  (type cell ∈ ["$assert"; "$live"; "$cover"] →
   ∃ u', run_cell (w, u) h = Some (w, u') ∧ u' ⊆ u ∧ (opt_constrain_all w = false → u' = u)) ∧
  (type cell ∈ ["$anyseq"; "$anyconst"; "$allseq"; "$allconst"] →
   ∀ sig, getPort cell ID_Y = Some sig →
   ∃ u', run_cell (w, u) h = Some (connect w (rewrite_sigspec w sig, sig), u') ∧
         u' ⊆ u ∧ (opt_constrain_all w = false → u' = u)).
Proof.
  intros Hc. unfold SensitizePath.run_cell. rewrite Hc.
  set (u' := if opt_constrain_all w then _ else u).
  assert (u' ⊆ u ∧ (opt_constrain_all w = false → u' = u)) as [Hsub Hsame].
  { subst u'. destruct (opt_constrain_all w); [|done]. split; [|done].
    generalize (connections_ cell) as conns. intros conns. revert u.
    induction conns as [|conn conns IH]; intros u; simpl; [done|].
    etrans; [apply IH|]. destruct (negb (known cell) || output cell conn.1); [|done].
    unfold pool_del. apply subseteq_difference_l. done. }
  split.
  - intros Hty. rewrite bool_decide_eq_true_2 by done. by exists u'.
  - intros Hty sig Hy.
    assert (type cell ∉ ["$assert"; "$live"; "$cover"]) as Hno.
    { rewrite !elem_of_cons, elem_of_nil in Hty. rewrite !elem_of_cons, elem_of_nil.
      intros Hin. destruct Hty as [Hty|[Hty|[Hty|[Hty|[]]]]]; rewrite Hty in Hin;
        destruct Hin as [Hin|[Hin|[Hin|[]]]]; discriminate Hin. }
    rewrite (bool_decide_eq_false_2 _ Hno). rewrite bool_decide_eq_true_2 by done.
    rewrite Hy. simpl. by exists u'.
Qed.

End CellsMore.

(** ** The loop over the wires *)

Lemma isPublic_new_id n : isPublic (new_id n) = false.
Proof. reflexivity. Qed.

Lemma add_x_wire_opts w wire_a wire_b :
  opt_constrain_all (add_x_wire w wire_a wire_b) = opt_constrain_all w ∧
  opt_constrain_inputs (add_x_wire w wire_a wire_b) = opt_constrain_inputs w ∧
  sigmap (add_x_wire w wire_a wire_b) = sigmap w ∧
  new_connections (add_x_wire w wire_a wire_b) = new_connections w ∧
  wire_map (add_x_wire w wire_a wire_b) = wire_map w.
Proof. unfold add_x_wire. by destruct (isPublic (wire_name wire_a)). Qed.

Lemma run_wire_map w u wire :
  wire_map (run_wire (w, u) wire).1
  = <[wire := mkWire (new_id (autoidx w)) (width wire) false false (keep wire)]> (wire_map w).
Proof.
  unfold run_wire. cbn [addWire_like fst snd].
  set (wire_b := mkWire _ _ false false _).
  set (w1 := with_wire_map _ _).
  destruct (add_x_wire_opts w1 wire wire_b) as (_ & _ & _ & _ & Hm).
  destruct (opt_constrain_all _); [exact Hm|].
  destruct (port_input wire); [|exact Hm].
  destruct (opt_constrain_inputs _); exact Hm.
Qed.

Lemma shadow_of_insert wm wire n k x :
  x = wire ∨ shadow_of wm x →
  shadow_of (<[wire := mkWire (new_id n) (width wire) false false k]> wm) x.
Proof.
  intros Hx. destruct (decide (x = wire)) as [->|Hne].
  - eexists. rewrite lookup_insert_eq. split_and!; done.
  - destruct Hx as [->|(wire_b & Hl & Hrest)]; [done|].
    exists wire_b. by rewrite lookup_insert_ne.
Qed.

Lemma run_wires_shadow wires w u x :
  x ∈ wires ∨ shadow_of (wire_map w) x →
  shadow_of (wire_map (foldl run_wire (w, u) wires).1) x.
Proof.
  revert w u. induction wires as [|wire wires IH]; intros w u Hx; cbn [foldl].
  - destruct Hx as [Hx|Hx]; [by apply elem_of_nil in Hx|done].
  - pose proof (run_wire_map w u wire) as Hm.
    destruct (run_wire (w, u) wire) as [w1 u1]. simpl in Hm.
    apply IH. destruct (decide (x ∈ wires)) as [Hin|Hnin]; [by left|right].
    rewrite Hm. apply shadow_of_insert.
    destruct Hx as [Hx|Hx]; [|by right].
    apply elem_of_cons in Hx as [Hx|Hx]; [by left|done].
Qed.

Lemma sig_of_shadow wm wire wire_b :
  wm !! wire = Some wire_b → width wire_b = width wire →
  sig_of wire ≫= path_b_bit wm = sig_of wire_b.
Proof.
  intros Hl Hw. unfold sig_of. rewrite Hw.
  induction (seq 0 (width wire)) as [|i l IH]; [done|].
  simpl. rewrite Hl. simpl. by f_equal.
Qed.

(** X22. After the loop over the wires every wire it visited has a path-b
    copy in the wire map: an internal wire of the same width, with an
    auto-generated name and both port flags cleared; [rewrite_sigspec]
    takes the wire to that copy, bit for bit. A wire mapped before the loop
    is still mapped afterwards. *)
Theorem wire_loop_shadows (wires : list Wire) (w : SensitizePathWorker) (u : SigPool) :
  let w' := (foldl run_wire (w, u) wires).1 in
  (∀ wire, wire ∈ wires →
     ∃ wire_b, wire_map w' !! wire = Some wire_b ∧
               width wire_b = width wire ∧
               port_input wire_b = false ∧ port_output wire_b = false ∧
               isPublic (wire_name wire_b) = false ∧
               rewrite_sigspec w' (sig_of wire) = sig_of wire_b) ∧
  (∀ wire, shadow_of (wire_map w) wire → shadow_of (wire_map w') wire).
Proof.
  intros w'. split.
  - intros wire Hin.
    destruct (run_wires_shadow wires w u wire (or_introl Hin))
      as (wire_b & Hl & Hw & Hi & Ho & Hp).
    exists wire_b. split_and!; try done.
    rewrite rewrite_sigspec_bits. by apply sig_of_shadow.
  - intros wire Hs. apply run_wires_shadow. by right.
Qed.

Lemma add_x_wire_grows w wire_a wire_b :
  ∃ nw nc, wires_ (miter (add_x_wire w wire_a wire_b)) = wires_ (miter w) ++ nw ∧
           cells_ (miter (add_x_wire w wire_a wire_b)) = cells_ (miter w) ++ nc.
Proof.
  unfold add_x_wire. destruct (isPublic (wire_name wire_a)); simpl.
  - by eexists [_], [_].
  - exists [], []. by rewrite !app_nil_r.
Qed.

Lemma run_wire_grows w u wire :
  ∃ nw nc, wires_ (miter (run_wire (w, u) wire).1) = wires_ (miter w) ++ nw ∧
           cells_ (miter (run_wire (w, u) wire).1) = cells_ (miter w) ++ nc.
Proof.
  unfold run_wire. cbn [addWire_like fst snd].
  set (wire_b := mkWire _ _ false false _).
  set (w1 := with_wire_map _ _).
  destruct (add_x_wire_grows w1 wire wire_b) as (nw & nc & Hw & Hc).
  assert (wires_ (miter w1) = wires_ (miter w) ++ [wire_b]) as Hw1 by done.
  assert (cells_ (miter w1) = cells_ (miter w)) as Hc1 by done.
  rewrite Hw1 in Hw. rewrite Hc1 in Hc.
  destruct (opt_constrain_all _); simpl.
  { exists ([wire_b] ++ nw), nc. by rewrite Hw, Hc, app_assoc. }
  destruct (port_input wire); simpl.
  2: { exists ([wire_b] ++ nw), nc. by rewrite Hw, Hc, app_assoc. }
  destruct (opt_constrain_inputs _); simpl.
  - exists ([wire_b] ++ nw), nc. by rewrite Hw, Hc, app_assoc.
  - eexists ([wire_b] ++ nw ++ [_]), (nc ++ [_]). rewrite Hw, Hc, <- !app_assoc. done.
Qed.

Lemma run_wires_grows wires w u :
  ∃ nw nc, wires_ (miter (foldl run_wire (w, u) wires).1) = wires_ (miter w) ++ nw ∧
           cells_ (miter (foldl run_wire (w, u) wires).1) = cells_ (miter w) ++ nc.
Proof.
  revert w u. induction wires as [|wire wires IH]; intros w u; cbn [foldl].
  - exists [], []. by rewrite !app_nil_r.
  - destruct (run_wire_grows w u wire) as (nw1 & nc1 & Hw1 & Hc1).
    destruct (run_wire (w, u) wire) as [w1 u1]. simpl in Hw1, Hc1.
    destruct (IH w1 u1) as (nw2 & nc2 & Hw2 & Hc2).
    exists (nw1 ++ nw2), (nc1 ++ nc2). by rewrite Hw2, Hc2, Hw1, Hc1, !app_assoc.
Qed.

Lemma run_wire_detector w u wire :
  isPublic (wire_name wire) = true →
  let wire_b := mkWire (new_id (autoidx w)) (width wire) false false (keep wire) in
  let wire_x := mkWire (label_x (wire_name wire)) (width wire) false false true in
  wire_b ∈ wires_ (miter (run_wire (w, u) wire).1) ∧
  wire_x ∈ wires_ (miter (run_wire (w, u) wire).1) ∧
  Some (compare_cell "$nex" (new_id (S (autoidx w))) (sig_of wire) (sig_of wire_b) (sig_of wire_x))
    ∈ cells_ (miter (run_wire (w, u) wire).1).
Proof.
  intros Hpub wire_b wire_x. unfold run_wire. cbn [addWire_like fst snd].
  fold wire_b. set (w1 := with_wire_map _ _).
  assert (wire_b ∈ wires_ (miter (add_x_wire w1 wire wire_b)) ∧
          wire_x ∈ wires_ (miter (add_x_wire w1 wire wire_b)) ∧
          Some (compare_cell "$nex" (new_id (S (autoidx w))) (sig_of wire) (sig_of wire_b)
                  (sig_of wire_x)) ∈ cells_ (miter (add_x_wire w1 wire wire_b)))
    as (Hb & Hw & Hc).
  { unfold add_x_wire. rewrite Hpub. simpl. split_and!.
    - apply elem_of_app. left. apply elem_of_app. right. by left.
    - apply elem_of_app. right. by left.
    - apply elem_of_app. right. by left. }
  destruct (opt_constrain_all _); simpl; [done|].
  destruct (port_input wire); simpl; [|done].
  destruct (opt_constrain_inputs _); simpl; [done|].
  split_and!; apply elem_of_app; by left.
Qed.

Lemma run_wires_map_notin wires w u x :
  x ∉ wires → wire_map (foldl run_wire (w, u) wires).1 !! x = wire_map w !! x.
Proof.
  revert w u. induction wires as [|wire wires IH]; intros w u Hx; cbn [foldl]; [done|].
  apply not_elem_of_cons in Hx as [Hne Hx].
  pose proof (run_wire_map w u wire) as Hm.
  destruct (run_wire (w, u) wire) as [w1 u1]. simpl in Hm.
  rewrite IH by done. rewrite Hm. by apply lookup_insert_ne.
Qed.

(** X23. The divergence detectors: after the loop over the wires, every
    public wire it visited has an [__is_x] wire in the miter (the wire's
    name with that suffix, the wire's width, no port, the [keep] attribute
    set), driven by a [$nex] gate that compares the wire with its path-b
    copy: the wire the wire map holds for it, which is a wire of the miter
    with an auto-generated name, the width and attributes of the original
    and no port flag, and whose bits are the [rewrite_sigspec] image of
    the wire. A wire with a non-public name gets no detector: [add_x_wire]
    does nothing for it. *)
Theorem wire_loop_detectors (wires : list Wire) (w : SensitizePathWorker) (u : SigPool)
    (wire : Wire) :
  let w' := (foldl run_wire (w, u) wires).1 in
  (wire ∈ wires → isPublic (wire_name wire) = true →
   ∃ k,
     let wire_b := mkWire (new_id k) (width wire) false false (keep wire) in
     let wire_x := mkWire (label_x (wire_name wire)) (width wire) false false true in
     wire_map w' !! wire = Some wire_b ∧
     rewrite_sigspec w' (sig_of wire) = sig_of wire_b ∧
     wire_b ∈ wires_ (miter w') ∧
     wire_x ∈ wires_ (miter w') ∧
     Some (compare_cell "$nex" (new_id (S k)) (sig_of wire) (sig_of wire_b) (sig_of wire_x))
       ∈ cells_ (miter w')) ∧
  (isPublic (wire_name wire) = false → ∀ wire_b, add_x_wire w wire wire_b = w).
Proof.
  intros w'. split.
  - subst w'. intros Hin Hpub. revert w u.
    induction wires as [|wire0 wires IH]; intros w u; [by apply elem_of_nil in Hin|].
    cbn [foldl]. destruct (decide (wire ∈ wires)) as [Hrest|Hlast].
    + destruct (run_wire (w, u) wire0) as [w1 u1]. by apply IH.
    + apply elem_of_cons in Hin as [->|Hin]; [|done].
      destruct (run_wire_detector w u wire0 Hpub) as (Hb & Hx & Hc).
      pose proof (run_wire_map w u wire0) as Hm.
      destruct (run_wire (w, u) wire0) as [w1 u1]. simpl in Hb, Hx, Hc, Hm.
      pose proof (run_wires_map_notin wires w1 u1 wire0 Hlast) as Hkeep.
      rewrite Hm, lookup_insert_eq in Hkeep.
      destruct (run_wires_grows wires w1 u1) as (nw & nc & Hws & Hcs).
      exists (autoidx w). cbv zeta. split_and!.
      * exact Hkeep.
      * rewrite rewrite_sigspec_bits. by apply sig_of_shadow.
      * rewrite Hws. apply elem_of_app. by left.
      * rewrite Hws. apply elem_of_app. by left.
      * rewrite Hcs. apply elem_of_app. by left.
  - intros Hpub wire_b. unfold add_x_wire. by rewrite Hpub.
Qed.

Lemma run_wire_queue w u wire :
  let w1 := (run_wire (w, u) wire).1 in
  let wire_b := mkWire (new_id (autoidx w)) (width wire) false false (keep wire) in
  opt_constrain_all w1 = opt_constrain_all w ∧
  opt_constrain_inputs w1 = opt_constrain_inputs w ∧
  sigmap w1 = sigmap w ∧
  (opt_constrain_all w = true →
     new_connections w1 = new_connections w ∧
     (run_wire (w, u) wire).2 = pool_add u (map (sigmap w) (sig_of wire))) ∧
  (opt_constrain_all w = false →
     (run_wire (w, u) wire).2 = u ∧
     (port_input wire = false → new_connections w1 = new_connections w) ∧
     (port_input wire = true → ∃ src,
        new_connections w1 = new_connections w ++ [(sig_of wire_b, src)] ∧
        input_source (opt_constrain_inputs w) (miter w1) wire src)).
Proof.
  intros w1 wire_b. subst w1. unfold run_wire. cbn [addWire_like fst snd].
  set (wb := mkWire _ _ false false _).
  assert (wb = wire_b) as Hwb by reflexivity. clearbody wb. subst wb.
  set (w1 := with_wire_map _ _).
  destruct (add_x_wire_opts w1 wire wire_b) as (Ha & Hi & Hs & Hq & _).
  change (opt_constrain_all w1) with (opt_constrain_all w) in Ha.
  change (opt_constrain_inputs w1) with (opt_constrain_inputs w) in Hi.
  change (sigmap w1) with (sigmap w) in Hs.
  change (new_connections w1) with (new_connections w) in Hq.
  rewrite Ha, Hi, Hs.
  destruct (opt_constrain_all w) eqn:Hall; simpl.
  { split_and!; try done. }
  destruct (port_input wire) eqn:Hin; simpl.
  2: { split_and!; try done. }
  destruct (opt_constrain_inputs w) eqn:Hci; simpl.
  - split_and!; try done. intros _. split; [done|]. split; [done|].
    intros _. exists (sig_of wire). by rewrite Hq.
  - split_and!; try done. intros _. split; [done|]. split; [done|].
    intros _. eexists. rewrite Hq. split; [reflexivity|].
    eexists _, _. split; [reflexivity|]. rewrite length_sig_of. simpl.
    split_and!; [done| |].
    + apply elem_of_app. right. by left.
    + apply elem_of_app. right. by left.
Qed.

Lemma run_wires_opts wires w u :
  let w' := (foldl run_wire (w, u) wires).1 in
  opt_constrain_all w' = opt_constrain_all w ∧
  opt_constrain_inputs w' = opt_constrain_inputs w ∧
  sigmap w' = sigmap w.
Proof.
  destruct (run_wires_after wires w u) as [(H1 & H2 & H3 & _) _]. done.
Qed.

Lemma new_id_inj k k' : new_id k = new_id k' → k = k'.
Proof.
  unfold new_id. intros H. apply (inj (String.append "$auto$")) in H.
  by apply (inj pretty) in H.
Qed.

(** One round of the loop over the wires without [-constrain_undef]. *)
Lemma run_wire_step w u wire :
  opt_constrain_all w = false →
  let w1 := (run_wire (w, u) wire).1 in
  let wire_b := mkWire (new_id (autoidx w)) (width wire) false false (keep wire) in
  (run_wire (w, u) wire).2 = u ∧
  opt_constrain_all w1 = false ∧
  opt_constrain_inputs w1 = opt_constrain_inputs w ∧
  (autoidx w < autoidx w1)%nat ∧
  ∃ nw nc,
    wires_ (miter w1) = wires_ (miter w) ++ nw ∧
    cells_ (miter w1) = cells_ (miter w) ++ nc ∧
    if port_input wire then
      if opt_constrain_inputs w then
        new_connections w1 = new_connections w ++ [(sig_of wire_b, sig_of wire)] ∧
        filter (λ oc, is_anyseq oc = true) nc = []
      else
        ∃ k, (autoidx w ≤ k)%nat ∧ (S k < autoidx w1)%nat ∧
             new_connections w1
               = new_connections w ++ [(sig_of wire_b, sig_of (source_wire k wire))] ∧
             filter (λ oc, is_anyseq oc = true) nc = [Some (source_cell k wire)] ∧
             source_wire k wire ∈ nw
    else
      new_connections w1 = new_connections w ∧
      filter (λ oc, is_anyseq oc = true) nc = [].
Proof.
  intros Hall w1 wire_b. subst w1 wire_b. unfold run_wire, add_x_wire, source_wire, source_cell.
  destruct (isPublic (wire_name wire)), (port_input wire) eqn:Hin,
           (opt_constrain_inputs w) eqn:Hci;
    cbn -[new_id label_x sig_of filter compare_cell Const_of_nat]; rewrite Hall;
    cbn -[new_id label_x sig_of filter compare_cell Const_of_nat]; rewrite ?Hci;
    cbn -[new_id label_x sig_of filter compare_cell Const_of_nat]; rewrite ?length_sig_of;
    (split; [reflexivity|]); (split; [done|]); (split; [done|]); (split; [lia|]).
  all: eexists _, _;
    (split; [first [rewrite <- ?app_assoc; reflexivity | symmetry; apply app_nil_r]|]);
    (split; [first [rewrite <- ?app_assoc; reflexivity | symmetry; apply app_nil_r]|]).
  all: try (split; reflexivity).
  - exists (S (S (autoidx w))). split_and!; [lia|lia|reflexivity|reflexivity|].
    apply list_elem_of_In. right. right. left. reflexivity.
  - exists (S (autoidx w)). split_and!; [lia|lia|reflexivity|reflexivity|].
    apply list_elem_of_In. right. left. reflexivity.
Qed.

Lemma run_wires_tied wires w u :
  NoDup wires →
  opt_constrain_all w = false →
  opt_constrain_inputs w = true →
  let w' := (foldl run_wire (w, u) wires).1 in
  (foldl run_wire (w, u) wires).2 = u ∧
  new_connections w'
    = new_connections w ++
      map (λ wire, (rewrite_sigspec w' (sig_of wire), sig_of wire))
          (filter (λ wire, port_input wire = true) wires) ∧
  ∃ nc, cells_ (miter w') = cells_ (miter w) ++ nc ∧
        filter (λ oc, is_anyseq oc = true) nc = [].
Proof.
  intros Hnd Hall Hci w'. subst w'. revert w u Hall Hci.
  induction Hnd as [|wire wires Hnin Hnd IH]; intros w u Hall Hci; cbn [foldl].
  - split; [done|]. split; [by rewrite app_nil_r|]. exists []. by rewrite app_nil_r.
  - destruct (run_wire_step w u wire Hall) as (Hu & Ha & Hi & _ & nw & nc1 & _ & Hc1 & Hstep).
    pose proof (run_wire_map w u wire) as Hm.
    destruct (run_wire (w, u) wire) as [w1 u1]. simpl in Hu, Ha, Hi, Hc1, Hstep, Hm. subst u1.
    rewrite Hci in Hi, Hstep.
    destruct (IH w1 u Ha Hi) as (Hu' & Hq' & nc2 & Hc2 & Hf2). split; [done|].
    rewrite filter_cons. destruct (decide (port_input wire = true)) as [Hin|Hnot].
    + rewrite Hin in Hstep. destruct Hstep as [Hq1 Hf1]. split.
      * rewrite Hq', Hq1, <- app_assoc. cbn [map app]. do 3 f_equal.
        rewrite rewrite_sigspec_bits. symmetry. apply sig_of_shadow; [|done].
        rewrite run_wires_map_notin by done. rewrite Hm. apply lookup_insert_eq.
      * exists (nc1 ++ nc2). split; [by rewrite Hc2, Hc1, app_assoc|].
        by rewrite filter_app, Hf1, Hf2.
    + destruct (port_input wire); [done|]. destruct Hstep as [Hq1 Hf1]. split.
      * by rewrite Hq', Hq1.
      * exists (nc1 ++ nc2). split; [by rewrite Hc2, Hc1, app_assoc|].
        by rewrite filter_app, Hf1, Hf2.
Qed.

Lemma run_wires_autoidx wires w u : (autoidx w ≤ autoidx (foldl run_wire (w, u) wires).1)%nat.
Proof.
  revert w u. induction wires as [|wire wires IH]; intros w u; cbn [foldl]; [done|].
  assert (autoidx w ≤ autoidx (run_wire (w, u) wire).1)%nat as Hle.
  { unfold run_wire, add_x_wire. cbn [addWire_like fst snd].
    repeat match goal with
           | |- context [if ?b then _ else _] => destruct b
           end; simpl; lia. }
  destruct (run_wire (w, u) wire) as [w1 u1]. simpl in Hle. specialize (IH w1 u1). lia.
Qed.

Lemma run_wires_free wires w u :
  NoDup wires →
  opt_constrain_all w = false →
  opt_constrain_inputs w = false →
  let w' := (foldl run_wire (w, u) wires).1 in
  let inputs := filter (λ wire, port_input wire = true) wires in
  (foldl run_wire (w, u) wires).2 = u ∧
  ∃ ks nw nc,
    length ks = length inputs ∧
    new_connections w'
      = new_connections w ++
        zip_with (λ wire k, (rewrite_sigspec w' (sig_of wire), sig_of (source_wire k wire)))
                 inputs ks ∧
    wires_ (miter w') = wires_ (miter w) ++ nw ∧
    cells_ (miter w') = cells_ (miter w) ++ nc ∧
    filter (λ oc, is_anyseq oc = true) nc
      = zip_with (λ wire k, Some (source_cell k wire)) inputs ks ∧
    Forall2 (λ wire k, source_wire k wire ∈ nw) inputs ks ∧
    (∀ i j k k', (i < j)%nat → ks !! i = Some k → ks !! j = Some k' → (S k < k')%nat) ∧
    Forall (λ k, autoidx w ≤ k ∧ S k < autoidx w')%nat ks.
Proof.
  intros Hnd Hall Hci w' inputs. subst w' inputs. revert w u Hall Hci.
  induction Hnd as [|wire wires Hnin Hnd IH]; intros w u Hall Hci; cbn [foldl].
  - split; [done|]. exists [], [], []. rewrite !app_nil_r. split_and!; try done; constructor.
  - destruct (run_wire_step w u wire Hall)
      as (Hu & Ha & Hi & Hlt & nw1 & nc1 & Hw1 & Hc1 & Hstep).
    pose proof (run_wires_autoidx wires (run_wire (w, u) wire).1 (run_wire (w, u) wire).2) as Hmono.
    rewrite <- surjective_pairing in Hmono.
    pose proof (run_wire_map w u wire) as Hm.
    destruct (run_wire (w, u) wire) as [w1 u1].
    simpl in Hu, Ha, Hi, Hlt, Hw1, Hc1, Hstep, Hm, Hmono. subst u1.
    rewrite Hci in Hi, Hstep.
    destruct (IH w1 u Ha Hi)
      as (Hu' & ks & nw2 & nc2 & Hlen & Hq' & Hw2 & Hc2 & Hf2 & Hin2 & Hsort & Hbound).
    split; [done|].
    rewrite filter_cons. destruct (decide (port_input wire = true)) as [Hin|Hnot].
    + rewrite Hin in Hstep. destruct Hstep as (k & Hk1 & Hk2 & Hq1 & Hf1 & Hsrc).
      exists (k :: ks), (nw1 ++ nw2), (nc1 ++ nc2). split_and!.
      * simpl. by rewrite Hlen.
      * rewrite Hq', Hq1, <- app_assoc. cbn [zip_with app]. do 3 f_equal.
        rewrite rewrite_sigspec_bits. symmetry. apply sig_of_shadow; [|done].
        rewrite run_wires_map_notin by done. rewrite Hm. apply lookup_insert_eq.
      * by rewrite Hw2, Hw1, app_assoc.
      * by rewrite Hc2, Hc1, app_assoc.
      * by rewrite filter_app, Hf1, Hf2.
      * constructor; [apply elem_of_app; by left|].
        eapply Forall2_impl; [exact Hin2|]. intros x y Hxy. apply elem_of_app. by right.
      * intros i j k1 k2 Hij Hi1 Hj. destruct j as [|j]; [lia|]. simpl in Hj.
        destruct i as [|i]; simpl in Hi1.
        -- injection Hi1 as <-. rewrite Forall_forall in Hbound.
           specialize (Hbound k2 (list_elem_of_lookup_2 _ _ _ Hj)). lia.
        -- eapply (Hsort i j); [lia|done|done].
      * constructor.
        -- split; [done|]. lia.
        -- eapply Forall_impl; [exact Hbound|]. simpl. intros k' Hk'. lia.
    + destruct (port_input wire); [done|]. destruct Hstep as [Hq1 Hf1].
      exists ks, (nw1 ++ nw2), (nc1 ++ nc2). split_and!; try done.
      * by rewrite Hq', Hq1.
      * by rewrite Hw2, Hw1, app_assoc.
      * by rewrite Hc2, Hc1, app_assoc.
      * by rewrite filter_app, Hf1, Hf2.
      * eapply Forall2_impl; [exact Hin2|]. intros x y Hxy. apply elem_of_app. by right.
      * eapply Forall_impl; [exact Hbound|]. simpl. intros k' Hk'. lia.
Qed.

(** X24. How the loop over the wires drives the inputs of path b. Without
    [-constrain_undef] it queues exactly one connection per input wire, in
    the order of the wires, and none for any other wire; each one drives
    the path-b copy of the input. With [-constrain_inputs] the driver is
    the input itself and the loop adds no [$anyseq] cell. Otherwise every
    input gets a free source of its own: the [$anyseq] cells that the loop
    adds to the miter are exactly one per input, in order, each with a
    name and an output wire, of the input's width, that are generated for
    it during the loop, so no two inputs share a source. The pool of
    undriven signals is not touched. *)
Theorem wire_loop_inputs (wires : list Wire) (w : SensitizePathWorker) (u : SigPool) :
  NoDup wires →
  opt_constrain_all w = false →
  let w' := (foldl run_wire (w, u) wires).1 in
  let inputs := filter (λ wire, port_input wire = true) wires in
  (foldl run_wire (w, u) wires).2 = u ∧
  (opt_constrain_inputs w = true →
   new_connections w'
     = new_connections w ++ map (λ wire, (rewrite_sigspec w' (sig_of wire), sig_of wire)) inputs ∧
   ∃ nc, cells_ (miter w') = cells_ (miter w) ++ nc ∧
         filter (λ oc, is_anyseq oc = true) nc = []) ∧
  (opt_constrain_inputs w = false →
   ∃ ks nw nc,
     length ks = length inputs ∧
     new_connections w'
       = new_connections w ++
         zip_with (λ wire k, (rewrite_sigspec w' (sig_of wire), sig_of (source_wire k wire)))
                  inputs ks ∧
     wires_ (miter w') = wires_ (miter w) ++ nw ∧
     cells_ (miter w') = cells_ (miter w) ++ nc ∧
     filter (λ oc, is_anyseq oc = true) nc
       = zip_with (λ wire k, Some (source_cell k wire)) inputs ks ∧
     Forall2 (λ wire k, source_wire k wire ∈ nw) inputs ks ∧
     (∀ i j k k', (i < j)%nat → ks !! i = Some k → ks !! j = Some k' → (S k < k')%nat) ∧
     Forall (λ k, autoidx w ≤ k ∧ S k < autoidx w')%nat ks ∧
     NoDup ((new_id <$> ks) ++ ((λ k, new_id (S k)) <$> ks))).
Proof.
  intros Hnd Hall w' inputs. subst w' inputs. split_and!.
  - destruct (opt_constrain_inputs w) eqn:Hci.
    + by destruct (run_wires_tied wires w u Hnd Hall Hci) as [? _].
    + by destruct (run_wires_free wires w u Hnd Hall Hci) as [? _].
  - intros Hci. by destruct (run_wires_tied wires w u Hnd Hall Hci) as (_ & ? & ?).
  - intros Hci.
    destruct (run_wires_free wires w u Hnd Hall Hci)
      as (_ & ks & nw & nc & Hlen & Hq & Hw & Hc & Hf & Hin & Hsort & Hbound).
    exists ks, nw, nc. split_and!; try done.
    clear -Hsort. apply NoDup_app. split_and!.
    + apply NoDup_alt. intros i j x Hi Hj.
      apply list_lookup_fmap_Some in Hi as (k1 & -> & H1).
      apply list_lookup_fmap_Some in Hj as (k2 & Heq & H2). apply new_id_inj in Heq as ->.
      destruct (Nat.lt_total i j) as [Hlt|[->|Hlt]]; [|done|].
      * specialize (Hsort i j k2 k2 Hlt H1 H2). lia.
      * specialize (Hsort j i k2 k2 Hlt H2 H1). lia.
    + intros x Hx Hx'.
      apply list_elem_of_fmap in Hx as (k1 & -> & Hk1).
      apply list_elem_of_fmap in Hx' as (k2 & Heq & Hk2). apply new_id_inj in Heq as ->.
      apply list_elem_of_lookup in Hk1 as [i Hi]. apply list_elem_of_lookup in Hk2 as [j Hj].
      destruct (Nat.lt_total i j) as [Hlt|[->|Hlt]].
      * specialize (Hsort i j _ _ Hlt Hi Hj). lia.
      * assert (S k2 = k2) by congruence. lia.
      * specialize (Hsort j i _ _ Hlt Hj Hi). lia.
    + apply NoDup_alt. intros i j x Hi Hj.
      apply list_lookup_fmap_Some in Hi as (k1 & -> & H1).
      apply list_lookup_fmap_Some in Hj as (k2 & Heq & H2). apply new_id_inj in Heq.
      injection Heq as ->.
      destruct (Nat.lt_total i j) as [Hlt|[->|Hlt]]; [|done|].
      * specialize (Hsort i j k2 k2 Hlt H1 H2). lia.
      * specialize (Hsort j i k2 k2 Hlt H2 H1). lia.
Qed.

(** X25. With [-constrain_undef] the loop over the wires queues no
    connection; it puts every canonical wire bit of every wire visited
    into the pool of undriven signals (constants the canonicalizer maps a
    bit to are left out), so the pool holds wire bits only. *)
Theorem wire_loop_pool (wires : list Wire) (w : SensitizePathWorker) (u : SigPool) :
  opt_constrain_all w = true →
  let st := foldl run_wire (w, u) wires in
  new_connections st.1 = new_connections w ∧
  st.2 = u ∪ list_to_set (filter (λ b, is_wire_bit b = true)
                            (wires ≫= λ wire, map (sigmap w) (sig_of wire))) ∧
  (pool_wires u → pool_wires st.2).
Proof.
  intros Hall st. subst st. split_and!; [| |apply run_wires_after].
  - revert w u Hall. induction wires as [|wire wires IH]; intros w u Hall; cbn [foldl]; [done|].
    destruct (run_wire_queue w u wire) as (Ha & _ & _ & Hq & _).
    destruct (Hq Hall) as [Hq1 _].
    destruct (run_wire (w, u) wire) as [w1 u1]. simpl in Ha, Hq1.
    rewrite IH by congruence. done.
  - revert w u Hall. induction wires as [|wire wires IH]; intros w u Hall; cbn [foldl].
    + change (u = u ∪ ∅). by rewrite union_empty_r_L.
    + destruct (run_wire_queue w u wire) as (Ha & _ & Hs & Hq & _).
      destruct (Hq Hall) as [_ Hu1].
      destruct (run_wire (w, u) wire) as [w1 u1]. simpl in Ha, Hs, Hu1.
      rewrite IH by congruence. rewrite Hs, Hu1. unfold pool_add.
      cbn [mbind list_bind]. 
      change (mbind ?f (?x :: ?l)) with (f x ++ mbind f l).
      by rewrite filter_app, list_to_set_app_L, (assoc_L (∪)).
Qed.

(** ** The command line *)

(** X26. The option loop of [execute] reads the longest prefix of known
    options, in any order and with repetitions: each flag ends up set when
    it was set before or its option occurs in the prefix, and the counter
    is advanced past the prefix. The loop stops at the first other
    argument and reports an unknown option only when that argument starts
    with a dash; whatever follows it is not looked at. *)
Theorem parse_options_spec (rest : list string) (argidx : nat)
    (constrain_inputs constrain_all : bool) :
  let opts := options_prefix rest in
  let parsed := (argidx + length opts,
                 constrain_inputs || bool_decide ("-constrain_inputs" ∈ opts),
                 constrain_all || bool_decide ("-constrain_undef" ∈ opts)) in
  Forall known_option opts ∧
  opts `prefix_of` rest ∧
  parse_options rest argidx constrain_inputs constrain_all
  = match head (drop (length opts) rest) with
    | Some arg => if starts_with_dash arg then inl "Unknown option." else inr parsed
    | None => inr parsed
    end.
Proof.
  revert argidx constrain_inputs constrain_all.
  induction rest as [|arg rest IH]; intros argidx ci ca.
  - simpl. split; [constructor|]. split; [done|].
    by rewrite Nat.add_0_r, !orb_false_r.
  - destruct (decide (arg = "-constrain_inputs")) as [->|Hni].
    { assert (options_prefix ("-constrain_inputs" :: rest)
              = "-constrain_inputs" :: options_prefix rest) as Hopts by reflexivity.
      assert (parse_options ("-constrain_inputs" :: rest) argidx ci ca
              = parse_options rest (S argidx) true ca) as Hparse by reflexivity.
      lazy zeta. rewrite Hopts, Hparse. clear Hopts Hparse.
      destruct (IH (S argidx) true ca) as (Hk & Hp & ->).
      split; [constructor; [by left|done]|]. split; [by apply prefix_cons|].
      cbn [length drop].
      rewrite (bool_decide_eq_true_2 ("-constrain_inputs" ∈ "-constrain_inputs" :: _)) by (by left).
      rewrite orb_true_r.
      rewrite (bool_decide_ext ("-constrain_undef" ∈ "-constrain_inputs" :: options_prefix rest)
                 ("-constrain_undef" ∈ options_prefix rest)).
      2: { rewrite elem_of_cons. split; [by intros [?|?]|by right]. }
      replace (argidx + S (length (options_prefix rest)))%nat
        with (S argidx + length (options_prefix rest))%nat by lia.
      done. }
    destruct (decide (arg = "-constrain_undef")) as [->|Hnu].
    { assert (options_prefix ("-constrain_undef" :: rest)
              = "-constrain_undef" :: options_prefix rest) as Hopts by reflexivity.
      assert (parse_options ("-constrain_undef" :: rest) argidx ci ca
              = parse_options rest (S argidx) ci true) as Hparse by reflexivity.
      lazy zeta. rewrite Hopts, Hparse. clear Hopts Hparse.
      destruct (IH (S argidx) ci true) as (Hk & Hp & ->).
      split; [constructor; [by right|done]|]. split; [by apply prefix_cons|].
      cbn [length drop].
      rewrite (bool_decide_eq_true_2 ("-constrain_undef" ∈ "-constrain_undef" :: _)) by (by left).
      rewrite orb_true_r.
      rewrite (bool_decide_ext ("-constrain_inputs" ∈ "-constrain_undef" :: options_prefix rest)
                 ("-constrain_inputs" ∈ options_prefix rest)).
      2: { rewrite elem_of_cons. split; [by intros [?|?]|by right]. }
      replace (argidx + S (length (options_prefix rest)))%nat
        with (S argidx + length (options_prefix rest))%nat by lia.
      done. }
    cbn [options_prefix parse_options].
    rewrite (bool_decide_eq_false_2 _ Hni), (bool_decide_eq_false_2 _ Hnu).
    rewrite (decide_False (P := arg = "-constrain_inputs")) by done.
    rewrite (decide_False (P := arg = "-constrain_undef")) by done.
    split; [constructor|]. split; [apply prefix_nil|].
    simpl. unfold starts_with_dash. by rewrite Nat.add_0_r, !orb_false_r.
Qed.

(** ** The names in use in the miter *)

Lemma grows_refl w : grows [] w w.
Proof.
  split; [done|]. rewrite Nat.sub_diag. simpl. by rewrite app_nil_r.
Qed.

Lemma grows_trans e1 e2 w1 w2 w3 :
  grows e1 w1 w2 → grows e2 w2 w3 → grows (e1 ++ e2) w1 w3.
Proof.
  intros [L1 S1] [L2 S2]. split; [lia|].
  replace (autoidx w3 - autoidx w1)%nat
    with ((autoidx w2 - autoidx w1) + (autoidx w3 - autoidx w2))%nat by lia.
  rewrite seq_app, fmap_app.
  replace (autoidx w1 + (autoidx w2 - autoidx w1))%nat with (autoidx w2) by lia.
  etrans; [exact S2|]. etrans; [apply submseteq_skips_r, S1|]. solve_submseteq.
Qed.

Lemma grows_nil_trans e w1 w2 w3 : grows [] w1 w2 → grows e w2 w3 → grows e w1 w3.
Proof. intros H1 H2. exact (grows_trans [] e _ _ _ H1 H2). Qed.

Lemma grows_trans_nil e w1 w2 w3 : grows e w1 w2 → grows [] w2 w3 → grows e w1 w3.
Proof. intros H1 H2. pose proof (grows_trans e [] _ _ _ H1 H2) as H. by rewrite app_nil_r in H. Qed.

(** A step that leaves the counter alone and does not add a name. *)
Lemma grows_same w w' :
  autoidx w' = autoidx w → names (miter w') ⊆+ names (miter w) → grows [] w w'.
Proof.
  intros Ha Hn. split; [lia|]. rewrite Ha, Nat.sub_diag. simpl. by rewrite app_nil_r.
Qed.

Lemma cells_app l1 l2 : omap id (l1 ++ l2) = omap (@id (option Cell)) l1 ++ omap id l2.
Proof. apply omap_app. Qed.

Lemma cell_names_alter (f : Cell → Cell) h (l : list (option Cell)) :
  (∀ c, cell_name (f c) = cell_name c) →
  cell_name <$> omap id (alter (fmap f) h l) = cell_name <$> omap id l.
Proof.
  intros Hf. revert h. induction l as [|oc l IH]; intros h; [done|].
  destruct h as [|h]; simpl.
  - destruct oc as [c|]; simpl; [by rewrite Hf|done].
  - destruct oc as [c|]; simpl; [f_equal|]; apply IH.
Qed.

Lemma cells_remove h (l : list (option Cell)) : omap id (<[h := None]> l) ⊆+ omap id l.
Proof.
  revert h. induction l as [|oc l IH]; intros h; [done|].
  destruct h as [|h]; simpl.
  - destruct oc as [c|]; simpl; [by apply submseteq_cons|done].
  - destruct oc as [c|]; simpl; [by apply submseteq_skip|apply IH].
Qed.

Lemma names_set_port m h port sig : names (set_port m h port sig) = names m.
Proof.
  unfold names, set_port, cells. simpl. by rewrite cell_names_alter.
Qed.

Lemma grows_connect w conn : grows [] w (connect w conn).
Proof. by apply grows_same. Qed.

Lemma grows_set_port w h port sig :
  grows [] w (with_miter w (set_port (miter w) h port sig) (autoidx w)).
Proof. apply grows_same; [done|]. simpl. by rewrite names_set_port. Qed.

(** Adding a free source takes two auto-generated names. *)
Lemma grows_anyseq w n :
  grows [] w (with_miter w (Anyseq (miter w) (S (autoidx w)) (new_id (autoidx w)) n).1.2
                (Anyseq (miter w) (S (autoidx w)) (new_id (autoidx w)) n).2).
Proof.
  split; [simpl; lia|]. simpl.
  replace (S (S (autoidx w)) - autoidx w)%nat with 2%nat by lia.
  unfold names, cells. simpl. rewrite fmap_app, cells_app, fmap_app. simpl.
  solve_submseteq.
Qed.

Lemma grows_append_anyseq w sa sb n : grows [] w (append_anyseq (w, sa, sb) n).1.1.
Proof. apply grows_anyseq. Qed.

Lemma grows_constrain_bits sig x_len w sa sb :
  grows [] w (constrain_bits sig x_len (w, sa, sb)).1.1.
Proof.
  revert x_len w sa sb. induction sig as [|bit rest IH]; intros x_len w sa sb.
  - cbn [constrain_bits]. unfold flush. case_bool_decide;
      [apply grows_append_anyseq|apply grows_refl].
  - assert (Hother : (∀ xl st, constrain_bits (bit :: rest) xl st
                 = let '(w1, sa1, sb1) := flush xl st in
                   constrain_bits rest 0
                     (w1, sa1 ++ [bit], sb1 ++ path_b_bit (wire_map w1) bit)) →
               grows [] w (constrain_bits (bit :: rest) x_len (w, sa, sb)).1.1).
    { intros Hdef. rewrite Hdef. unfold flush. case_bool_decide.
      - pose proof (grows_append_anyseq w sa sb x_len) as H1.
        destruct (append_anyseq (w, sa, sb) x_len) as [[w1 sa1] sb1]. simpl in H1.
        eapply grows_nil_trans; [exact H1|apply IH].
      - apply IH. }
    destruct bit as [[]|wr o]; try (by apply Hother).
    cbn [constrain_bits]. apply IH.
Qed.

Lemma grows_rewrite_constrain w sig w' sig_a sig_b :
  rewrite_sigspec_constrain w sig = Some (w', sig_a, sig_b) → grows [] w w'.
Proof.
  rewrite rewrite_sigspec_constrain_bits. intros [= Heq].
  pose proof (grows_constrain_bits sig 0 w [] []) as H. by rewrite Heq in H.
Qed.

Lemma grows_convert w h cell w' :
  convert_x_equality w h cell = Some w' → grows [] w w'.
Proof.
  unfold convert_x_equality.
  destruct (getPort cell ID_A) as [pa|]; [|done].
  destruct (getPort cell ID_B) as [pb|]; [|done]. simpl.
  set (choice := if is_fully_undef (map (sigmap w) pa) then _ else _).
  destruct choice as [[sa sb]|]; [|intros [= <-]; apply grows_refl].
  assert (∀ ty, grows [] w
    (with_miter
       (connect (connect (with_miter w
                   (add_cell (addWire (miter w) (new_id (S (autoidx w))) 1).2
                      (compare_cell ty (new_id (autoidx w)) sa sb
                         (sig_of (mkWire (new_id (S (autoidx w))) 1 false false false)))).2
                   (S (S (autoidx w))))
                 (default [] (getPort cell ID_Y),
                  sig_of (mkWire (new_id (S (autoidx w))) 1 false false false)))
          (rewrite_sigspec w (default [] (getPort cell ID_Y)),
           sig_of (mkWire (new_id (S (autoidx w))) 1 false false false)))
       (remove (add_cell (addWire (miter w) (new_id (S (autoidx w))) 1).2
                  (compare_cell ty (new_id (autoidx w)) sa sb
                     (sig_of (mkWire (new_id (S (autoidx w))) 1 false false false)))).2 h)
       (S (S (autoidx w))))) as Hgate.
  { intros ty. split; [simpl; lia|]. simpl.
    replace (S (S (autoidx w)) - autoidx w)%nat with 2%nat by lia.
    unfold names, cells. simpl. rewrite fmap_app.
    etrans; [apply submseteq_skips_l, submseteq_skips_r, fmap_submseteq, cells_remove|].
    rewrite cells_app, fmap_app. simpl. solve_submseteq. }
  destruct (bool_decide (type cell = "$eqx")); simpl;
    (destruct (getPort cell ID_Y) as [py|]; [|done]); simpl; intros [= <-]; apply Hgate.
Qed.

Lemma grows_add_x_wire w wire_a wire_b :
  grows (x_name wire_a) w (add_x_wire w wire_a wire_b).
Proof.
  unfold add_x_wire, x_name. destruct (isPublic (wire_name wire_a)); simpl;
    [|apply grows_refl].
  split; [simpl; lia|]. simpl.
  replace (S (autoidx w) - autoidx w)%nat with 1%nat by lia.
  unfold names, cells. simpl. rewrite fmap_app, cells_app, fmap_app. simpl.
  solve_submseteq.
Qed.

Lemma grows_run_wire w u wire : grows (x_name wire) w (run_wire (w, u) wire).1.
Proof.
  unfold run_wire. cbn [addWire_like fst snd].
  set (wire_b := mkWire _ _ false false _).
  set (w1 := with_wire_map _ _).
  assert (grows [] w w1) as H1.
  { split; [simpl; lia|]. simpl.
    replace (S (autoidx w) - autoidx w)%nat with 1%nat by lia.
    unfold names, cells. simpl. rewrite fmap_app. simpl. solve_submseteq. }
  pose proof (grows_add_x_wire w1 wire wire_b) as H2.
  pose proof (grows_nil_trans _ _ _ _ H1 H2) as H12.
  destruct (opt_constrain_all (add_x_wire w1 wire wire_b)); [exact H12|].
  destruct (port_input wire); [|exact H12].
  destruct (opt_constrain_inputs (add_x_wire w1 wire wire_b)).
  - eapply grows_trans_nil; [exact H12|apply grows_connect].
  - eapply grows_trans_nil; [exact H12|].
    eapply grows_nil_trans; [|apply grows_connect]. apply grows_anyseq.
Qed.

Lemma grows_run_wires wires w u :
  grows (wires ≫= x_name) w (foldl run_wire (w, u) wires).1.
Proof.
  revert w u. induction wires as [|wire wires IH]; intros w u; cbn [foldl].
  - apply grows_refl.
  - pose proof (grows_run_wire w u wire) as H1.
    destruct (run_wire (w, u) wire) as [w1 u1]. simpl in H1.
    exact (grows_trans _ _ _ _ _ H1 (IH w1 u1)).
Qed.

Lemma grows_copy_port h h_b w conn w' :
  run_copy_port h h_b w conn = Some w' → grows [] w w'.
Proof.
  unfold run_copy_port. destruct (opt_constrain_all w).
  - destruct (rewrite_sigspec_constrain w conn.2) as [[[w1 sa] sb]|] eqn:Hr; [|done].
    simpl. intros [= <-]. apply grows_rewrite_constrain in Hr.
    eapply grows_nil_trans; [exact Hr|].
    apply grows_same; [done|]. simpl. by rewrite !names_set_port.
  - intros [= <-]. apply grows_set_port.
Qed.

Lemma grows_copy_ports h h_b conns w w' :
  foldM (run_copy_port h h_b) w conns = Some w' → grows [] w w'.
Proof.
  revert w. induction conns as [|conn conns IH]; intros w; cbn [foldM].
  - intros [= <-]. apply grows_refl.
  - destruct (run_copy_port h h_b w conn) as [w1|] eqn:H1; [|done]. simpl.
    intros H2. eapply grows_nil_trans; [by eapply grows_copy_port|by apply IH].
Qed.

Lemma grows_copy_cell w h cell w' :
  run_copy_cell w h cell = Some w' → grows [label_b (cell_name cell)] w w'.
Proof.
  unfold run_copy_cell, addCell_like, add_cell. cbn [fst snd]. intros H.
  apply grows_copy_ports in H. eapply grows_trans_nil; [|exact H].
  split; [done|]. simpl. rewrite Nat.sub_diag. simpl.
  unfold names, cells. simpl. rewrite cells_app, fmap_app. simpl. solve_submseteq.
Qed.

Lemma grows_run_conn w conn w' : run_conn w conn = Some w' → grows [] w w'.
Proof.
  unfold run_conn. destruct (opt_constrain_all w).
  - destruct (rewrite_sigspec_constrain w conn.2) as [[[w1 sa] sb]|] eqn:Hr; [|done].
    simpl. intros [= <-]. apply grows_rewrite_constrain in Hr.
    eapply grows_nil_trans; [exact Hr|].
    eapply grows_nil_trans; apply grows_connect.
  - intros [= <-]. eapply grows_nil_trans; apply grows_connect.
Qed.

Lemma grows_run_conns conns w w' : foldM run_conn w conns = Some w' → grows [] w w'.
Proof.
  revert w. induction conns as [|conn conns IH]; intros w; cbn [foldM].
  - intros [= <-]. apply grows_refl.
  - destruct (run_conn w conn) as [w1|] eqn:H1; [|done]. simpl.
    intros H2. eapply grows_nil_trans; [by eapply grows_run_conn|by apply IH].
Qed.

Lemma grows_run_undriven w c w' : run_undriven w c = Some w' → grows [] w w'.
Proof.
  unfold run_undriven. destruct (chunk_wire c) as [wire_a|]; [|done].
  destruct (port_input wire_a).
  - intros [= <-]. apply grows_connect.
  - intros [= <-].
    eapply grows_nil_trans; [apply grows_anyseq|].
    eapply grows_nil_trans; apply grows_connect.
Qed.

Lemma grows_run_undrivens cs w w' : foldM run_undriven w cs = Some w' → grows [] w w'.
Proof.
  revert w. induction cs as [|c cs IH]; intros w; cbn [foldM].
  - intros [= <-]. apply grows_refl.
  - destruct (run_undriven w c) as [w1|] eqn:H1; [|done]. simpl.
    intros H2. eapply grows_nil_trans; [by eapply grows_run_undriven|by apply IH].
Qed.

(** ** The builder never aborts on well-formed cells *)

Lemma continues_cells (K : nat → Prop) w m idx :
  length (cells_ m) = length (cells_ (miter w)) →
  (∀ i, K i → cells_ m !! i = cells_ (miter w) !! i) →
  continues K w (with_miter w m idx).
Proof.
  intros Hlen Hsame. unfold continues. split_and!; try done; simpl.
  - exists []. by rewrite app_nil_r.
  - by rewrite Hlen.
  - intros i Hk _. by apply Hsame.
Qed.

Lemma continues_bound (K K' : nat → Prop) w w' :
  (∀ i, K' i → (i < length (cells_ (miter w)))%nat → K i) →
  continues K w w' → continues K' w w'.
Proof.
  intros HK (A1 & A2 & A3 & A4 & A5 & A6 & A7 & A8). unfold continues. split_and!; try done.
  intros i Hk Hi. apply A8; [by apply HK|done].
Qed.

Lemma continues_set_port (K : nat → Prop) w h port sig :
  (∀ i, K i → i ≠ h) →
  continues K w (with_miter w (set_port (miter w) h port sig) (autoidx w)).
Proof.
  intros HK. apply continues_cells; simpl.
  - apply length_alter.
  - intros i Hi. apply list_lookup_alter_ne. intros ->. by apply (HK i).
Qed.

Lemma run_copy_port_total h h_b w conn :
  ∃ w', run_copy_port h h_b w conn = Some w' ∧ continues (λ i, i ≠ h ∧ i ≠ h_b) w w'.
Proof.
  unfold run_copy_port. destruct (opt_constrain_all w).
  - rewrite rewrite_sigspec_constrain_bits.
    destruct (constrain_bits_spec conn.2 0 w [] []) as (w1 & sa & sb & new & -> & Hk & _).
    simpl. eexists. split; [done|].
    eapply continues_trans; [eapply continues_weaken; [|exact Hk]; done|].
    apply continues_cells; simpl.
    + by rewrite !length_alter.
    + intros i [Hh Hb]. by rewrite !list_lookup_alter_ne.
  - eexists. split; [done|]. apply continues_set_port. by intros i [_ ?].
Qed.

Lemma run_copy_ports_total h h_b conns w :
  ∃ w', foldM (run_copy_port h h_b) w conns = Some w' ∧ continues (λ i, i ≠ h ∧ i ≠ h_b) w w'.
Proof.
  revert w. induction conns as [|conn conns IH]; intros w; cbn [foldM].
  - exists w. split; [done|apply continues_refl].
  - destruct (run_copy_port_total h h_b w conn) as (w1 & -> & Hk1). simpl.
    destruct (IH w1) as (w' & -> & Hk). exists w'. split; [done|].
    by eapply continues_trans.
Qed.

Lemma run_copy_cell_total w h cell :
  ∃ w', run_copy_cell w h cell = Some w' ∧ continues (λ i, i ≠ h) w w'.
Proof.
  unfold run_copy_cell, addCell_like, add_cell. cbn [fst snd].
  set (w0 := with_miter w _ _).
  destruct (run_copy_ports_total h (length (cells_ (miter w))) (connections_ cell) w0)
    as (w' & -> & Hk).
  exists w'. split; [done|].
  assert (continues (λ i, i ≠ h ∧ i ≠ length (cells_ (miter w))) w w0) as Hk0.
  { by eapply continues_append. }
  eapply continues_bound; [|eapply continues_trans; [exact Hk0|exact Hk]].
  intros i Hi Hlt. split; [done|lia].
Qed.

Lemma convert_x_equality_total w h cell :
  is_Some (getPort cell ID_A) → is_Some (getPort cell ID_B) → is_Some (getPort cell ID_Y) →
  ∃ w', convert_x_equality w h cell = Some w' ∧ continues (λ i, i ≠ h) w w'.
Proof.
  intros [pa Ha] [pb Hb] [py Hy]. unfold convert_x_equality. rewrite Ha, Hb. simpl.
  set (choice := if is_fully_undef (map (sigmap w) pa) then _ else _).
  destruct choice as [[sa sb]|]; [|exists w; split; [done|apply continues_refl]].
  assert (∀ ty, continues (λ i, i ≠ h) w
    (with_miter
       (connect (connect (with_miter w
                   (add_cell (addWire (miter w) (new_id (S (autoidx w))) 1).2
                      (compare_cell ty (new_id (autoidx w)) sa sb
                         (sig_of (mkWire (new_id (S (autoidx w))) 1 false false false)))).2
                   (S (S (autoidx w))))
                 (py, sig_of (mkWire (new_id (S (autoidx w))) 1 false false false)))
          (rewrite_sigspec w py, sig_of (mkWire (new_id (S (autoidx w))) 1 false false false)))
       (remove (add_cell (addWire (miter w) (new_id (S (autoidx w))) 1).2
                  (compare_cell ty (new_id (autoidx w)) sa sb
                     (sig_of (mkWire (new_id (S (autoidx w))) 1 false false false)))).2 h)
       (S (S (autoidx w))))) as Hgate.
  { intros ty. unfold continues. split_and!; try done; simpl.
    - by eexists [_; _]; rewrite <- app_assoc.
    - rewrite length_insert, length_app. lia.
    - intros i Hi Hlt. rewrite list_lookup_insert_ne by done. by apply lookup_app_l. }
  destruct (bool_decide (type cell = "$eqx")); simpl; rewrite Hy; simpl;
    eexists; (split; [reflexivity|]); apply Hgate.
Qed.

Lemma ports_ok_free c :
  ports_ok c = true → type c ∈ ["$anyseq"; "$anyconst"; "$allseq"; "$allconst"] →
  is_Some (getPort c ID_Y).
Proof.
  unfold ports_ok. intros H Hty. rewrite (bool_decide_eq_true_2 _ Hty) in H.
  apply andb_true_iff in H as [H _]. by apply bool_decide_eq_true in H.
Qed.

Lemma ports_ok_compare c :
  ports_ok c = true → type c ∈ ["$eqx"; "$nex"] →
  is_Some (getPort c ID_A) ∧ is_Some (getPort c ID_B) ∧ is_Some (getPort c ID_Y).
Proof.
  unfold ports_ok. intros H Hty. rewrite (bool_decide_eq_true_2 (type c ∈ ["$eqx"; "$nex"]) Hty) in H.
  apply andb_true_iff in H as [_ H].
  apply andb_true_iff in H as [H Hy]. apply andb_true_iff in H as [Ha Hb].
  split_and!; by eapply bool_decide_eq_true.
Qed.

Section Total.
Variable SigMap_of : Module -> SigBit -> SigBit.
Variable known : Cell -> bool.
Variable output : Cell -> IdString -> bool.

Lemma run_cell_total w u h :
  (∀ c, cell_at (miter w) h = Some c → ports_ok c = true) →
  ∃ w' u', run_cell known output (w, u) h = Some (w', u') ∧
           continues (λ i, i ≠ h) w w' ∧ (pool_wires u → pool_wires u').
Proof.
  intros Hok. unfold run_cell. destruct (cell_at (miter w) h) as [cell|] eqn:Hc.
  2: { exists w, u. split; [done|]. split; [apply continues_refl|done]. }
  specialize (Hok cell eq_refl).
  set (u' := if opt_constrain_all w then _ else u).
  assert (pool_wires u → pool_wires u') as Hpool.
  { subst u'. destruct (opt_constrain_all w); [|done].
    generalize (connections_ cell) as conns. intros conns. revert u.
    induction conns as [|conn conns IH]; intros u Hu; simpl; [done|].
    apply IH. destruct (negb (known cell) || output cell conn.1); [|done].
    by apply pool_wires_del. }
  case_bool_decide as Hprop.
  { exists w, u'. split; [done|]. split; [apply continues_refl|done]. }
  case_bool_decide as Hfree.
  { destruct (ports_ok_free cell Hok Hfree) as [sig ->]. simpl.
    eexists _, u'. split; [done|]. split; [apply continues_connect|done]. }
  destruct (negb (opt_constrain_all w) && bool_decide (type cell ∈ ["$eqx"; "$nex"])) eqn:Hcmp.
  - apply andb_true_iff in Hcmp as [_ Hty]. apply bool_decide_eq_true in Hty.
    destruct (ports_ok_compare cell Hok Hty) as (Ha & Hb & Hy).
    destruct (convert_x_equality_total w h cell Ha Hb Hy) as (w' & -> & Hk).
    simpl. by exists w', u'.
  - destruct (run_copy_cell_total w h cell) as (w' & -> & Hk). simpl. by exists w', u'.
Qed.

Lemma run_cells_total hs w u :
  NoDup hs →
  (∀ h, h ∈ hs → (h < length (cells_ (miter w)))%nat) →
  (∀ h c, h ∈ hs → cell_at (miter w) h = Some c → ports_ok c = true) →
  ∃ w' u', foldM (run_cell known output) (w, u) hs = Some (w', u') ∧
           continues (λ i, i ∉ hs) w w' ∧ (pool_wires u → pool_wires u').
Proof.
  intros Hnd. revert w u. induction Hnd as [|h hs Hnin Hnd IH]; intros w u Hlt Hok; cbn [foldM].
  - exists w, u. split; [done|]. split; [apply continues_refl|done].
  - destruct (run_cell_total w u h) as (w1 & u1 & -> & Hk1 & Hp1).
    { intros c. apply Hok. by left. }
    simpl.
    assert (∀ h', h' ∈ hs → cells_ (miter w1) !! h' = cells_ (miter w) !! h') as Hsame.
    { intros h' Hin. destruct Hk1 as (_ & _ & _ & _ & _ & _ & _ & Hsame).
      apply Hsame; [by intros ->|]. apply Hlt. by right. }
    destruct (IH w1 u1) as (w' & u' & -> & Hk & Hp).
    + intros h' Hin. destruct Hk1 as (_ & _ & _ & _ & _ & _ & Hlen & _).
      specialize (Hlt h' (list_elem_of_further _ _ _ Hin)). lia.
    + intros h' c Hin. unfold cell_at. rewrite Hsame by done. apply Hok. by right.
    + exists w', u'. split; [done|]. split; [|auto].
      eapply continues_trans.
      * eapply continues_weaken; [|exact Hk1]. intros i Hi ->. apply Hi. by left.
      * eapply continues_weaken; [|exact Hk]. intros i Hi Hin. apply Hi. by right.
Qed.

Lemma run_total (w : SensitizePathWorker) :
  Forall (λ c, ports_ok c = true) (cells (src_module w)) →
  ∃ w', run SigMap_of known output w = Some w' ∧
        connections (miter w') = new_connections w' ∧
        opt_constrain_all w' = opt_constrain_all w ∧
        opt_constrain_inputs w' = opt_constrain_inputs w.
Proof.
  intros Hok. unfold run.
  set (w0 := with_sigmap _ _).
  destruct (run_wires_after (wires_ (miter w0)) w0 ∅) as [Haft Hpool].
  specialize (Hpool pool_wires_empty).
  destruct (foldl run_wire (w0, ∅) (wires_ (miter w0))) as [w1 u1] eqn:Hwires.
  simpl in Haft, Hpool.
  destruct Haft as (Hci1 & Hca1 & _ & _ & _ & new & Hcells1 & _).
  destruct (run_cells_total (seq 0 (length (cells_ (miter w0)))) w1 u1)
    as (w2 & u2 & Hrun2 & Hk2 & Hp2).
  { apply NoDup_seq. }
  { intros h Hin. apply elem_of_seq in Hin. rewrite Hcells1, length_app. lia. }
  { intros h c Hin. apply elem_of_seq in Hin. unfold cell_at.
    rewrite Hcells1, lookup_app_l by lia.
    change (cells_ (miter w0)) with (Some <$> cells (src_module w)).
    rewrite list_lookup_fmap. destruct (cells (src_module w) !! h) as [c'|] eqn:Hc'; [|done].
    simpl. intros [= <-]. rewrite Forall_forall in Hok. apply Hok.
    by eapply list_elem_of_lookup_2. }
  rewrite Hrun2. cbn [mbind option_bind].
  destruct (run_conns_spec (connections (miter w0)) w2) as (w3 & -> & Hk3 & _).
  cbn [mbind option_bind].
  set (w4 := with_miter w3 (fixup_ports (miter w3)) (autoidx w3)).
  assert (opt_constrain_all w4 = opt_constrain_all w ∧
          opt_constrain_inputs w4 = opt_constrain_inputs w) as [Hca4 Hci4].
  { destruct Hk2 as (A1 & A2 & _). destruct Hk3 as (B1 & B2 & _).
    subst w4. simpl. rewrite B1, B2, A1, A2, Hci1, Hca1. done. }
  destruct (opt_constrain_all w4) eqn:Hall.
  - destruct (run_undrivens_spec (chunks (export_all u2)) w4) as (w5 & -> & Hk5 & _).
    { apply chunks_wire_bits. apply Forall_forall. intros b Hb.
      apply Hp2; [done|]. by apply elem_of_elements. }
    simpl. eexists. split; [done|]. destruct Hk5 as (C1 & C2 & _).
    simpl. rewrite C1, C2, Hci4. by rewrite <- Hca4.
  - simpl. eexists. split; [done|]. simpl. by rewrite <- Hca4, <- Hci4.
Qed.

Lemma grows_run_cell w u h w' u' :
  run_cell known output (w, u) h = Some (w', u') →
  grows (match cell_at (miter w) h with
         | Some c => b_name (opt_constrain_all w) c
         | None => []
         end) w w'.
Proof.
  unfold run_cell, b_name, copied.
  destruct (cell_at (miter w) h) as [cell|]; [|intros [= <- <-]; apply grows_refl].
  case_bool_decide as Hprop; [intros [= <- <-]; apply grows_refl|].
  case_bool_decide as Hfree.
  { destruct (getPort cell ID_Y) as [sig|]; [|done]. simpl.
    intros [= <- <-]. apply grows_connect. }
  cbn [negb andb].
  destruct (opt_constrain_all w); cbn [negb andb orb].
  - destruct (run_copy_cell w h cell) as [w1|] eqn:Hc; [|done]. simpl.
    intros [= <- <-]. by apply (grows_copy_cell w h).
  - case_bool_decide as Hcmp; cbn [negb].
    + destruct (convert_x_equality w h cell) as [w1|] eqn:Hc; [|done]. simpl.
      intros [= <- <-]. by eapply grows_convert.
    + destruct (run_copy_cell w h cell) as [w1|] eqn:Hc; [|done]. simpl.
      intros [= <- <-]. by apply (grows_copy_cell w h).
Qed.

Lemma bind_ext_in {A B} (f g : A → list B) (l : list A) :
  (∀ x, x ∈ l → f x = g x) → l ≫= f = l ≫= g.
Proof.
  induction l as [|x l IH]; intros H; [done|].
  change ((x :: l) ≫= f) with (f x ++ (l ≫= f)).
  change ((x :: l) ≫= g) with (g x ++ (l ≫= g)).
  rewrite H by (by left). rewrite IH; [done|]. intros y Hy. apply H. by right.
Qed.

Lemma grows_run_cells hs w u w' u' :
  NoDup hs →
  (∀ h, h ∈ hs → (h < length (cells_ (miter w)))%nat) →
  (∀ h c, h ∈ hs → cell_at (miter w) h = Some c → ports_ok c = true) →
  foldM (run_cell known output) (w, u) hs = Some (w', u') →
  grows (hs ≫= λ h, match cell_at (miter w) h with
                     | Some c => b_name (opt_constrain_all w) c
                     | None => []
                     end) w w'.
Proof.
  intros Hnd. revert w u. induction Hnd as [|h hs Hnin Hnd IH]; intros w u Hlt Hok; cbn [foldM].
  - intros [= <- <-]. apply grows_refl.
  - destruct (run_cell_total w u h) as (w1 & u1 & Hrun & Hk1 & _).
    { intros c. apply Hok. by left. }
    rewrite Hrun. simpl. intros Hrest.
    pose proof (grows_run_cell _ _ _ _ _ Hrun) as H1.
    assert (∀ h', h' ∈ hs → cells_ (miter w1) !! h' = cells_ (miter w) !! h') as Hsame.
    { intros h' Hin. destruct Hk1 as (_ & _ & _ & _ & _ & _ & _ & Hsame).
      apply Hsame; [by intros ->|]. apply Hlt. by right. }
    assert (opt_constrain_all w1 = opt_constrain_all w) as Hall by apply Hk1.
    apply IH in Hrest.
    + change ((h :: hs) ≫= ?f) with (f h ++ (hs ≫= f)).
      eapply grows_trans; [exact H1|].
      erewrite (bind_ext_in _ _ hs); [exact Hrest|].
      intros h' Hin. unfold cell_at. by rewrite Hsame, Hall.
    + intros h' Hin. destruct Hk1 as (_ & _ & _ & _ & _ & _ & Hlen & _).
      specialize (Hlt h' (list_elem_of_further _ _ _ Hin)). lia.
    + intros h' c Hin. unfold cell_at. rewrite Hsame by done. apply Hok. by right.
Qed.

Lemma bind_handles {B} (g : Cell → list B) (l : list Cell) (pre post : list (option Cell)) :
  seq (length pre) (length l)
    ≫= (λ h, match mjoin ((pre ++ (Some <$> l) ++ post) !! h) with
             | Some c => g c
             | None => []
             end)
  = l ≫= g.
Proof.
  revert pre. induction l as [|c l IH]; intros pre; [done|].
  cbn [length seq].
  set (f := λ h : nat, match mjoin ((pre ++ (Some <$> c :: l) ++ post) !! h) with
                       | Some c0 => g c0
                       | None => []
                       end).
  change (f (length pre) ++ (seq (S (length pre)) (length l) ≫= f) = g c ++ (l ≫= g)).
  assert (f (length pre) = g c) as ->.
  { subst f. cbv beta. by rewrite lookup_app_r, Nat.sub_diag by done. }
  f_equal.
  specialize (IH (pre ++ [Some c])). rewrite length_app in IH. simpl in IH.
  replace (length pre + 1)%nat with (S (length pre)) in IH by lia.
  rewrite <- IH. apply bind_ext_in. intros h _. subst f. cbv beta.
  by rewrite <- app_assoc.
Qed.

Lemma cells_fmap_Some (l : list Cell) : omap id (Some <$> l) = l.
Proof. induction l as [|c l IH]; [done|]. simpl. by f_equal. Qed.

(** The names in use after a run. *)
Lemma run_names w w' :
  Forall (λ c, ports_ok c = true) (cells (src_module w)) →
  run SigMap_of known output w = Some w' →
  (autoidx w ≤ autoidx w')%nat ∧
  names (miter w') ⊆+ names (src_module w) ++
                      fixed_names (opt_constrain_all w) (src_module w) ++
                      (new_id <$> seq (autoidx w) (autoidx w' - autoidx w)).
Proof.
  intros Hok. unfold run.
  set (w0 := with_sigmap _ _).
  assert (names (miter w0) = names (src_module w)) as Hn0.
  { unfold names, cells. simpl. by rewrite cells_fmap_Some. }
  pose proof (grows_run_wires (wires_ (miter w0)) w0 ∅) as G1.
  destruct (run_wires_after (wires_ (miter w0)) w0 ∅) as [Haft _].
  destruct (foldl run_wire (w0, ∅) (wires_ (miter w0))) as [w1 u1] eqn:Hwires.
  simpl in Haft, G1.
  destruct Haft as (_ & Hca1 & _ & _ & _ & new & Hcells1 & _).
  destruct (foldM (run_cell known output) (w1, u1) (seq 0 (length (cells_ (miter w0)))))
    as [[w2 u2]|] eqn:Hrun2; [|done].
  cbn [mbind option_bind].
  pose proof Hrun2 as G2. apply grows_run_cells in G2.
  2: { apply NoDup_seq. }
  2: { intros h Hin. apply elem_of_seq in Hin. rewrite Hcells1, length_app. lia. }
  2: { intros h c Hin. apply elem_of_seq in Hin. unfold cell_at.
       rewrite Hcells1, lookup_app_l by lia.
       change (cells_ (miter w0)) with (Some <$> cells (src_module w)).
       rewrite list_lookup_fmap. destruct (cells (src_module w) !! h) as [c'|] eqn:Hc'; [|done].
       simpl. intros [= <-]. rewrite Forall_forall in Hok. apply Hok.
       by eapply list_elem_of_lookup_2. }
  assert (seq 0 (length (cells_ (miter w0)))
            ≫= (λ h, match cell_at (miter w1) h with
                     | Some c => b_name (opt_constrain_all w1) c
                     | None => []
                     end)
          = cells (src_module w) ≫= b_name (opt_constrain_all w)) as Hextra.
  { unfold cell_at. rewrite Hcells1, Hca1.
    change (cells_ (miter w0)) with (Some <$> cells (src_module w)).
    rewrite length_fmap.
    exact (bind_handles (b_name (opt_constrain_all w)) (cells (src_module w)) [] new). }
  rewrite Hextra in G2. clear Hextra.
  destruct (foldM run_conn w2 (connections (miter w0))) as [w3|] eqn:Hrun3; [|done].
  cbn [mbind option_bind].
  pose proof (grows_run_conns _ _ _ Hrun3) as G3.
  set (w4 := with_miter w3 (fixup_ports (miter w3)) (autoidx w3)).
  assert (grows [] w3 w4) as G4 by (by apply grows_same).
  pose proof (grows_trans_nil _ _ _ _ (grows_trans_nil _ _ _ _ (grows_trans _ _ _ _ _ G1 G2) G3) G4)
    as G14.
  assert (∀ w5, grows [] w4 w5 →
    (autoidx w ≤ autoidx (write_new_connections w5))%nat ∧
    names (miter (write_new_connections w5))
      ⊆+ names (src_module w) ++ fixed_names (opt_constrain_all w) (src_module w) ++
         (new_id <$> seq (autoidx w)
                         (autoidx (write_new_connections w5) - autoidx w))) as Hfin.
  { intros w5 G5. destruct (grows_trans_nil _ _ _ _ G14 G5) as [Hle Hsub].
    split; [exact Hle|]. rewrite Hn0 in Hsub. exact Hsub. }
  destruct (opt_constrain_all w4).
  - destruct (foldM run_undriven w4 (chunks (export_all u2))) as [w5|] eqn:Hrun5; [|done].
    simpl. intros [= <-]. apply Hfin. by eapply grows_run_undrivens.
  - simpl. intros [= <-]. apply Hfin. apply grows_refl.
Qed.

Lemma names_free_NoDup ca idx src n :
  names_free ca idx src →
  NoDup (names src ++ fixed_names ca src ++ (new_id <$> seq idx n)).
Proof.
  intros [Hnd Hfresh]. rewrite app_assoc. apply NoDup_app. split_and!.
  - exact Hnd.
  - intros x Hx Hauto. apply list_elem_of_fmap in Hauto as (k & -> & Hk).
    apply elem_of_seq in Hk. apply (Hfresh k); [lia|done].
  - apply NoDup_fmap_2; [|apply NoDup_seq]. intros k k'. apply new_id_inj.
Qed.

Lemma submseteq_NoDup {A} (l k : list A) : l ⊆+ k → NoDup k → NoDup l.
Proof.
  intros Hsub Hk. apply submseteq_Permutation in Hsub as [k' Hk'].
  rewrite Hk' in Hk. by apply NoDup_app in Hk as [? _].
Qed.

(** X27. The builder does not abort on a well-formed source with free
    names. When every free-source cell of the source module has a [Y]
    port and every [$eqx] or [$nex] cell has ports [A], [B] and [Y], no
    port is missing, and neither the length assertion of
    [rewrite_sigspec_constrain] nor the assertion that an undriven chunk
    is a wire can fire. When moreover the names that [run] gives to the
    objects it adds (the [__is_x] name of every public wire, the [__b]
    name of every cell it copies, and the auto-generated names still to
    be given out) are not in use in the source and are pairwise distinct,
    no object is added under a name that is taken: [run] returns, and in
    the miter it leaves no name is in use twice among wires, cells,
    memories and processes. The options of the worker are unchanged, and
    the direct connections of the miter are the connections queued during
    the run. *)
Theorem run_never_aborts (w : SensitizePathWorker) :
  Forall (λ c, ports_ok c = true) (cells (src_module w)) →
  names_free (opt_constrain_all w) (autoidx w) (src_module w) →
  ∃ w', run SigMap_of known output w = Some w' ∧
        NoDup (names (miter w')) ∧
        connections (miter w') = new_connections w' ∧
        opt_constrain_all w' = opt_constrain_all w ∧
        opt_constrain_inputs w' = opt_constrain_inputs w.
Proof.
  intros Hok Hfree. destruct (run_total w Hok) as (w' & Hrun & Hconn & Hca & Hci).
  exists w'. split_and!; try done.
  destruct (run_names w w' Hok Hrun) as [_ Hsub].
  eapply submseteq_NoDup; [exact Hsub|]. by apply names_free_NoDup.
Qed.

End Total.

(** ** Copying a cell to path b *)

Lemma assoc_set_middle {A} k (v s : A) l1 l2 :
  k ∉ l1.*1 → assoc_set k v (l1 ++ (k, s) :: l2) = l1 ++ (k, v) :: l2.
Proof.
  induction l1 as [|[k' v'] l1 IH]; simpl; intros Hk.
  - by rewrite decide_True.
  - apply not_elem_of_cons in Hk as [Hne Hk]. rewrite decide_False by done.
    by rewrite IH.
Qed.

Lemma copy_ports_fold (f : SigSpec → SigSpec) name ty params pre post :
  NoDup (pre ++ post).*1 →
  foldl (λ c (conn : IdString * SigSpec), setPort c conn.1 (f conn.2))
        (mkCell name ty ((prod_map id f <$> pre) ++ post) params) post
  = mkCell name ty (prod_map id f <$> (pre ++ post)) params.
Proof.
  revert pre. induction post as [|[k s] post IH]; intros pre Hnd.
  - simpl. by rewrite !app_nil_r.
  - cbn [foldl]. unfold setPort at 2. cbn [cell_name type connections_ parameters fst snd].
    rewrite assoc_set_middle.
    2: { rewrite fmap_app in Hnd. apply NoDup_app in Hnd as (_ & Hdis & _).
         rewrite <- list_fmap_compose. intros Hin. apply (Hdis k); [|by left].
         apply list_elem_of_fmap in Hin as ([k' s'] & -> & Hin). simpl.
         apply list_elem_of_fmap. by exists (k', s'). }
    specialize (IH (pre ++ [(k, s)])).
    replace ((pre ++ [(k, s)]) ++ post) with (pre ++ (k, s) :: post) in IH
      by (by rewrite <- app_assoc).
    rewrite (fmap_app _ pre [(k, s)]), <- app_assoc in IH. exact (IH Hnd).
Qed.

Lemma copy_ports_plain h cells0 conns w cb :
  opt_constrain_all w = false →
  cells_ (miter w) = cells0 ++ [Some cb] →
  foldM (run_copy_port h (length cells0)) w conns
  = Some (with_miter w
            (with_cells (miter w)
               (cells0 ++ [Some (foldl (λ c (conn : IdString * SigSpec),
                                          setPort c conn.1 (rewrite_sigspec w conn.2))
                                       cb conns)]))
            (autoidx w)).
Proof.
  revert w cb. induction conns as [|conn conns IH]; intros w cb Hall Hcells.
  - simpl. rewrite <- Hcells. by destruct w as [? ? ? ? [] ? ? ?].
  - cbn [foldM].
    assert (run_copy_port h (length cells0) w conn
            = Some (with_miter w (set_port (miter w) (length cells0) conn.1
                                    (rewrite_sigspec w conn.2)) (autoidx w))) as ->.
    { unfold run_copy_port. by rewrite Hall. }
    cbn [mbind option_bind].
    rewrite (IH _ (setPort cb conn.1 (rewrite_sigspec w conn.2))); [done|done|].
    simpl. rewrite Hcells.
    rewrite alter_app_r_alt by done. by rewrite Nat.sub_diag.
Qed.

(** X28. Copying a cell without [-constrain_undef]: [run] adds one cell
    to the miter, named after the original with the suffix [__b], with the
    type and parameters of the original and, on every port, the path-b
    rewrite of the original's signal. The original cell and the rest of the
    worker stay as they are. *)
Theorem run_copy_cell_plain (w : SensitizePathWorker) (h : nat) (cell : Cell) :
  opt_constrain_all w = false →
  NoDup (connections_ cell).*1 →
  let cell_b := mkCell (label_b (cell_name cell)) (type cell)
                  (prod_map id (rewrite_sigspec w) <$> connections_ cell)
                  (parameters cell) in
  run_copy_cell w h cell
  = Some (with_miter w (with_cells (miter w) (cells_ (miter w) ++ [Some cell_b])) (autoidx w)) ∧
  ∀ port sig, getPort cell port = Some sig →
              getPort cell_b port = Some (rewrite_sigspec w sig).
Proof.
  intros Hall Hnd cell_b. split.
  - unfold run_copy_cell, addCell_like, add_cell. cbn [fst snd].
    erewrite copy_ports_plain; [|done|reflexivity].
    pose proof (copy_ports_fold (rewrite_sigspec w) (label_b (cell_name cell)) (type cell)
                  (parameters cell) [] (connections_ cell) Hnd) as Hfold.
    simpl in Hfold. simpl.
    match goal with
    | |- context [foldl ?f ?c0 ?l] =>
        change (foldl f c0 l)
          with (foldl (λ (cb : Cell) (conn : IdString * SigSpec),
                         setPort cb conn.1 (rewrite_sigspec w conn.2)) c0 l)
    end.
    by rewrite Hfold.
  - intros port sig. unfold getPort. subst cell_b. simpl. clear.
    induction (connections_ cell) as [|[k s] l IH]; simpl; [done|].
    destruct (decide (port = k)); [by intros [= ->]|done].
Qed.

(** ** The command *)

Section Command.
Variable SigMap_of : Module -> SigBit -> SigBit.
Variable known : Cell -> bool.
Variable output : Cell -> IdString -> bool.

(** X29. What the command leaves behind. When it ends with a command
    error the design is unchanged. When it succeeds, the command line ends
    in an existing source module without memories and processes and a
    miter name not in use, and the design differs from the old one in
    exactly that one new module; if the cells of the source have their
    ports and the names the builder needs are free, no name is in use
    twice in the new module. The command can only abort (a failed
    assertion or a missing port) when the source module, the module that
    the command line names, has a free-source, [$eqx] or [$nex] cell
    without a port the builder reads, or when a name the builder needs is
    taken. In this model adding an object never fails, so an abort here
    always comes from a missing port; the taken name is listed because
    [Module::add] asserts that the name of a new object is free. *)
Theorem execute_outcomes (args : list string) (design : Design) (idx : nat) :
  let r := execute SigMap_of known output args design idx in
  match r.1 with
  | CmdError _ => r.2 = design
  | Done =>
      ∃ argidx constrain_inputs constrain_all src_name miter_name src m,
        parse_options (tail args) 1 false false = inr (argidx, constrain_inputs, constrain_all) ∧
        length args = (argidx + 2)%nat ∧
        args !! argidx = Some src_name ∧ last args = Some miter_name ∧
        design !! escape_id src_name = Some src ∧
        has_memories src = false ∧ has_processes src = false ∧
        design !! escape_id miter_name = None ∧
        r.2 = <[escape_id miter_name := m]> design ∧
        (Forall (λ c, ports_ok c = true) (cells src) → names_free constrain_all idx src →
         NoDup (names m))
  | Aborted =>
      ∃ argidx constrain_inputs constrain_all src_name src,
        parse_options (tail args) 1 false false = inr (argidx, constrain_inputs, constrain_all) ∧
        length args = (argidx + 2)%nat ∧
        args !! argidx = Some src_name ∧
        design !! escape_id src_name = Some src ∧
        ¬ (Forall (λ c, ports_ok c = true) (cells src) ∧ names_free constrain_all idx src)
  end.
Proof.
  intros r. subst r. unfold execute.
  destruct (parse_options (tail args) 1 false false) as [msg|[[argidx ci] ca]] eqn:Hparse; [done|].
  case_bool_decide as Hlen; simpl; [|done].
  destruct (design !! escape_id (default "" (args !! argidx))) as [src|] eqn:Hsrc; [|done].
  case_bool_decide as Hmiter; [done|].
  destruct (has_memories src || has_processes src) eqn:Hmem; [done|].
  apply orb_false_iff in Hmem as [Hmem Hproc].
  set (worker := mkWorker _ _ _ _ _ _ _ _).
  assert (is_Some (args !! argidx)) as [src_name Hsn].
  { apply lookup_lt_is_Some. lia. }
  assert (is_Some (args !! S argidx)) as [miter_name Hmn].
  { apply lookup_lt_is_Some. lia. }
  rewrite Hsn in Hsrc. simpl in Hsrc.
  destruct (run SigMap_of known output worker) as [w'|] eqn:Hrun; simpl.
  - rewrite Hmn in Hmiter. rewrite Hmn. simpl in *.
    exists argidx, ci, ca, src_name, miter_name, src, (miter w'). split_and!; try done.
    + rewrite last_lookup, Hlen. by replace (pred (argidx + 2)) with (S argidx) by lia.
    + destruct (design !! escape_id miter_name) eqn:Hm; [|done].
      exfalso. apply Hmiter. by eexists.
    + by rewrite insert_insert_eq.
    + intros Hok Hfree.
      destruct (run_names SigMap_of known output worker w' Hok Hrun) as [_ Hsub].
      eapply submseteq_NoDup; [exact Hsub|]. by apply names_free_NoDup.
  - exists argidx, ci, ca, src_name, src. split_and!; try done.
    intros [Hok _].
    destruct (run_total SigMap_of known output worker Hok) as (w' & Hrun' & _).
    rewrite Hrun in Hrun'. discriminate Hrun'.
Qed.

End Command.

(** ** Path a is the source *)

Lemma cell_at_lookup m h c : cell_at m h = Some c → cells_ m !! h = Some (Some c).
Proof. unfold cell_at. by destruct (cells_ m !! h) as [[c'|]|]; intros [= ->]. Qed.

Lemma run_copy_cell_keeps w h cell :
  opt_constrain_all w = false →
  ∃ w', run_copy_cell w h cell = Some w' ∧
        ∀ i, (i < length (cells_ (miter w)))%nat → cells_ (miter w') !! i = cells_ (miter w) !! i.
Proof.
  intros Hall. unfold run_copy_cell, addCell_like, add_cell. cbn [fst snd].
  erewrite copy_ports_plain; [|done|reflexivity].
  eexists. split; [done|]. intros i Hi. simpl. by apply lookup_app_l.
Qed.

Lemma convert_removes w h cell pa pb py :
  getPort cell ID_A = Some pa → getPort cell ID_B = Some pb → getPort cell ID_Y = Some py →
  is_fully_undef (map (sigmap w) pa) || is_fully_undef (map (sigmap w) pb) = true →
  (h < length (cells_ (miter w)))%nat →
  ∃ w', convert_x_equality w h cell = Some w' ∧ cells_ (miter w') !! h = Some None.
Proof.
  intros Ha Hb Hy Hundef Hlt. unfold convert_x_equality. rewrite Ha, Hb. simpl.
  destruct (is_fully_undef (map (sigmap w) pa)) eqn:Hua.
  - destruct (bool_decide (type cell = "$eqx")); simpl; rewrite Hy; simpl;
      eexists; (split; [reflexivity|]); simpl;
      apply list_lookup_insert_eq; rewrite length_app; lia.
  - simpl in Hundef. rewrite Hundef.
    destruct (bool_decide (type cell = "$eqx")); simpl; rewrite Hy; simpl;
      eexists; (split; [reflexivity|]); simpl;
      apply list_lookup_insert_eq; rewrite length_app; lia.
Qed.

Lemma convert_skips w h cell pa pb :
  getPort cell ID_A = Some pa → getPort cell ID_B = Some pb →
  is_fully_undef (map (sigmap w) pa) || is_fully_undef (map (sigmap w) pb) = false →
  convert_x_equality w h cell = Some w.
Proof.
  intros Ha Hb Hu. apply orb_false_iff in Hu as [Hua Hub].
  unfold convert_x_equality. rewrite Ha, Hb. simpl. by rewrite Hua, Hub.
Qed.

Section PathA.
Variable SigMap_of : Module -> SigBit -> SigBit.
Variable known : Cell -> bool.
Variable output : Cell -> IdString -> bool.

Lemma run_cell_path_a w u h c :
  opt_constrain_all w = false →
  cell_at (miter w) h = Some c →
  ports_ok c = true →
  ∃ w' u', run_cell known output (w, u) h = Some (w', u') ∧
           cells_ (miter w') !! h = Some (if compares_undef (sigmap w) c then None else Some c).
Proof.
  intros Hall Hc Hok. pose proof (cell_at_lookup _ _ _ Hc) as Hl.
  assert (h < length (cells_ (miter w)))%nat as Hlt by by eapply lookup_lt_Some.
  unfold run_cell. rewrite Hc, Hall. unfold compares_undef.
  destruct (decide (type c ∈ ["$eqx"; "$nex"])) as [Hty|Hty].
  - rewrite (bool_decide_eq_true_2 _ Hty).
    rewrite bool_decide_eq_false_2.
    2: { rewrite !elem_of_cons, elem_of_nil in Hty. rewrite !elem_of_cons, elem_of_nil.
         intros Hin. destruct Hty as [Hty|[Hty|[]]]; rewrite Hty in Hin;
           destruct Hin as [Hin|[Hin|[Hin|[]]]]; discriminate Hin. }
    rewrite bool_decide_eq_false_2.
    2: { rewrite !elem_of_cons, elem_of_nil in Hty. rewrite !elem_of_cons, elem_of_nil.
         intros Hin. destruct Hty as [Hty|[Hty|[]]]; rewrite Hty in Hin;
           destruct Hin as [Hin|[Hin|[Hin|[Hin|[]]]]]; discriminate Hin. }
    cbn [negb andb].
    destruct (ports_ok_compare c Hok Hty) as ([pa Ha] & [pb Hb] & [py Hy]).
    rewrite Ha, Hb.
    destruct (is_fully_undef (map (sigmap w) pa) || is_fully_undef (map (sigmap w) pb)) eqn:Hu.
    + destruct (convert_removes w h c pa pb py Ha Hb Hy Hu Hlt) as (w' & -> & Hcells).
      simpl. by exists w', u.
    + rewrite (convert_skips w h c pa pb Ha Hb Hu). simpl. by exists w, u.
  - rewrite (bool_decide_eq_false_2 (type c ∈ ["$eqx"; "$nex"]) Hty). cbn [negb andb].
    case_bool_decide as Hprop; [by exists w, u|].
    case_bool_decide as Hfree.
    + destruct (ports_ok_free c Hok Hfree) as [sig ->]. simpl. by eexists _, u.
    + destruct (run_copy_cell_keeps w h c Hall) as (w' & -> & Hk). simpl.
      exists w', u. split; [done|]. by rewrite Hk.
Qed.

Lemma run_cells_path_a hs w u :
  NoDup hs →
  opt_constrain_all w = false →
  (∀ h c, h ∈ hs → cell_at (miter w) h = Some c → ports_ok c = true) →
  (∀ h, h ∈ hs → is_Some (cell_at (miter w) h)) →
  ∃ w' u', foldM (run_cell known output) (w, u) hs = Some (w', u') ∧
           continues (λ i, i ∉ hs) w w' ∧
           ∀ h c, h ∈ hs → cell_at (miter w) h = Some c →
                  cells_ (miter w') !! h
                  = Some (if compares_undef (sigmap w) c then None else Some c).
Proof.
  intros Hnd. revert w u.
  induction Hnd as [|h hs Hnin Hnd IH]; intros w u Hall Hok Hsome; cbn [foldM].
  - exists w, u. split; [done|]. split; [apply continues_refl|].
    intros h c Hin. by apply elem_of_nil in Hin.
  - destruct (Hsome h) as [c Hc]; [by left|].
    destruct (run_cell_path_a w u h c Hall Hc) as (w1 & u1 & Hrun & Hh); [by eapply Hok; [left|]|].
    destruct (run_cell_total known output w u h) as (w1' & u1' & Hrun' & Hk1 & _).
    { intros c'. apply Hok. by left. }
    rewrite Hrun in Hrun'. injection Hrun' as <- <-. rewrite Hrun. simpl.
    assert (∀ h', h' ∈ hs → cells_ (miter w1) !! h' = cells_ (miter w) !! h') as Hsame.
    { intros h' Hin. destruct Hk1 as (_ & _ & _ & _ & _ & _ & _ & Hsame).
      apply Hsame; [by intros ->|].
      destruct (Hsome h') as [c' Hc']; [by right|].
      apply cell_at_lookup in Hc'. by eapply lookup_lt_Some. }
    assert (opt_constrain_all w1 = false) as Hall1.
    { destruct Hk1 as (_ & -> & _). done. }
    assert (sigmap w1 = sigmap w) as Hsm by apply Hk1.
    destruct (IH w1 u1 Hall1) as (w' & u' & -> & Hk & Hcells).
    + intros h' c' Hin. unfold cell_at. rewrite Hsame by done. apply Hok. by right.
    + intros h' Hin. unfold cell_at. rewrite Hsame by done. apply Hsome. by right.
    + exists w', u'. split; [done|]. split.
      * eapply continues_trans.
        -- eapply continues_weaken; [|exact Hk1]. intros i Hi ->. apply Hi. by left.
        -- eapply continues_weaken; [|exact Hk]. intros i Hi Hin. apply Hi. by right.
      * intros h' c' Hin Hc'. apply elem_of_cons in Hin as [->|Hin].
        -- rewrite Hc in Hc'. injection Hc' as <-.
           destruct Hk as (_ & _ & _ & _ & _ & _ & _ & Hkeep).
           rewrite Hkeep; [done|done|]. by eapply lookup_lt_Some.
        -- rewrite <- Hsm. apply Hcells; [done|]. unfold cell_at. by rewrite Hsame.
Qed.

Lemma run_path_a (w : SensitizePathWorker) :
  opt_constrain_all w = false →
  Forall (λ c, ports_ok c = true) (cells (src_module w)) →
  ∃ w', run SigMap_of known output w = Some w' ∧
        ∀ h c, cells (src_module w) !! h = Some c →
               cells_ (miter w') !! h
               = Some (if compares_undef (sigmap w') c then None else Some c).
Proof.
  intros Hall Hok. unfold run.
  set (w0 := with_sigmap _ _).
  destruct (run_wires_after (wires_ (miter w0)) w0 ∅) as [Haft _].
  destruct (foldl run_wire (w0, ∅) (wires_ (miter w0))) as [w1 u1] eqn:Hwires.
  simpl in Haft.
  destruct Haft as (_ & Hca1 & Hsm1 & _ & _ & new & Hcells1 & _).
  assert (∀ h, cells_ (miter w1) !! h = Some <$> cells (src_module w) !! h ∨
               (length (cells (src_module w)) ≤ h)%nat) as Hsrc.
  { intros h. destruct (decide (h < length (cells (src_module w)))%nat) as [Hlt|Hge].
    - left. rewrite Hcells1.
      change (cells_ (miter w0)) with (Some <$> cells (src_module w)).
      rewrite lookup_app_l, list_lookup_fmap; [done|]. by rewrite length_fmap.
    - right. lia. }
  assert (length (cells_ (miter w0)) = length (cells (src_module w))) as Hlen0.
  { change (cells_ (miter w0)) with (Some <$> cells (src_module w)). by rewrite length_fmap. }
  assert (∀ h c, cell_at (miter w1) h = Some c → (h < length (cells_ (miter w0)))%nat →
                 cells (src_module w) !! h = Some c) as Hat.
  { intros h c Hc Hlt. apply cell_at_lookup in Hc.
    destruct (Hsrc h) as [Heq|Hge]; [|lia]. rewrite Heq in Hc.
    destruct (cells (src_module w) !! h); simpl in Hc; congruence. }
  destruct (run_cells_path_a (seq 0 (length (cells_ (miter w0)))) w1 u1)
    as (w2 & u2 & Hrun2 & Hk2 & Hcells2).
  { apply NoDup_seq. }
  { by rewrite Hca1. }
  { intros h c Hin Hc. apply elem_of_seq in Hin.
    rewrite Forall_forall in Hok. apply Hok.
    eapply list_elem_of_lookup_2. apply Hat; [done|lia]. }
  { intros h Hin. apply elem_of_seq in Hin. unfold cell_at.
    destruct (Hsrc h) as [->|Hge]; [|lia].
    destruct (cells (src_module w) !! h) as [c|] eqn:Hc; [by eexists|].
    apply lookup_ge_None in Hc. lia. }
  rewrite Hrun2. cbn [mbind option_bind].
  destruct (run_conns_spec (connections (miter w0)) w2) as (w3 & -> & Hk3 & Hsame3 & _).
  cbn [mbind option_bind].
  assert (opt_constrain_all w2 = false) as Hall2.
  { destruct Hk2 as (_ & -> & _). by rewrite Hca1. }
  assert (opt_constrain_all w3 = false) as Hall3.
  { destruct Hk3 as (_ & -> & _). done. }
  cbn [opt_constrain_all with_miter]. rewrite Hall3.
  eexists. split; [done|]. intros h c Hc. simpl.
  change (cells_ (fixup_ports (miter w3))) with (cells_ (miter w3)).
  rewrite Hsame3 by done.
  assert (sigmap w3 = sigmap w1) as ->.
  { destruct Hk3 as (_ & _ & -> & _). by destruct Hk2 as (_ & _ & -> & _). }
  apply Hcells2.
  - apply elem_of_seq. apply lookup_lt_Some in Hc. lia.
  - unfold cell_at. destruct (Hsrc h) as [->|Hge].
    + by rewrite Hc.
    + apply lookup_lt_Some in Hc. lia.
Qed.

(** X30. Path a is the source: without [-constrain_undef], on a source
    whose cells have their ports and with the names the builder needs
    free, [run] returns, and at its end the miter still holds every cell
    of the source module under its handle, with its name, type, ports and
    parameters as they were; only the [$eqx] and [$nex] cells that compare
    with a fully undefined constant (all bits x or z) are gone. *)
Theorem run_keeps_path_a (w : SensitizePathWorker) :
  opt_constrain_all w = false →
  Forall (λ c, ports_ok c = true) (cells (src_module w)) →
  names_free (opt_constrain_all w) (autoidx w) (src_module w) →
  ∃ w', run SigMap_of known output w = Some w' ∧
        NoDup (names (miter w')) ∧
        ∀ h c, cells (src_module w) !! h = Some c →
               cells_ (miter w') !! h
               = Some (if compares_undef (sigmap w') c then None else Some c).
Proof.
  intros Hall Hok Hfree. destruct (run_path_a w Hall Hok) as (w' & Hrun & Hcells).
  exists w'. split_and!; try done.
  destruct (run_names SigMap_of known output w w' Hok Hrun) as [_ Hsub].
  eapply submseteq_NoDup; [exact Hsub|]. by apply names_free_NoDup.
Qed.

End PathA.

(** ** Concrete instances *)

Import MiterDemo Demo.

Lemma demo_sig_mapped b sig :
  Forall (λ bit, bit = BitWire wire_a 1 ∨ bit = BitWire wire_c 0 ∨ is_wire_bit bit = false) sig →
  mapped (wire_map (demo_worker b)) sig.
Proof.
  intros Hall wr o Hin. rewrite Forall_forall in Hall.
  destruct (Hall _ Hin) as [[= -> _]|[[= -> _]|Hc]]; [by eexists..|done].
Qed.

Lemma some_triple_default {A B C} (o : option (A * B * C)) (d : A * B * C) :
  (λ _, tt) <$> o = Some tt → o = Some ((default d o).1.1, (default d o).1.2, (default d o).2).
Proof. by destruct o as [[[a b] c]|]. Qed.

Lemma rewrite_sigspec_pointwise_witness :
  rewrite_sigspec (demo_worker false) demo_sig
    = map (shadow_bit (wire_map (demo_worker false))) demo_sig ∧
  length (rewrite_sigspec (demo_worker false) demo_sig) = length demo_sig ∧
  (Forall (λ b, is_wire_bit b = false) demo_sig →
   rewrite_sigspec (demo_worker false) demo_sig = demo_sig).
Proof.
  apply (rewrite_sigspec_pointwise (demo_worker false) demo_sig).
  apply demo_sig_mapped.
    repeat (constructor;
            [first [left; reflexivity | right; left; reflexivity | right; right; reflexivity]|]).
    constructor.
Defined.

Lemma rewrite_sigspec_constrain_no_x_witness :
  rewrite_sigspec_constrain (demo_worker true) demo_sig
  = Some (demo_worker true, demo_sig, rewrite_sigspec (demo_worker true) demo_sig).
Proof.
  apply (rewrite_sigspec_constrain_no_x (demo_worker true) demo_sig).
  repeat (constructor; [discriminate|]). constructor.
Defined.

Lemma rewrite_sigspec_constrain_pointwise_witness :
  Forall3 (constrained_bit (wire_map (demo_worker true))) demo_sig_x
          demo_constrained.1.2 demo_constrained.2.
Proof.
  apply (rewrite_sigspec_constrain_pointwise (demo_worker true) demo_constrained.1.1
           demo_sig_x demo_constrained.1.2 demo_constrained.2).
  - apply demo_sig_mapped.
    repeat (constructor;
            [first [left; reflexivity | right; left; reflexivity | right; right; reflexivity]|]).
    constructor.
  - apply some_triple_default. vm_compute. reflexivity.
Defined.

Lemma convert_x_equality_keeps_witness :
  convert_x_equality (demo_worker false) 4 same_cell = Some (demo_worker false) ∧
  (cell_at (miter (demo_worker false)) 4 = Some same_cell →
   type same_cell ∈ ["$eqx"; "$nex"] →
   opt_constrain_all (demo_worker false) = false →
   run_cell (λ _, true) (λ _ port, bool_decide (port = ID_Y)) (demo_worker false, ∅) 4
     = Some (demo_worker false, ∅)).
Proof.
  apply (convert_x_equality_keeps (λ _, true) (λ _ port, bool_decide (port = ID_Y))
           (demo_worker false) ∅ 4 same_cell (sig_of wire_c) (sig_of wire_en));
    reflexivity.
Defined.

Lemma convert_x_equality_rewrites_witness :
  ∃ w', convert_x_equality (demo_worker false) 0 cmp_cell = Some w' ∧
        cells_ (miter w') !! 0%nat = Some None ∧
        last (cells_ (miter w'))
          = Some (Some (compare_cell "$nex" (new_id 2) (sig_of wire_a) (sig_of shadow_a)
                          (sig_of (mkWire (new_id 3) 1 false false false)))).
Proof.
  destruct (convert_x_equality_rewrites (demo_worker false) 0 cmp_cell
              (sig_of wire_a) [BitConst Sx; BitConst Sz; BitConst Sx; BitConst Sz] (sig_of wire_c))
    as (w' & Hrun & Hcells & _); [reflexivity..|].
  exists w'. split; [exact Hrun|]. cbv zeta in Hcells. rewrite Hcells.
  split; reflexivity.
Defined.

Lemma run_cell_skips_witness :
  ∃ u', run_cell (λ _, true) (λ _ port, bool_decide (port = ID_Y)) (demo_worker true, ∅) 3
          = Some (demo_worker true, u') ∧ u' ⊆ ∅ ∧
        (opt_constrain_all (demo_worker true) = false → u' = ∅).
Proof.
  destruct (run_cell_skips (λ _, true) (λ _ port, bool_decide (port = ID_Y))
              (demo_worker true) ∅ 3 chk_cell eq_refl) as [Hskip _].
  apply Hskip. by left.
Defined.

Lemma demo_wires_NoDup : NoDup (wires_ demo_src).
Proof. apply (bool_decide_unpack _). vm_compute. exact I. Qed.

Lemma wire_loop_inputs_witness :
  ∃ ks nw nc,
    length ks = length (filter (λ wire, port_input wire = true) (wires_ demo_src)) ∧
    new_connections (demo_wired false false)
      = new_connections (fresh_worker false false) ++
        zip_with (λ wire k, (rewrite_sigspec (demo_wired false false) (sig_of wire),
                             sig_of (source_wire k wire)))
                 (filter (λ wire, port_input wire = true) (wires_ demo_src)) ks ∧
    wires_ (miter (demo_wired false false)) = wires_ (miter (fresh_worker false false)) ++ nw ∧
    cells_ (miter (demo_wired false false)) = cells_ (miter (fresh_worker false false)) ++ nc ∧
    filter (λ oc, is_anyseq oc = true) nc
      = zip_with (λ wire k, Some (source_cell k wire))
                 (filter (λ wire, port_input wire = true) (wires_ demo_src)) ks ∧
    Forall2 (λ wire k, source_wire k wire ∈ nw)
            (filter (λ wire, port_input wire = true) (wires_ demo_src)) ks ∧
    (∀ i j k k', (i < j)%nat → ks !! i = Some k → ks !! j = Some k' → (S k < k')%nat) ∧
    Forall (λ k, autoidx (fresh_worker false false) ≤ k ∧
                 S k < autoidx (demo_wired false false))%nat ks ∧
    NoDup ((new_id <$> ks) ++ ((λ k, new_id (S k)) <$> ks)).
Proof.
  destruct (wire_loop_inputs (wires_ demo_src) (fresh_worker false false) ∅
              demo_wires_NoDup eq_refl) as (_ & _ & Hfree).
  apply Hfree. reflexivity.
Defined.

Lemma wire_loop_pool_witness :
  new_connections (foldl run_wire (fresh_worker false true, ∅) [wire_a; wire_c]).1
    = new_connections (fresh_worker false true) ∧
  (foldl run_wire (fresh_worker false true, ∅) [wire_a; wire_c]).2
    = ∅ ∪ list_to_set
            (filter (λ b, is_wire_bit b = true)
               ([wire_a; wire_c] ≫= λ wire, map (sigmap (fresh_worker false true)) (sig_of wire))) ∧
  (pool_wires ∅ → pool_wires (foldl run_wire (fresh_worker false true, ∅) [wire_a; wire_c]).2).
Proof.
  apply (wire_loop_pool [wire_a; wire_c] (fresh_worker false true) ∅). reflexivity.
Defined.

Lemma demo_ports_ok : Forall (λ c, ports_ok c = true) (cells demo_src).
Proof. repeat constructor. Qed.

Lemma demo_names_free ca idx : names_free ca idx demo_src.
Proof.
  split.
  - destruct ca; apply (bool_decide_unpack _); vm_compute; exact I.
  - intros k _ Hin.
    assert (Forall (λ n, isPublic n = true) (names demo_src ++ fixed_names ca demo_src)) as Hpub.
    { destruct ca; apply (bool_decide_unpack _); vm_compute; exact I. }
    rewrite Forall_forall in Hpub. specialize (Hpub _ Hin). by rewrite isPublic_new_id in Hpub.
Qed.

Lemma run_never_aborts_witness :
  ∃ w', run SigMap_of_id (λ _, true) (λ _ port, bool_decide (port = ID_Y))
          (fresh_worker false true) = Some w' ∧
        NoDup (names (miter w')) ∧
        connections (miter w') = new_connections w' ∧
        opt_constrain_all w' = opt_constrain_all (fresh_worker false true) ∧
        opt_constrain_inputs w' = opt_constrain_inputs (fresh_worker false true).
Proof.
  apply (run_never_aborts SigMap_of_id (λ _, true) (λ _ port, bool_decide (port = ID_Y))
           (fresh_worker false true)).
  - repeat constructor.
  - apply demo_names_free.
Defined.

Lemma run_copy_cell_plain_witness :
  run_copy_cell (demo_worker false) 1 and_cell
  = Some (with_miter (demo_worker false)
            (with_cells (miter (demo_worker false))
               (cells_ (miter (demo_worker false)) ++
                [Some (mkCell (label_b (cell_name and_cell)) (type and_cell)
                         (prod_map id (rewrite_sigspec (demo_worker false))
                            <$> connections_ and_cell)
                         (parameters and_cell))]))
            (autoidx (demo_worker false))) ∧
  ∀ port sig, getPort and_cell port = Some sig →
              getPort (mkCell (label_b (cell_name and_cell)) (type and_cell)
                         (prod_map id (rewrite_sigspec (demo_worker false))
                            <$> connections_ and_cell)
                         (parameters and_cell)) port
              = Some (rewrite_sigspec (demo_worker false) sig).
Proof.
  apply (run_copy_cell_plain (demo_worker false) 1 and_cell).
  - reflexivity.
  - repeat constructor; rewrite ?elem_of_cons, ?elem_of_nil; intros H;
      repeat (destruct H as [H|H]; [discriminate H|]); exact H.
Defined.

Lemma run_keeps_path_a_witness :
  ∃ w', run SigMap_of_id (λ _, true) (λ _ port, bool_decide (port = ID_Y))
          (fresh_worker false false) = Some w' ∧
        NoDup (names (miter w')) ∧
        ∀ h c, cells (src_module (fresh_worker false false)) !! h = Some c →
               cells_ (miter w') !! h
               = Some (if compares_undef (sigmap w') c then None else Some c).
Proof.
  apply (run_keeps_path_a SigMap_of_id (λ _, true) (λ _ port, bool_decide (port = ID_Y))
           (fresh_worker false false)).
  - reflexivity.
  - repeat constructor.
  - apply demo_names_free.
Defined.
